(** * Land-plot allocation among four developers

    A shallow embedding of the three allocation algorithms of the
    repository (brute_force.py, greedy.py, two_stage.py) and the proofs of
    their specified properties.

    Conventions of the embedding.
    - Python integers are [Z]; a cell is a pair [(row, col)] of [Z], because
      the code computes neighbours such as [i - 1] before its bounds test.
    - A Python list is a [list]; [regions] is the list of four lists of
      cells; developer indices ([range(4)]) are [nat].
    - [matrix[i][j]] is [cost]; it is only ever evaluated at cells inside the
      grid, where a rectangular matrix has an entry.  Theorems about grids
      carry the hypothesis [rectangular].
    - A Python [set] that is only tested for membership and measured with
      [len] is a duplicate-free [list].  Where the code turns a set into a
      list ([list(adjacent)], [list(boundary_cells)]) the iteration order of
      the set is the field [list_of_set] of the class [SetOrder]: some
      duplicate-free enumeration of the inserted elements. *)

From Stdlib Require Import ZArith List Bool Lia Permutation Arith.
Import ListNotations.
Open Scope Z_scope.

(** ** Data model *)

Definition cell : Type := (Z * Z)%type.
Definition matrix : Type := list (list Z).
Definition regions : Type := list (list cell).

Definition len {A : Type} (l : list A) : Z := Z.of_nat (length l).

Definition cell_eqb (a b : cell) : bool :=
  (fst a =? fst b) && (snd a =? snd b).

(** [c in l] for a list or a set of cells. *)
Definition mem (c : cell) (l : list cell) : bool := existsb (cell_eqb c) l.

(** [matrix[i][j]] *)
Definition cost (mx : matrix) (c : cell) : Z :=
  nth (Z.to_nat (snd c)) (nth (Z.to_nat (fst c)) mx []) 0.

(** [n = len(matrix)], [m = len(matrix[0])] *)
Definition rows (mx : matrix) : Z := len mx.
Definition cols (mx : matrix) : Z := len (nth 0 mx []).

(** [not matrix or not matrix[0]] *)
Definition is_empty_grid (mx : matrix) : bool :=
  match mx with
  | [] => true
  | [] :: _ => true
  | _ => false
  end.

(** The shared input contract: every row has the length of the first. *)
Definition rectangular (mx : matrix) : Prop :=
  forallb (fun row => len row =? cols mx) mx = true.

Definition empty_regions : regions := [[]; []; []; []].

(** [regions[dev]] *)
Definition region (rs : regions) (dev : nat) : list cell := nth dev rs [].

(** [l[k] = v] on a list; out of range the list is left as it is (the code
    never writes out of range). *)
Fixpoint update {A : Type} (l : list A) (k : nat) (v : A) : list A :=
  match l, k with
  | [], _ => []
  | _ :: t, O => v :: t
  | h :: t, S k' => h :: update t k' v
  end.

(** [regions[dev] = r] *)
Definition set_region (rs : regions) (dev : nat) (r : list cell) : regions :=
  update rs dev r.

(** [regions[dev].append(c)] *)
Definition append_cell (rs : regions) (dev : nat) (c : cell) : regions :=
  set_region rs dev (region rs dev ++ [c]).

Definition devs : list nat := [0; 1; 2; 3]%nat.

(** [directions = [(-1, 0), (1, 0), (0, -1), (0, 1)]] *)
Definition directions : list (Z * Z) := [(-1, 0); (1, 0); (0, -1); (0, 1)].

Definition shift (c : cell) (d : Z * Z) : cell := (fst c + fst d, snd c + snd d).

(** [0 <= ni < n and 0 <= nj < m] *)
Definition in_bounds (n m : Z) (c : cell) : bool :=
  (0 <=? fst c) && (fst c <? n) && (0 <=? snd c) && (snd c <? m).

(** ** ObjectiveEvaluator *)

(** [max(sums)], [min(sums)] *)
Definition max_list (l : list Z) : Z :=
  match l with
  | [] => 0
  | x :: t => fold_left Z.max t x
  end.

Definition min_list (l : list Z) : Z :=
  match l with
  | [] => 0
  | x :: t => fold_left Z.min t x
  end.

(** [for i, j in regions[dev]: sums[dev] += matrix[i][j]] *)
Definition region_sum (mx : matrix) (r : list cell) : Z :=
  fold_left (fun s c => s + cost mx c) r 0.

Definition region_sums (mx : matrix) (rs : regions) : list Z :=
  map (fun dev => region_sum mx (region rs dev)) devs.

(** [calculate_imbalance] of greedy.py *)
Definition calculate_imbalance (sums : list Z) : Z :=
  max_list sums - min_list sums.

(** [calculate_objective_value] of brute_force.py *)
Definition calculate_objective_value (mx : matrix) (rs : regions) : Z :=
  let sums := region_sums mx rs in
  max_list sums - min_list sums.

(** ** ConnectivityChecker (brute_force.py) *)

(** The body of [for di, dj in directions] for one popped cell: the state is
    the pair [(visited, queue)]. *)
Definition visit_neighbours (region_set : list cell) (n m : Z) (c : cell)
    (st : list cell * list cell) : list cell * list cell :=
  fold_left
    (fun (s : list cell * list cell) d =>
       let nb := shift c d in
       if in_bounds n m nb && mem nb region_set && negb (mem nb (fst s))
       then (nb :: fst s, snd s ++ [nb])
       else s)
    directions st.

(** [while queue:] Every popped cell was added to [visited] exactly once, so
    the loop pops at most [len(region_coords)] cells; the fuel is that
    number (see [bfs_fuel_enough]). *)
Fixpoint bfs (fuel : nat) (region_set : list cell) (n m : Z)
    (queue visited : list cell) : list cell * list cell :=
  match fuel with
  | O => (visited, queue)
  | S f =>
      match queue with
      | [] => (visited, queue)
      | c :: q =>
          let st := visit_neighbours region_set n m c (visited, q) in
          bfs f region_set n m (snd st) (fst st)
      end
  end.

Definition check_connected (region_coords : list cell) (n m : Z) : bool :=
  if (length region_coords <=? 1)%nat then true
  else
    match region_coords with
    | [] => true
    | start :: _ =>
        let visited :=
          fst (bfs (length region_coords) region_coords n m [start] [start]) in
        (length visited =? length region_coords)%nat
    end.

Definition all_regions_connected (rs : regions) (n m : Z) : bool :=
  forallb
    (fun r => negb ((0 <? length r)%nat && negb (check_connected r n m)))
    rs.

(** ** ExhaustiveSearch (brute_force.py) *)

(** [for idx, dev in enumerate(labels)] *)
Fixpoint labels_to_regions_from (idx : Z) (labels : list nat) (m : Z)
    (rs : regions) : regions :=
  match labels with
  | [] => rs
  | dev :: rest =>
      labels_to_regions_from (idx + 1) rest m
        (append_cell rs dev (idx / m, idx mod m))
  end.

Definition labels_to_regions (labels : list nat) (_n m : Z) : regions :=
  labels_to_regions_from 0 labels m empty_regions.

(** [itertools.product(range(4), repeat=k)]: lexicographic, the last
    position varying fastest. *)
Fixpoint product4 (k : nat) : list (list nat) :=
  match k with
  | O => [[]]
  | S k' => flat_map (fun d => map (cons d) (product4 k')) devs
  end.

(** The state of the enumeration loop.  [best_objective = None] stands for
    [float("inf")], below which every integer lies. *)
Record bf_state : Type := mk_bf {
  best_regions : option regions;
  best_objective : option Z;
  combinations_checked : Z
}.

Definition lt_best (v : Z) (best : option Z) : bool :=
  match best with
  | None => true
  | Some b => v <? b
  end.

(** One pass through the body of [for labels in itertools.product(...)]. *)
Definition bf_step (mx : matrix) (n m : Z) (st : bf_state)
    (labels : list nat) : bf_state :=
  let checked := combinations_checked st + 1 in
  let rs := labels_to_regions labels n m in
  if existsb (fun r => (length r =? 0)%nat) rs then
    mk_bf (best_regions st) (best_objective st) checked
  else if negb (all_regions_connected rs n m) then
    mk_bf (best_regions st) (best_objective st) checked
  else
    let objective_value := calculate_objective_value mx rs in
    if lt_best objective_value (best_objective st) then
      mk_bf (Some rs) (Some objective_value) checked
    else
      mk_bf (best_regions st) (best_objective st) checked.

Definition brute_force_allocation (mx : matrix) : regions * Z :=
  if is_empty_grid mx then (empty_regions, 0)
  else
    let n := rows mx in
    let m := cols mx in
    let total_cells := n * m in
    if 16 <? total_cells then (empty_regions, 0)
    else
      let st :=
        fold_left (bf_step mx n m) (product4 (Z.to_nat total_cells))
          (mk_bf None None 0) in
      match best_regions st with
      | None => (empty_regions, combinations_checked st)
      | Some rs => (rs, combinations_checked st)
      end.

(** ** Iteration order of a Python set

    [list(s)] enumerates a set without repetition in an order fixed by the
    interpreter; the algorithms are verified for every such order. *)

Class SetOrder : Type := {
  list_of_set : list cell -> list cell;
  list_of_set_NoDup : forall l, NoDup (list_of_set l);
  list_of_set_In : forall l c, In c (list_of_set l) <-> In c l
}.

(** One such order: elements in the order of their first insertion. *)
Fixpoint first_seen (seen l : list cell) : list cell :=
  match l with
  | [] => []
  | c :: t =>
      if mem c seen then first_seen seen t else c :: first_seen (c :: seen) t
  end.

(** ** GreedyBuilder (greedy.py) *)

Section Greedy.
Context {ord : SetOrder}.

(** [sums.index(min(sums))] *)
Fixpoint index_of (v : Z) (l : list Z) : nat :=
  match l with
  | [] => O
  | x :: t => if x =? v then O else S (index_of v t)
  end.

Definition get_developer_with_min_sum (sums : list Z) : nat :=
  index_of (min_list sums) sums.

(** [assigned[i][j]] and [assigned[i][j] = True] *)
Definition is_assigned (assigned : list (list bool)) (c : cell) : bool :=
  nth (Z.to_nat (snd c)) (nth (Z.to_nat (fst c)) assigned []) false.

Definition mark_assigned (assigned : list (list bool)) (c : cell)
    : list (list bool) :=
  update assigned (Z.to_nat (fst c))
    (update (nth (Z.to_nat (fst c)) assigned []) (Z.to_nat (snd c)) true).

(** The sequence of [adjacent.add((ni, nj))] calls. *)
Definition adjacent_insertions (r : list cell) (assigned : list (list bool))
    (n m : Z) : list cell :=
  flat_map
    (fun c =>
       flat_map
         (fun d =>
            let nb := shift c d in
            if in_bounds n m nb && negb (is_assigned assigned nb)
            then [nb] else [])
         directions)
    r.

Definition get_adjacent_free_cells (r : list cell)
    (assigned : list (list bool)) (n m : Z) : list cell :=
  list_of_set (adjacent_insertions r assigned n m).

(** [None] stands for the result [(-1, [])]. *)
Fixpoint find_developer_from (ds : list nat) (rs : regions)
    (assigned : list (list bool)) (n m : Z) : option (nat * list cell) :=
  match ds with
  | [] => None
  | dev :: rest =>
      match get_adjacent_free_cells (region rs dev) assigned n m with
      | [] => find_developer_from rest rs assigned n m
      | adjacent_cells => Some (dev, adjacent_cells)
      end
  end.

Definition find_developer_with_adjacent_cells (rs : regions)
    (assigned : list (list bool)) (n m : Z) : option (nat * list cell) :=
  find_developer_from devs rs assigned n m.

(** The loop of [choose_best_cell]: state [(best_cell, min_imbalance)],
    [min_imbalance = None] for [float("inf")]. *)
Definition choose_step (mx : matrix) (sums : list Z) (target_dev : nat)
    (st : option cell * option Z) (c : cell) : option cell * option Z :=
  let temp_sums := update sums target_dev (nth target_dev sums 0 + cost mx c) in
  let imbalance := calculate_imbalance temp_sums in
  if lt_best imbalance (snd st) then (Some c, Some imbalance) else st.

Definition choose_best_cell (adjacent_cells : list cell) (mx : matrix)
    (sums : list Z) (target_dev : nat) : cell :=
  if (length adjacent_cells =? 1)%nat then nth 0 adjacent_cells (0, 0)
  else
    match fst (fold_left (choose_step mx sums target_dev) adjacent_cells
                 (None, None)) with
    | Some c => c
    | None => nth 0 adjacent_cells (0, 0)
    end.

Record greedy_state : Type := mk_greedy {
  g_regions : regions;
  g_sums : list Z;
  g_assigned : list (list bool);
  allocation_iter_count : Z;
  total_assigned : Z
}.

(** [regions[dev].append((i, j)); sums[dev] += matrix[i][j];
    assigned[i][j] = True] *)
Definition assign_cell (mx : matrix) (st : greedy_state) (dev : nat)
    (c : cell) (iters total : Z) : greedy_state :=
  mk_greedy
    (append_cell (g_regions st) dev c)
    (update (g_sums st) dev (nth dev (g_sums st) 0 + cost mx c))
    (mark_assigned (g_assigned st) c)
    iters total.

Definition start_positions (n m : Z) : list cell :=
  [(0, 0); (0, m - 1); (n - 1, 0); (n - 1, m - 1)].

(** Initialisation and the seeding loop [for dev in range(4)];
    [total_assigned = 4] is set after it. *)
Definition greedy_init (mx : matrix) (n m : Z) : greedy_state :=
  let st0 :=
    mk_greedy empty_regions [0; 0; 0; 0]
      (repeat (repeat false (Z.to_nat m)) (Z.to_nat n)) 0 0 in
  let st :=
    fold_left
      (fun st dev =>
         assign_cell mx st dev (nth dev (start_positions n m) (0, 0))
           (allocation_iter_count st) (total_assigned st))
      devs st0 in
  mk_greedy (g_regions st) (g_sums st) (g_assigned st) 0 4.

(** One pass through the body of [while total_assigned < total_cells]; the
    boolean is [true] when the pass ends in [break]. *)
Definition greedy_body (mx : matrix) (n m : Z) (st : greedy_state)
    : greedy_state * bool :=
  let iters := allocation_iter_count st + 1 in
  let min_dev := get_developer_with_min_sum (g_sums st) in
  let adjacent_cells :=
    get_adjacent_free_cells (region (g_regions st) min_dev)
      (g_assigned st) n m in
  let stopped :=
    (mk_greedy (g_regions st) (g_sums st) (g_assigned st) iters
       (total_assigned st), true) in
  let grow target_dev cells :=
    (assign_cell mx st target_dev
       (choose_best_cell cells mx (g_sums st) target_dev)
       iters (total_assigned st + 1), false) in
  match adjacent_cells with
  | [] =>
      match find_developer_with_adjacent_cells (g_regions st)
              (g_assigned st) n m with
      | None => stopped
      | Some (_, []) => stopped
      | Some (target_dev, cells) => grow target_dev cells
      end
  | _ => grow min_dev adjacent_cells
  end.

(** The [while] loop.  Every pass that does not break raises
    [total_assigned] by one, so [total_cells - 4] passes exhaust the loop
    condition (see [greedy_loop_fuel_enough]). *)
Fixpoint greedy_loop (fuel : nat) (mx : matrix) (n m : Z)
    (st : greedy_state) : greedy_state * bool :=
  match fuel with
  | O => (st, false)
  | S f =>
      if total_assigned st <? n * m then
        let r := greedy_body mx n m st in
        if snd r then r else greedy_loop f mx n m (fst r)
      else (st, false)
  end.

(** The run of [greedy_allocation] on a non-empty grid, with the ghost flag
    telling whether the loop was left by [break]. *)
Definition greedy_run (mx : matrix) : greedy_state * bool :=
  let n := rows mx in
  let m := cols mx in
  greedy_loop (Z.to_nat (n * m - 4)) mx n m (greedy_init mx n m).

Definition greedy_allocation (mx : matrix) : regions * Z :=
  if is_empty_grid mx then (empty_regions, 0)
  else
    let st := fst (greedy_run mx) in
    (g_regions st, allocation_iter_count st).

End Greedy.

(** ** TwoStageOptimizer (two_stage.py) *)

(** [range(k)] *)
Definition zrange (k : Z) : list Z := map Z.of_nat (seq 0 (Z.to_nat k)).

(** [for i in range(n): for j in range(m): all_cells.append((i, j))] *)
Definition all_cells (n m : Z) : list cell :=
  flat_map (fun i => map (fun j => (i, j)) (zrange m)) (zrange n).

(** [l[start:stop]] for [0 <= start <= stop] *)
Definition slice {A : Type} (l : list A) (start stop : Z) : list A :=
  firstn (Z.to_nat stop - Z.to_nat start) (skipn (Z.to_nat start) l).

Section TwoStage.
Context {ord : SetOrder}.

(** The body of [for dev in range(4)]: state [(regions, start_idx)]. *)
Definition initial_step (cells : list cell) (cells_per_region remainder : Z)
    (st : regions * Z) (dev : nat) : regions * Z :=
  let region_size :=
    cells_per_region + (if Z.of_nat dev <? remainder then 1 else 0) in
  let end_idx := snd st + region_size in
  (set_region (fst st) dev (slice cells (snd st) end_idx), end_idx).

Definition create_initial_allocation (mx : matrix) : regions :=
  let n := rows mx in
  let m := cols mx in
  let total_cells := n * m in
  let cells := all_cells n m in
  let cells_per_region := total_cells / 4 in
  let remainder := total_cells mod 4 in
  fst (fold_left (initial_step cells cells_per_region remainder) devs
         (empty_regions, 0)).

(** The sequence of [boundary_cells.add((i, j))] calls. *)
Definition has_neighbour_in (other : list cell) (n m : Z) (c : cell) : bool :=
  existsb (fun d => in_bounds n m (shift c d) && mem (shift c d) other)
    directions.

Definition boundary_insertions (region1 region2 : list cell) (n m : Z)
    : list cell :=
  filter (has_neighbour_in region2 n m) region1
  ++ filter (has_neighbour_in region1 n m) region2.

Definition find_boundary_cells (region1 region2 : list cell) (n m : Z)
    : list cell :=
  list_of_set (boundary_insertions region1 region2 n m).

Definition calculate_current_imbalance (mx : matrix) (rs : regions) : Z :=
  let sums := region_sums mx rs in
  max_list sums - min_list sums.

Definition simulate_move (mx : matrix) (rs : regions) (c : cell)
    (from_dev to_dev : nat) : Z :=
  let sums := region_sums mx rs in
  let cell_value := cost mx c in
  let sums := update sums from_dev (nth from_dev sums 0 - cell_value) in
  let sums := update sums to_dev (nth to_dev sums 0 + cell_value) in
  max_list sums - min_list sums.

Definition move : Type := (cell * nat * nat)%type.

(** The body of [for cell in boundary_cells]: state
    [(best_improvement, best_move)]. *)
Definition consider_cell (mx : matrix) (rs : regions) (current_imbalance : Z)
    (dev1 dev2 : nat) (st : Z * option move) (c : cell) : Z * option move :=
  let from_dev := if mem c (region rs dev1) then dev1 else dev2 in
  let to_dev := if Nat.eqb from_dev dev1 then dev2 else dev1 in
  let new_imbalance := simulate_move mx rs c from_dev to_dev in
  let improvement := current_imbalance - new_imbalance in
  if fst st <? improvement then (improvement, Some (c, from_dev, to_dev))
  else st.

Definition scan_pair (mx : matrix) (rs : regions) (n m : Z)
    (current_imbalance : Z) (dev1 : nat) (st : Z * option move) (dev2 : nat)
    : Z * option move :=
  if Nat.eqb dev1 dev2 then st
  else
    fold_left (consider_cell mx rs current_imbalance dev1 dev2)
      (find_boundary_cells (region rs dev1) (region rs dev2) n m) st.

(** The two nested [for dev1 / for dev2] loops of one iteration. *)
Definition find_best_move (mx : matrix) (rs : regions) (n m : Z)
    : option move :=
  let current_imbalance := calculate_current_imbalance mx rs in
  snd (fold_left
         (fun st dev1 =>
            fold_left (scan_pair mx rs n m current_imbalance dev1) devs st)
         devs (0, None)).

(** [l.remove(c)]: the first occurrence goes. *)
Fixpoint remove_first (c : cell) (l : list cell) : list cell :=
  match l with
  | [] => []
  | x :: t => if cell_eqb x c then t else x :: remove_first c t
  end.

(** [regions[from_dev].remove(cell); regions[to_dev].append(cell)] *)
Definition apply_move (rs : regions) (mv : move) : regions :=
  let '(c, from_dev, to_dev) := mv in
  append_cell (set_region rs from_dev (remove_first c (region rs from_dev)))
    to_dev c.

(** [while iterations < max_iterations]: the counter starts at 0 and grows
    by one per pass, so the loop makes at most [max_iterations] passes. *)
Fixpoint optimize_loop (passes : nat) (mx : matrix) (n m : Z) (rs : regions)
    (iterations : Z) : regions * Z :=
  match passes with
  | O => (rs, iterations)
  | S p =>
      match find_best_move mx rs n m with
      | Some mv => optimize_loop p mx n m (apply_move rs mv) (iterations + 1)
      | None => (rs, iterations + 1)
      end
  end.

Definition optimize_boundaries (mx : matrix) (rs : regions)
    (max_iterations : Z) : regions * Z :=
  optimize_loop (Z.to_nat max_iterations) mx (rows mx) (cols mx) rs 0.

Definition two_stage_allocation (mx : matrix) (max_iterations : Z)
    : regions * Z :=
  if is_empty_grid mx then (empty_regions, 0)
  else optimize_boundaries mx (create_initial_allocation mx) max_iterations.

End TwoStage.

(** * Specification-level notions *)

(** Cells of the [n] x [m] grid. *)
Definition in_grid (n m : Z) (c : cell) : Prop :=
  0 <= fst c < n /\ 0 <= snd c < m.

(** 4-neighbour adjacency (up, down, left, right). *)
Definition adjacent (a b : cell) : Prop :=
  exists d, In d directions /\ b = shift a d.

(** [path_in R a b]: [b] is reached from [a] by 4-neighbour steps that stay
    inside [R]. *)
Inductive path_in (R : list cell) : cell -> cell -> Prop :=
| path_refl : forall a, In a R -> path_in R a a
| path_step : forall a b c,
    path_in R a b -> adjacent b c -> In c R -> path_in R a c.

(** Edge-connectivity of a region. *)
Definition connected (R : list cell) : Prop :=
  forall a b, In a R -> In b R -> path_in R a b.

(** The four regions are pairwise disjoint and cover the grid, every cell
    assigned exactly once. *)
Definition disjoint_cover (n m : Z) (rs : regions) : Prop :=
  length rs = 4%nat /\
  (forall d, NoDup (region rs d)) /\
  (forall d1 d2 c, d1 <> d2 -> In c (region rs d1) -> ~ In c (region rs d2)) /\
  (forall c, in_grid n m c <-> exists d, (d < 4)%nat /\ In c (region rs d)).

(** A valid 4-way partition: non-empty, disjoint, covering, connected. *)
Definition valid_partition (n m : Z) (rs : regions) : Prop :=
  disjoint_cover n m rs /\
  (forall d, (d < 4)%nat -> region rs d <> []) /\
  (forall d, (d < 4)%nat -> connected (region rs d)).


(** ** Invariants of the connectivity traversal *)

(** All in-grid neighbours of [x] that lie in the region [R] are in [v]. *)
Definition closed_at (R : list cell) (n m : Z) (x : cell) (v : list cell)
    : Prop :=
  forall d, In d directions -> in_bounds n m (shift x d) = true ->
            In (shift x d) R -> In (shift x d) v.

(** The invariant of the [while queue] loop started at [s]: visited cells
    are distinct and reachable from [s] inside [R], queued cells are
    visited, and every visited cell that left the queue has all its
    neighbours of [R] visited. *)
Definition bfs_inv (R : list cell) (n m : Z) (s : cell) (v q : list cell)
    : Prop :=
  NoDup v /\
  (forall x, In x v -> path_in R s x) /\
  incl q v /\
  (forall x, In x v -> ~ In x q -> closed_at R n m x v).

(** ** Labelings and the partitions they denote *)

(** The cell of a row-major index. *)
Definition cell_of_index (m idx : Z) : cell := (idx / m, idx mod m).

(** The cells that [labels_to_regions] appends to region [d], in order,
    when the labels are numbered from [idx]. *)
Fixpoint cells_labelled (d : nat) (idx : Z) (labels : list nat) (m : Z)
    : list cell :=
  match labels with
  | [] => []
  | x :: t =>
      (if Nat.eqb x d then [cell_of_index m idx] else [])
      ++ cells_labelled d (idx + 1) t m
  end.

(** The test a candidate passes in the enumeration loop: no region is
    empty and every region passes [check_connected]. *)
Definition valid_labels (labels : list nat) (n m : Z) : bool :=
  let rs := labels_to_regions labels n m in
  negb (existsb (fun r => (length r =? 0)%nat) rs)
  && all_regions_connected rs n m.

(** The objective value of a labeling. *)
Definition objective_of (mx : matrix) (labels : list nat) (n m : Z) : Z :=
  calculate_objective_value mx (labels_to_regions labels n m).

(** The developer that owns cell [c] in a partition, and the labeling that
    denotes a partition of the [n] x [m] grid. *)
Definition label_of (rs : regions) (c : cell) : nat :=
  if mem c (region rs 0) then 0%nat
  else if mem c (region rs 1) then 1%nat
  else if mem c (region rs 2) then 2%nat
  else 3%nat.

Definition labels_of (rs : regions) (n m : Z) : list nat :=
  map (fun idx => label_of rs (cell_of_index m idx)) (zrange (n * m)).

(** [first_best mx n m ls l]: in the enumeration [ls], the labeling [l] is
    accepted by the loop, every accepted labeling before it has a strictly
    larger objective and every accepted labeling after it has an objective
    at least as large: [l] is the first minimiser in enumeration order. *)
Definition first_best (mx : matrix) (n m : Z) (ls : list (list nat))
    (l : list nat) : Prop :=
  exists pre post,
    ls = pre ++ l :: post /\
    valid_labels l n m = true /\
    (forall l', In l' pre -> valid_labels l' n m = true ->
                objective_of mx l n m < objective_of mx l' n m) /\
    (forall l', In l' post -> valid_labels l' n m = true ->
                objective_of mx l n m <= objective_of mx l' n m).

(** A labeling that is valid on every grid of 4 to 16 cells: the cells in
    boustrophedon order, the first three alone and the rest together. *)
Definition snake_labels (n m : Z) : list nat :=
  map
    (fun idx =>
       let i := idx / m in
       let j := idx mod m in
       let p := i * m + (if Z.even i then j else m - 1 - j) in
       Z.to_nat (Z.min p 3))
    (zrange (n * m)).

(** The grid dimensions with at most 16 cells lie among these. *)
Definition small_dims : list (Z * Z) :=
  list_prod (map Z.of_nat (seq 1 16)) (map Z.of_nat (seq 1 16)).

(** On a grid of fewer than 4 cells no labeling is accepted; on a grid of 4
    to 16 cells [snake_labels] is. *)
Definition dims_check (d : Z * Z) : bool :=
  let n := fst d in
  let m := snd d in
  if n * m <? 4 then
    forallb (fun l => negb (valid_labels l n m)) (product4 (Z.to_nat (n * m)))
  else if n * m <=? 16 then valid_labels (snake_labels n m) n m
  else true.

(** ** The runs of Stage 1 *)

(** The row-major indices [start, ..., stop - 1] and their cells. *)
Definition index_run (start stop : Z) : list Z :=
  map (fun j => start + j) (zrange (stop - start)).

Definition cell_run (m start stop : Z) : list cell :=
  map (cell_of_index m) (index_run start stop).

(** [region_size], [end_idx] and [start_idx] of the pass for developer
    [dev] in [create_initial_allocation], for [total] cells. *)
Definition region_size (total : Z) (dev : nat) : Z :=
  total / 4 + (if Z.of_nat dev <? total mod 4 then 1 else 0).

Fixpoint run_end (total : Z) (dev : nat) : Z :=
  match dev with
  | O => 0 + region_size total O
  | S d => run_end total d + region_size total dev
  end.

Definition run_start (total : Z) (dev : nat) : Z :=
  match dev with
  | O => 0
  | S d => run_end total d
  end.

(** ** The invariant of the move search of Stage 2 *)

(** [st = (best_improvement, best_move)]: the improvement is never
    negative, and a recorded move takes a cell of its source region to a
    different region for exactly the recorded, positive, improvement. *)
Definition good_search (mx : matrix) (rs : regions) (current : Z)
    (st : Z * option move) : Prop :=
  0 <= fst st /\
  forall c f t, snd st = Some (c, f, t) ->
    f <> t /\ (f < 4)%nat /\ (t < 4)%nat /\ In c (region rs f) /\
    current - simulate_move mx rs c f t = fst st /\ 0 < fst st.

(** The improvement that [consider_cell] computes for the boundary cell [c]
    of the pair [(dev1, dev2)]. *)
Definition improvement_of (mx : matrix) (rs : regions) (dev1 dev2 : nat)
    (c : cell) : Z :=
  let from_dev := if mem c (region rs dev1) then dev1 else dev2 in
  let to_dev := if Nat.eqb from_dev dev1 then dev2 else dev1 in
  calculate_current_imbalance mx rs - simulate_move mx rs c from_dev to_dev.

(** The regions after at most [k] passes of the Stage-2 loop, starting from
    the Stage-1 split. *)
Definition after_passes {ord : SetOrder} (mx : matrix) (k : nat) : regions :=
  fst (optimize_loop k mx (rows mx) (cols mx) (create_initial_allocation mx) 0).

(** ** The invariant of the greedy growth loop *)

(** The matrix [assigned] has [n] rows of [m] entries. *)
Definition assigned_dims (n m : Z) (assigned : list (list bool)) : Prop :=
  length assigned = Z.to_nat n /\
  forall k, (k < Z.to_nat n)%nat -> length (nth k assigned []) = Z.to_nat m.

(** The state of [greedy_allocation] between two passes of its loop, on a
    grid with at least two rows and two columns: the assigned cells are
    the cells of the four regions, each once; the regions are non-empty
    and edge-connected; the counters count them. *)
Record greedy_inv (n m : Z) (st : greedy_state) : Prop := mk_greedy_inv {
  gi_length : length (g_regions st) = 4%nat;
  gi_nodup : NoDup (concat (g_regions st));
  gi_grid : forall c, In c (concat (g_regions st)) -> in_grid n m c;
  gi_assigned : forall c, in_grid n m c ->
    (is_assigned (g_assigned st) c = true <-> In c (concat (g_regions st)));
  gi_dims : assigned_dims n m (g_assigned st);
  gi_total : total_assigned st = len (concat (g_regions st));
  gi_iters : allocation_iter_count st = total_assigned st - 4;
  gi_nonempty : forall d, (d < 4)%nat -> region (g_regions st) d <> [];
  gi_connected : forall d, (d < 4)%nat -> connected (region (g_regions st) d)
}.

(** The state and the ghost flag after at most [k] passes of the loop. *)
Definition greedy_after {ord : SetOrder} (mx : matrix) (k : nat)
    : greedy_state * bool :=
  greedy_loop k mx (rows mx) (cols mx) (greedy_init mx (rows mx) (cols mx)).

(** ** Further functions of the repository *)

(** *** experiments.py *)

(** [calculate_sums]: [sums = [0] * 4], then
    [for dev in range(4): for i, j in regions[dev]: sums[dev] += matrix[i][j]] *)
Definition calculate_sums (mx : matrix) (rs : regions) : list Z :=
  fold_left
    (fun sums dev =>
       fold_left
         (fun sums c => update sums dev (nth dev sums 0 + cost mx c))
         (region rs dev) sums)
    devs [0; 0; 0; 0].

(** [calculate_objective_value(sums)] of experiments.py *)
Definition objective_of_sums (sums : list Z) : Z :=
  max_list sums - min_list sums.

(** [get_max_min_difference]: [max(map(max, matrix)) - min(map(min, matrix))] *)
Definition get_max_min_difference (mx : matrix) : Z :=
  max_list (map max_list mx) - min_list (map min_list mx).

(** *** The allocation matrix of the [visualize_allocation] functions

    The three functions build the same matrix before printing it:
    [allocation_matrix = [[-1 for _ in range(m)] for _ in range(n)]], then
    [for dev in range(4): for i, j in regions[dev]:
       allocation_matrix[i][j] = dev + 1]. *)

(** [am[i][j]] and [am[i][j] = v] *)
Definition entry (am : list (list Z)) (c : cell) : Z :=
  nth (Z.to_nat (snd c)) (nth (Z.to_nat (fst c)) am []) 0.

Definition set_entry (am : list (list Z)) (c : cell) (v : Z)
    : list (list Z) :=
  update am (Z.to_nat (fst c))
    (update (nth (Z.to_nat (fst c)) am []) (Z.to_nat (snd c)) v).

Definition allocation_matrix (mx : matrix) (rs : regions) : list (list Z) :=
  let n := rows mx in
  let m := cols mx in
  fold_left
    (fun am dev =>
       fold_left (fun am c => set_entry am c (Z.of_nat dev + 1))
         (region rs dev) am)
    devs (repeat (repeat (-1) (Z.to_nat m)) (Z.to_nat n)).

(** *** greedy.py: the fallback [get_any_adjacent_free_cells] *)


(** ** Notions for the further properties *)


(** All costs are non-negative. *)
Definition nonneg_costs (mx : matrix) : Prop :=
  forallb (forallb (fun v => 0 <=? v)) mx = true.

(** The state of [greedy_allocation] between two passes of its loop on any
    non-empty grid, also when corners coincide: every region is non-empty,
    duplicate-free and edge-connected, the assigned cells are the cells of
    the regions, and the running sums are the sums of the regions. *)
Record greedy_inv_any (mx : matrix) (n m : Z) (st : greedy_state)
    : Prop := mk_greedy_inv_any {
  ga_length : length (g_regions st) = 4%nat;
  ga_nodup : forall d, NoDup (region (g_regions st) d);
  ga_grid : forall c, In c (concat (g_regions st)) -> in_grid n m c;
  ga_assigned : forall c, in_grid n m c ->
    (is_assigned (g_assigned st) c = true <-> In c (concat (g_regions st)));
  ga_dims : assigned_dims n m (g_assigned st);
  ga_total : total_assigned st = len (concat (g_regions st));
  ga_iters : allocation_iter_count st = total_assigned st - 4;
  ga_nonempty : forall d, (d < 4)%nat -> region (g_regions st) d <> [];
  ga_connected : forall d, (d < 4)%nat -> connected (region (g_regions st) d);
  ga_sums : g_sums st = region_sums mx (g_regions st)
}.

(** A matrix of integers with [n] rows of [m] entries. *)
Definition am_dims (n m : Z) (am : list (list Z)) : Prop :=
  length am = Z.to_nat n /\
  forall k, (k < Z.to_nat n)%nat -> length (nth k am []) = Z.to_nat m.

(** The developer number that the allocation matrix shows for cell [c]:
    the last developer, in index order, whose region holds [c]. *)
Definition shown_developer (rs : regions) (c : cell) : Z :=
  if mem c (region rs 3) then 4
  else if mem c (region rs 2) then 3
  else if mem c (region rs 1) then 2
  else if mem c (region rs 0) then 1
  else -1.

(** * Elementary facts *)

Lemma cell_eqb_eq (a b : cell) : cell_eqb a b = true <-> a = b.
Proof.
  destruct a as [a1 a2], b as [b1 b2]; unfold cell_eqb; simpl.
  rewrite andb_true_iff, !Z.eqb_eq. split.
  - intros [-> ->]; reflexivity.
  - intros H; inversion H; auto.
Qed.

Lemma cell_eqb_refl (a : cell) : cell_eqb a a = true.
Proof. apply cell_eqb_eq; reflexivity. Qed.

Lemma cell_eq_dec (a b : cell) : {a = b} + {a <> b}.
Proof.
  destruct (cell_eqb a b) eqn:E.
  - left; apply cell_eqb_eq; exact E.
  - right; intros H; apply cell_eqb_eq in H; congruence.
Qed.

Lemma mem_In (c : cell) (l : list cell) : mem c l = true <-> In c l.
Proof.
  unfold mem. rewrite existsb_exists. split.
  - intros [x [Hx E]]. apply cell_eqb_eq in E. subst; exact Hx.
  - intros H. exists c. split; [exact H | apply cell_eqb_refl].
Qed.

Lemma mem_not_In (c : cell) (l : list cell) : mem c l = false <-> ~ In c l.
Proof.
  rewrite <- mem_In. destruct (mem c l); split; congruence.
Qed.

Lemma in_bounds_in_grid (n m : Z) (c : cell) :
  in_bounds n m c = true <-> in_grid n m c.
Proof.
  unfold in_bounds, in_grid.
  rewrite !andb_true_iff, !Z.leb_le, !Z.ltb_lt. tauto.
Qed.

Lemma adjacent_sym (a b : cell) : adjacent a b -> adjacent b a.
Proof.
  intros [d [Hd ->]]. destruct a as [i j].
  unfold directions in Hd; simpl in Hd.
  destruct Hd as [<- | [<- | [<- | [<- | []]]]]; unfold shift; simpl.
  - exists (1, 0); split; [simpl; auto | unfold shift; simpl; f_equal; lia].
  - exists (-1, 0); split; [simpl; auto | unfold shift; simpl; f_equal; lia].
  - exists (0, 1); split; [simpl; auto | unfold shift; simpl; f_equal; lia].
  - exists (0, -1); split; [simpl; auto | unfold shift; simpl; f_equal; lia].
Qed.

Lemma path_in_start (R : list cell) (a b : cell) : path_in R a b -> In a R.
Proof. induction 1; auto. Qed.

Lemma path_in_end (R : list cell) (a b : cell) : path_in R a b -> In b R.
Proof. induction 1; auto. Qed.

Lemma path_in_trans (R : list cell) (a b c : cell) :
  path_in R a b -> path_in R b c -> path_in R a c.
Proof.
  intros Hab Hbc. revert Hab. induction Hbc as [x Hx | x y z Hxy IH Hyz Hz].
  - intros Hab; exact Hab.
  - intros Hab. eapply path_step; [apply IH; exact Hab | exact Hyz | exact Hz].
Qed.

Lemma path_in_one (R : list cell) (a b : cell) :
  In a R -> In b R -> adjacent a b -> path_in R a b.
Proof.
  intros Ha Hb Hadj. eapply path_step; [apply path_refl; exact Ha | exact Hadj | exact Hb].
Qed.

Lemma path_in_sym (R : list cell) (a b : cell) :
  path_in R a b -> path_in R b a.
Proof.
  induction 1.
  - apply path_refl; assumption.
  - eapply path_in_trans; [| exact IHpath_in].
    apply path_in_one; auto.
    + eapply path_in_end; eauto.
    + apply adjacent_sym; assumption.
Qed.

Lemma path_in_incl (R R' : list cell) (a b : cell) :
  incl R R' -> path_in R a b -> path_in R' a b.
Proof.
  intros Hi. induction 1.
  - apply path_refl; auto.
  - eapply path_step; eauto.
Qed.

(** Connectivity through a hub: every cell reaches one fixed cell. *)
Lemma connected_via (R : list cell) (s : cell) :
  (forall c, In c R -> path_in R s c) -> connected R.
Proof.
  intros H a b Ha Hb.
  eapply path_in_trans; [apply path_in_sym; apply H; exact Ha | apply H; exact Hb].
Qed.

(** * ConnectivityChecker: the traversal decides edge-connectivity *)

Section BFS.
Variables (R : list cell) (n m : Z) (s : cell).

Lemma closed_at_mono (x : cell) (v v' : list cell) :
  incl v v' -> closed_at R n m x v -> closed_at R n m x v'.
Proof. intros Hi Hc d Hd Hb Hr. apply Hi. apply Hc; assumption. Qed.

(** The loop over the directions of one popped cell [c], for any list of
    directions. *)
Lemma visit_fold_spec (c : cell) (ds : list (Z * Z)) :
  incl ds directions ->
  forall v q,
    NoDup v ->
    (forall x, In x v -> path_in R s x) ->
    In c v ->
    incl q v ->
    (forall x, In x v -> ~ In x q -> x <> c -> closed_at R n m x v) ->
    let st :=
      fold_left
        (fun (s : list cell * list cell) d =>
           let nb := shift c d in
           if in_bounds n m nb && mem nb R && negb (mem nb (fst s))
           then (nb :: fst s, snd s ++ [nb])
           else s)
        ds (v, q) in
    NoDup (fst st) /\
    (forall x, In x (fst st) -> path_in R s x) /\
    incl (snd st) (fst st) /\
    incl v (fst st) /\
    (forall x, In x (fst st) -> ~ In x (snd st) -> x <> c ->
               closed_at R n m x (fst st)) /\
    (forall d, In d ds -> in_bounds n m (shift c d) = true ->
               In (shift c d) R -> In (shift c d) (fst st)) /\
    (length (fst st) + length q = length v + length (snd st))%nat.
Proof.
  induction ds as [| d ds IH]; intros Hds v q Hnd Hpath Hc Hq Hcl; simpl.
  - repeat split; auto using incl_refl. intros d [].
  - assert (Hds' : incl ds directions) by (intros x Hx; apply Hds; right; exact Hx).
    destruct (in_bounds n m (shift c d) && mem (shift c d) R
              && negb (mem (shift c d) v)) eqn:E.
    + apply andb_true_iff in E. destruct E as [E Hv].
      apply andb_true_iff in E. destruct E as [Hb Hr].
      apply mem_In in Hr. apply negb_true_iff in Hv. apply mem_not_In in Hv.
      simpl.
      specialize (IH Hds' (shift c d :: v) (q ++ [shift c d])).
      simpl in IH.
      destruct IH as (I1 & I2 & I3 & I4 & I5 & I6 & I7).
      * constructor; assumption.
      * intros x [<- | Hx]; [| apply Hpath; exact Hx].
        eapply path_step; [apply Hpath; exact Hc | | exact Hr].
        exists d. split; [apply Hds; left; reflexivity | reflexivity].
      * right; exact Hc.
      * intros x Hx. apply in_app_or in Hx. destruct Hx as [Hx | [<- | []]].
        -- right. apply Hq; exact Hx.
        -- left; reflexivity.
      * intros x [<- | Hx] Hnq Hne.
        -- exfalso. apply Hnq. apply in_or_app. right; left; reflexivity.
        -- apply closed_at_mono with (v := v); [intros y Hy; right; exact Hy |].
           apply Hcl; auto. intros Hxq. apply Hnq. apply in_or_app; left; exact Hxq.
      * repeat split; auto.
        -- intros x Hx. apply I4. right; exact Hx.
        -- intros d' [<- | Hd'] Hb' Hr'.
           ++ apply I4. left; reflexivity.
           ++ apply I6; assumption.
        -- rewrite length_app in I7. simpl in I7. lia.
    + simpl.
      specialize (IH Hds' v q Hnd Hpath Hc Hq Hcl). simpl in IH.
      destruct IH as (I1 & I2 & I3 & I4 & I5 & I6 & I7).
      repeat split; auto.
      intros d' [<- | Hd'] Hb' Hr'; [| apply I6; assumption].
      apply I4.
      rewrite Hb' in E. apply mem_In in Hr'. rewrite Hr' in E. simpl in E.
      apply negb_false_iff in E. apply mem_In in E. exact E.
Qed.

Lemma visit_neighbours_spec (c : cell) (v q : list cell) :
  NoDup v ->
  (forall x, In x v -> path_in R s x) ->
  In c v ->
  incl q v ->
  (forall x, In x v -> ~ In x q -> x <> c -> closed_at R n m x v) ->
  let st := visit_neighbours R n m c (v, q) in
  NoDup (fst st) /\
  (forall x, In x (fst st) -> path_in R s x) /\
  incl (snd st) (fst st) /\
  incl v (fst st) /\
  (forall x, In x (fst st) -> ~ In x (snd st) -> x <> c ->
             closed_at R n m x (fst st)) /\
  closed_at R n m c (fst st) /\
  (length (fst st) + length q = length v + length (snd st))%nat.
Proof.
  intros Hnd Hp Hc Hq Hcl.
  exact (visit_fold_spec c directions (incl_refl _) v q Hnd Hp Hc Hq Hcl).
Qed.

Lemma visited_bound (v : list cell) :
  NoDup v -> (forall x, In x v -> path_in R s x) ->
  (length v <= length R)%nat.
Proof.
  intros Hnd Hp. apply NoDup_incl_length; [exact Hnd |].
  intros x Hx. eapply path_in_end. apply Hp. exact Hx.
Qed.

(** With the fuel of [check_connected] the queue is drained, and the
    invariant holds at the end. *)
Lemma bfs_spec (fuel : nat) :
  forall q v,
    bfs_inv R n m s v q ->
    (length R + length q <= fuel + length v)%nat ->
    let st := bfs fuel R n m q v in
    bfs_inv R n m s (fst st) (snd st) /\ snd st = [] /\ incl v (fst st).
Proof.
  induction fuel as [| f IH]; intros q v Hinv Hlen; simpl.
  - destruct Hinv as (Hnd & Hp & Hq & Hcl).
    pose proof (visited_bound v Hnd Hp) as Hb.
    assert (q = []) by (destruct q; [reflexivity | simpl in Hlen; lia]).
    subst q. repeat split; auto using incl_refl.
  - destruct q as [| c q].
    + simpl. split; [exact Hinv | split; [reflexivity | apply incl_refl]].
    + destruct Hinv as (Hnd & Hp & Hq & Hcl).
      pose proof (visit_neighbours_spec c v q Hnd Hp) as V.
      set (st1 := visit_neighbours R n m c (v, q)) in *.
      cbv zeta in V.
      destruct V as (V1 & V2 & V3 & V4 & V5 & V6 & V7).
      * apply Hq; left; reflexivity.
      * intros x Hx; apply Hq; right; exact Hx.
      * intros x Hx Hnq Hne. apply Hcl; [exact Hx |].
        intros [Hc | Hc]; [apply Hne; symmetry; exact Hc | apply Hnq; exact Hc].
      * destruct (IH (snd st1) (fst st1)) as (J1 & J2 & J3).
        -- repeat split; auto.
           intros x Hx Hnq. destruct (cell_eq_dec x c) as [-> | Hne].
           ++ exact V6.
           ++ apply V5; assumption.
        -- simpl in Hlen. lia.
        -- split; [exact J1 | split; [exact J2 |]].
           intros x Hx. apply J3. apply V4. exact Hx.
Qed.

End BFS.

(** The fuel of [check_connected] is enough: the loop ends with an empty
    queue, as [while queue] does. *)
Lemma bfs_fuel_enough (R : list cell) (n m : Z) (s : cell) (tl : list cell) :
  R = s :: tl ->
  snd (bfs (length R) R n m [s] [s]) = [].
Proof.
  intros HR.
  destruct (bfs_spec R n m s (length R) [s] [s]) as (_ & H & _).
  - repeat split.
    + constructor; [intros [] | constructor].
    + intros x [<- | []]. apply path_refl. rewrite HR; left; reflexivity.
    + apply incl_refl.
    + intros x Hx Hn. contradiction.
  - simpl. lia.
  - exact H.
Qed.

Lemma check_connected_small (R : list cell) (n m : Z) :
  (length R <= 1)%nat -> check_connected R n m = true /\ connected R.
Proof.
  intros H. split.
  - unfold check_connected. apply Nat.leb_le in H. rewrite H. reflexivity.
  - destruct R as [| a [| b R]]; simpl in H; try lia.
    + intros a b [].
    + intros x y [<- | []] [<- | []]. apply path_refl. left; reflexivity.
Qed.

(** Soundness: a region that passes the test is edge-connected. *)
Lemma check_connected_sound (R : list cell) (n m : Z) :
  NoDup R -> check_connected R n m = true -> connected R.
Proof.
  intros Hnd H.
  destruct (Nat.leb_spec (length R) 1) as [Hs | Hs].
  - exact (proj2 (check_connected_small R n m Hs)).
  - unfold check_connected in H.
    destruct (length R <=? 1)%nat eqn:E; [apply Nat.leb_le in E; lia |].
    destruct R as [| s tl]; [simpl in Hs; lia |].
    set (R := s :: tl) in *.
    destruct (bfs_spec R n m s (length R) [s] [s]) as (J & _ & _).
    + repeat split.
      * constructor; [intros [] | constructor].
      * intros x [<- | []]. apply path_refl. left; reflexivity.
      * apply incl_refl.
      * intros x Hx Hn. contradiction.
    + simpl. lia.
    + destruct J as (Jnd & Jp & _ & _).
      apply Nat.eqb_eq in H.
      apply connected_via with (s := s).
      assert (Hincl : incl R (fst (bfs (length R) R n m [s] [s]))).
      { apply NoDup_length_incl; [exact Jnd | lia |].
        intros x Hx. eapply path_in_end. apply Jp. exact Hx. }
      intros c Hc. apply Jp. apply Hincl. exact Hc.
Qed.

Lemma path_in_closed (R v : list cell) (n m : Z) (s : cell) :
  (forall c, In c R -> in_grid n m c) ->
  In s v ->
  (forall x, In x v -> closed_at R n m x v) ->
  forall c, path_in R s c -> In c v.
Proof.
  intros Hg Hs Hcl c Hp. induction Hp as [a Ha | a b c Hab IH Hadj Hc].
  - exact Hs.
  - destruct Hadj as [d [Hd ->]].
    apply (Hcl b (IH Hs) d Hd); [| exact Hc].
    apply in_bounds_in_grid. apply Hg. exact Hc.
Qed.

(** Completeness: an edge-connected region inside the grid passes. *)
Lemma check_connected_complete (R : list cell) (n m : Z) :
  NoDup R -> (forall c, In c R -> in_grid n m c) -> connected R ->
  check_connected R n m = true.
Proof.
  intros Hnd Hg Hconn.
  destruct (Nat.leb_spec (length R) 1) as [Hs | Hs].
  - exact (proj1 (check_connected_small R n m Hs)).
  - unfold check_connected.
    destruct (length R <=? 1)%nat eqn:E; [apply Nat.leb_le in E; lia |].
    destruct R as [| s tl]; [simpl in Hs; lia |].
    set (R := s :: tl) in *.
    destruct (bfs_spec R n m s (length R) [s] [s]) as (J & Jq & Ji).
    + repeat split.
      * constructor; [intros [] | constructor].
      * intros x [<- | []]. apply path_refl. left; reflexivity.
      * apply incl_refl.
      * intros x Hx Hn. contradiction.
    + simpl. lia.
    + destruct J as (Jnd & Jp & _ & Jcl).
      rewrite Jq in Jcl.
      set (v := fst (bfs (length R) R n m [s] [s])) in *.
      apply Nat.eqb_eq.
      assert (Hincl : incl R v).
      { intros c Hc. apply (path_in_closed R v n m s Hg).
        - apply Ji; left; reflexivity.
        - intros x Hx. apply Jcl; [exact Hx | intros []].
        - apply Hconn; [left; reflexivity | exact Hc]. }
      apply Nat.le_antisymm.
      * apply NoDup_incl_length; [exact Jnd |].
        intros x Hx. eapply path_in_end. apply Jp. exact Hx.
      * apply NoDup_incl_length; [exact Hnd | exact Hincl].
Qed.

Lemma check_connected_iff (R : list cell) (n m : Z) :
  NoDup R -> (forall c, In c R -> in_grid n m c) ->
  (check_connected R n m = true <-> connected R).
Proof.
  intros Hnd Hg. split.
  - apply check_connected_sound; exact Hnd.
  - apply check_connected_complete; assumption.
Qed.

(** * List updates and regions *)

Lemma length_update {A : Type} (l : list A) (k : nat) (v : A) :
  length (update l k v) = length l.
Proof.
  revert k; induction l as [| h t IH]; intros [| k]; simpl; auto.
Qed.

Lemma nth_update_eq {A : Type} (l : list A) (k : nat) (v d : A) :
  (k < length l)%nat -> nth k (update l k v) d = v.
Proof.
  revert k; induction l as [| h t IH]; intros [| k] H; simpl in *; try lia; auto.
  apply IH; lia.
Qed.

Lemma nth_update_neq {A : Type} (l : list A) (k k' : nat) (v d : A) :
  k <> k' -> nth k' (update l k v) d = nth k' l d.
Proof.
  revert k k'; induction l as [| h t IH]; intros [| k] [| k'] H; simpl; auto; try lia.
Qed.

Lemma update_out_of_range {A : Type} (l : list A) (k : nat) (v : A) :
  (length l <= k)%nat -> update l k v = l.
Proof.
  revert k; induction l as [| h t IH]; intros [| k] H; simpl in *; auto; try lia.
  f_equal; apply IH; lia.
Qed.

Lemma region_set_region_eq (rs : regions) (d : nat) (r : list cell) :
  (d < length rs)%nat -> region (set_region rs d r) d = r.
Proof. apply nth_update_eq. Qed.

Lemma region_set_region_neq (rs : regions) (d d' : nat) (r : list cell) :
  d <> d' -> region (set_region rs d r) d' = region rs d'.
Proof. apply nth_update_neq. Qed.

Lemma length_set_region (rs : regions) (d : nat) (r : list cell) :
  length (set_region rs d r) = length rs.
Proof. apply length_update. Qed.

Lemma length_append_cell (rs : regions) (d : nat) (c : cell) :
  length (append_cell rs d c) = length rs.
Proof. apply length_update. Qed.

Lemma region_append_cell (rs : regions) (d d' : nat) (c : cell) :
  (d < length rs)%nat ->
  region (append_cell rs d c) d' =
  region rs d' ++ (if Nat.eqb d d' then [c] else []).
Proof.
  intros H. unfold append_cell.
  destruct (Nat.eqb_spec d d') as [<- | Hne].
  - apply region_set_region_eq; exact H.
  - rewrite region_set_region_neq by exact Hne. rewrite app_nil_r; reflexivity.
Qed.

Lemma region_out_of_range (rs : regions) (d : nat) :
  (length rs <= d)%nat -> region rs d = [].
Proof. intros H. unfold region. apply nth_overflow; exact H. Qed.

(** * Row-major indices *)

Lemma cell_of_index_inj (m a b : Z) :
  0 < m -> cell_of_index m a = cell_of_index m b -> a = b.
Proof.
  unfold cell_of_index. intros Hm H. inversion H as [[H1 H2]].
  rewrite (Z.div_mod a m), (Z.div_mod b m) by lia. rewrite H1, H2. reflexivity.
Qed.

Lemma cell_of_index_in_grid (n m idx : Z) :
  0 < m -> 0 <= idx < n * m -> in_grid n m (cell_of_index m idx).
Proof.
  intros Hm Hi. unfold in_grid, cell_of_index; simpl.
  pose proof (Z.mod_pos_bound idx m Hm).
  repeat split; try lia.
  - apply Z.div_pos; lia.
  - apply Z.div_lt_upper_bound; lia.
Qed.

Lemma in_grid_index (n m : Z) (c : cell) :
  0 < m -> in_grid n m c ->
  0 <= fst c * m + snd c < n * m /\
  c = cell_of_index m (fst c * m + snd c).
Proof.
  intros Hm [Hi Hj]. destruct c as [i j]; simpl in *. split; [nia |].
  unfold cell_of_index. f_equal.
  - rewrite Z.div_add_l by lia. rewrite Z.div_small by lia. lia.
  - rewrite Z.add_comm, Z.mod_add by lia. rewrite Z.mod_small by lia. reflexivity.
Qed.

(** * What [labels_to_regions] builds *)

Lemma length_labels_to_regions_from (labels : list nat) (m : Z) :
  forall idx rs, length (labels_to_regions_from idx labels m rs) = length rs.
Proof.
  induction labels as [| x t IH]; intros idx rs; simpl; [reflexivity |].
  rewrite IH. apply length_append_cell.
Qed.

Lemma region_labels_to_regions_from (labels : list nat) (m : Z) (d : nat) :
  forall idx rs,
    Forall (fun x => (x < length rs)%nat) labels ->
    region (labels_to_regions_from idx labels m rs) d =
    region rs d ++ cells_labelled d idx labels m.
Proof.
  induction labels as [| x t IH]; intros idx rs HF; simpl.
  - rewrite app_nil_r; reflexivity.
  - inversion HF as [| ? ? Hx Ht]; subst.
    rewrite IH by (rewrite length_append_cell; exact Ht).
    rewrite region_append_cell by exact Hx.
    unfold cell_of_index. rewrite <- app_assoc. reflexivity.
Qed.

Lemma region_labels_to_regions (labels : list nat) (n m : Z) (d : nat) :
  Forall (fun x => (x < 4)%nat) labels ->
  region (labels_to_regions labels n m) d = cells_labelled d 0 labels m.
Proof.
  intros HF. unfold labels_to_regions.
  rewrite region_labels_to_regions_from by exact HF.
  unfold region, empty_regions.
  destruct d as [| [| [| [| d]]]]; simpl; try reflexivity.
  destruct d; reflexivity.
Qed.

Lemma In_cells_labelled (d : nat) (m : Z) (labels : list nat) :
  forall idx c,
    In c (cells_labelled d idx labels m) <->
    exists k, (k < length labels)%nat /\ nth k labels 4%nat = d /\
              c = cell_of_index m (idx + Z.of_nat k).
Proof.
  induction labels as [| x t IH]; intros idx c; simpl.
  - split; [intros [] | intros [k [H _]]; lia].
  - rewrite in_app_iff, IH. split.
    + intros [H | [k [Hk [Hn Hc]]]].
      * destruct (Nat.eqb_spec x d) as [-> | Hne]; [| destruct H].
        destruct H as [<- | []]. exists 0%nat.
        repeat split; [lia | f_equal; lia].
      * exists (S k). repeat split; [lia | exact Hn |].
        rewrite Hc. f_equal. lia.
    + intros [[| k] [Hk [Hn Hc]]].
      * left. simpl in Hn. subst x. rewrite Nat.eqb_refl. left.
        rewrite Hc. f_equal. lia.
      * right. exists k. repeat split; [lia | exact Hn |].
        rewrite Hc. f_equal. lia.
Qed.

Lemma NoDup_cells_labelled (d : nat) (m : Z) (labels : list nat) :
  0 < m -> forall idx, NoDup (cells_labelled d idx labels m).
Proof.
  intros Hm. induction labels as [| x t IH]; intros idx; simpl; [constructor |].
  destruct (Nat.eqb x d); simpl; [| apply IH].
  constructor; [| apply IH].
  intros H. apply In_cells_labelled in H. destruct H as [k [_ [_ Hc]]].
  apply cell_of_index_inj in Hc; [lia | exact Hm].
Qed.

(** A labeling of all [n * m] cells denotes a disjoint cover of the grid. *)
Lemma labels_disjoint_cover (labels : list nat) (n m : Z) :
  0 < m -> 0 <= n ->
  Z.of_nat (length labels) = n * m ->
  Forall (fun x => (x < 4)%nat) labels ->
  disjoint_cover n m (labels_to_regions labels n m).
Proof.
  intros Hm Hn Hlen HF.
  assert (Hreg : forall d, region (labels_to_regions labels n m) d
                           = cells_labelled d 0 labels m)
    by (intros d; apply region_labels_to_regions; exact HF).
  split; [| split; [| split]].
  - unfold labels_to_regions. rewrite length_labels_to_regions_from. reflexivity.
  - intros d. rewrite Hreg. apply NoDup_cells_labelled; exact Hm.
  - intros d1 d2 c Hne H1 H2. rewrite Hreg in H1, H2.
    apply In_cells_labelled in H1. apply In_cells_labelled in H2.
    destruct H1 as [k1 [_ [N1 C1]]]. destruct H2 as [k2 [_ [N2 C2]]].
    rewrite C1 in C2. apply cell_of_index_inj in C2; [| exact Hm].
    assert (k1 = k2) by lia. subst k2. congruence.
  - intros c. split.
    + intros Hg. destruct (in_grid_index n m c Hm Hg) as [Hr Hc].
      set (k := Z.to_nat (fst c * m + snd c)).
      assert (Hk : (k < length labels)%nat) by (unfold k; lia).
      exists (nth k labels 4%nat). split.
      * rewrite Forall_forall in HF. apply HF. apply nth_In. exact Hk.
      * rewrite Hreg. apply In_cells_labelled. exists k.
        repeat split; [exact Hk |].
        rewrite Hc at 1. f_equal. unfold k. lia.
    + intros [d [_ H]]. rewrite Hreg in H. apply In_cells_labelled in H.
      destruct H as [k [Hk [_ ->]]].
      apply cell_of_index_in_grid; [exact Hm | lia].
Qed.

(** * The enumeration [itertools.product(range(4), repeat=k)] *)

Lemma In_product4 (k : nat) (l : list nat) :
  In l (product4 k) <-> length l = k /\ Forall (fun x => (x < 4)%nat) l.
Proof.
  revert l; induction k as [| k IH]; intros l; simpl.
  - split.
    + intros [<- | []]. split; [reflexivity | constructor].
    + intros [H _]. destruct l; [left; reflexivity | discriminate].
  - rewrite !in_app_iff, !in_map_iff. split.
    + intros H.
      assert (exists d t, (d < 4)%nat /\ l = d :: t /\ In t (product4 k)) as (d & t & Hd & -> & Ht).
      { destruct H as [[t [<- Ht]] | [[t [<- Ht]] | [[t [<- Ht]] | [[t [<- Ht]] | []]]]];
          eexists; eexists; (split; [| split; [reflexivity | exact Ht]]); lia. }
      apply IH in Ht. destruct Ht as [Hl HF]. split; [simpl; lia |].
      constructor; assumption.
    + intros [Hl HF]. destruct l as [| d t]; [discriminate |].
      inversion HF as [| ? ? Hd Ht]; subst. simpl in Hl.
      assert (Hin : In t (product4 k)) by (apply IH; split; [lia | exact Ht]).
      destruct d as [| [| [| [| d]]]]; try lia.
      * left. exists t; auto.
      * right; left. exists t; auto.
      * right; right; left. exists t; auto.
      * right; right; right; left. exists t; auto.
Qed.

Lemma length_product4 (k : nat) : len (product4 k) = 4 ^ Z.of_nat k.
Proof.
  unfold len. induction k as [| k IH].
  - reflexivity.
  - simpl product4. rewrite !length_app, !length_map. simpl length.
    rewrite Nat2Z.inj_succ, Z.pow_succ_r by lia. lia.
Qed.

(** * The objective depends on the regions as sets *)

Lemma fold_cost_shift (mx : matrix) (r : list cell) (a : Z) :
  fold_left (fun s c => s + cost mx c) r a =
  a + fold_left (fun s c => s + cost mx c) r 0.
Proof.
  revert a; induction r as [| c r IH]; intros a; simpl; [lia |].
  rewrite (IH (a + cost mx c)), (IH (cost mx c)). lia.
Qed.

Lemma region_sum_cons (mx : matrix) (c : cell) (r : list cell) :
  region_sum mx (c :: r) = cost mx c + region_sum mx r.
Proof.
  unfold region_sum; simpl. rewrite fold_cost_shift. lia.
Qed.

Lemma region_sum_app (mx : matrix) (r1 r2 : list cell) :
  region_sum mx (r1 ++ r2) = region_sum mx r1 + region_sum mx r2.
Proof.
  induction r1 as [| c r1 IH]; simpl.
  - unfold region_sum; simpl; lia.
  - rewrite !region_sum_cons, IH. lia.
Qed.

Lemma region_sum_perm (mx : matrix) (r1 r2 : list cell) :
  Permutation r1 r2 -> region_sum mx r1 = region_sum mx r2.
Proof.
  induction 1; rewrite ?region_sum_cons in *; lia.
Qed.

Lemma objective_perm (mx : matrix) (rs rs' : regions) :
  (forall d, (d < 4)%nat -> Permutation (region rs d) (region rs' d)) ->
  calculate_objective_value mx rs = calculate_objective_value mx rs'.
Proof.
  intros H. unfold calculate_objective_value, region_sums, devs; simpl.
  rewrite (region_sum_perm mx _ _ (H 0%nat ltac:(lia))),
          (region_sum_perm mx _ _ (H 1%nat ltac:(lia))),
          (region_sum_perm mx _ _ (H 2%nat ltac:(lia))),
          (region_sum_perm mx _ _ (H 3%nat ltac:(lia))).
  reflexivity.
Qed.

(** * Connectivity depends on the region as a set *)

Lemma connected_same_cells (R R' : list cell) :
  (forall c, In c R <-> In c R') -> connected R -> connected R'.
Proof.
  intros H Hc a b Ha Hb.
  apply path_in_incl with (R := R); [intros x Hx; apply H; exact Hx |].
  apply Hc; apply H; assumption.
Qed.

(** * The loop test and the valid partitions *)

Lemma forallb_regions (P : list cell -> bool) (rs : regions) :
  length rs = 4%nat ->
  (forallb P rs = true <-> forall d, (d < 4)%nat -> P (region rs d) = true).
Proof.
  intros H.
  destruct rs as [| r0 [| r1 [| r2 [| r3 [| r4 rs]]]]]; try discriminate.
  unfold region; simpl. rewrite !andb_true_iff. split.
  - intros (H0 & H1 & H2 & H3 & _) d Hd.
    destruct d as [| [| [| [| d]]]]; simpl; auto; lia.
  - intros Hd. repeat split.
    + apply (Hd 0%nat); lia.
    + apply (Hd 1%nat); lia.
    + apply (Hd 2%nat); lia.
    + apply (Hd 3%nat); lia.
Qed.

Lemma valid_labels_iff (labels : list nat) (n m : Z) :
  0 < m -> 0 <= n ->
  Z.of_nat (length labels) = n * m ->
  Forall (fun x => (x < 4)%nat) labels ->
  (valid_labels labels n m = true <->
   valid_partition n m (labels_to_regions labels n m)).
Proof.
  intros Hm Hn Hlen HF.
  pose proof (labels_disjoint_cover labels n m Hm Hn Hlen HF) as Hdc.
  assert (H4 : length (labels_to_regions labels n m) = 4%nat) by apply Hdc.
  unfold valid_labels; cbv zeta.
  rewrite andb_true_iff, negb_true_iff.
  rewrite <- (negb_involutive (existsb _ _)), negb_false_iff.
  assert (E : negb (existsb (fun r : list cell => (length r =? 0)%nat)
                      (labels_to_regions labels n m))
              = forallb (fun r => negb (length r =? 0)%nat)
                  (labels_to_regions labels n m)).
  { clear. induction (labels_to_regions labels n m) as [| r t IH]; simpl; auto.
    rewrite negb_orb, IH. reflexivity. }
  rewrite E. unfold all_regions_connected.
  rewrite !(forallb_regions _ _ H4).
  assert (Hgrid : forall d c, In c (region (labels_to_regions labels n m) d)
                              -> in_grid n m c).
  { intros d c Hc. destruct (Nat.lt_ge_cases d 4) as [Hd | Hd].
    - apply Hdc. exists d; split; assumption.
    - rewrite region_out_of_range in Hc by lia. destruct Hc. }
  split.
  - intros [Hne Hcon]. split; [exact Hdc | split].
    + intros d Hd Hempty. specialize (Hne d Hd). rewrite Hempty in Hne.
      discriminate.
    + intros d Hd. specialize (Hcon d Hd). specialize (Hne d Hd).
      apply negb_true_iff in Hcon. apply andb_false_iff in Hcon.
      apply check_connected_sound with (n := n) (m := m); [apply Hdc |].
      destruct Hcon as [Hc | Hc].
      * apply Nat.ltb_ge in Hc. apply negb_true_iff, Nat.eqb_neq in Hne. lia.
      * apply negb_false_iff in Hc. exact Hc.
  - intros (_ & Hne & Hcon). split.
    + intros d Hd. apply negb_true_iff, Nat.eqb_neq.
      specialize (Hne d Hd).
      destruct (region (labels_to_regions labels n m) d); [congruence | simpl; lia].
    + intros d Hd. apply negb_true_iff, andb_false_iff. right.
      apply negb_false_iff.
      apply check_connected_complete; [apply Hdc | apply Hgrid | apply Hcon; exact Hd].
Qed.

(** * Every partition of the grid is denoted by a labeling *)

Lemma nth_zrange (N : Z) (k : nat) (d : Z) :
  (k < Z.to_nat N)%nat -> nth k (zrange N) d = Z.of_nat k.
Proof.
  intros H. unfold zrange.
  rewrite nth_indep with (d' := Z.of_nat 0) by (rewrite length_map, length_seq; exact H).
  rewrite map_nth. rewrite seq_nth by exact H. reflexivity.
Qed.

Lemma length_zrange (N : Z) : length (zrange N) = Z.to_nat N.
Proof. unfold zrange. rewrite length_map, length_seq. reflexivity. Qed.

Lemma In_zrange (N x : Z) : In x (zrange N) <-> 0 <= x < N.
Proof.
  unfold zrange. rewrite in_map_iff. split.
  - intros [k [<- Hk]]. apply in_seq in Hk. lia.
  - intros H. exists (Z.to_nat x). split; [lia | apply in_seq; lia].
Qed.

Lemma length_labels_of (rs : regions) (n m : Z) :
  length (labels_of rs n m) = Z.to_nat (n * m).
Proof. unfold labels_of. rewrite length_map. apply length_zrange. Qed.

Lemma label_of_lt (rs : regions) (c : cell) : (label_of rs c < 4)%nat.
Proof.
  unfold label_of.
  destruct (mem c (region rs 0)), (mem c (region rs 1)), (mem c (region rs 2)); lia.
Qed.

Lemma label_of_owner (n m : Z) (rs : regions) (c : cell) (d : nat) :
  disjoint_cover n m rs -> (d < 4)%nat -> In c (region rs d) ->
  label_of rs c = d.
Proof.
  intros (_ & _ & Hdis & _) Hd Hc. unfold label_of.
  assert (Hm : forall d', d' <> d -> mem c (region rs d') = false).
  { intros d' Hne. apply mem_not_In. intros H'. exact (Hdis d' d c Hne H' Hc). }
  assert (Hd' : mem c (region rs d) = true) by (apply mem_In; exact Hc).
  destruct d as [| [| [| [| d]]]]; try lia.
  - rewrite Hd'. reflexivity.
  - rewrite (Hm 0%nat) by lia. rewrite Hd'. reflexivity.
  - rewrite (Hm 0%nat), (Hm 1%nat) by lia. rewrite Hd'. reflexivity.
  - rewrite (Hm 0%nat), (Hm 1%nat), (Hm 2%nat) by lia. reflexivity.
Qed.

Lemma cells_labelled_labels_of (n m : Z) (rs : regions) (d : nat) (c : cell) :
  0 < m -> 0 <= n -> disjoint_cover n m rs -> (d < 4)%nat ->
  (In c (cells_labelled d 0 (labels_of rs n m) m) <-> In c (region rs d)).
Proof.
  intros Hm Hn Hdc Hd. rewrite In_cells_labelled. split.
  - intros [k [Hk [Hl ->]]]. rewrite length_labels_of in Hk.
    unfold labels_of in Hl.
    rewrite nth_indep with (d' := label_of rs (cell_of_index m 0)) in Hl
      by (rewrite length_map, length_zrange; exact Hk).
    rewrite (map_nth (fun idx => label_of rs (cell_of_index m idx))) in Hl.
    rewrite nth_zrange in Hl by exact Hk. simpl.
    assert (Hg : in_grid n m (cell_of_index m (Z.of_nat k)))
      by (apply cell_of_index_in_grid; [exact Hm | lia]).
    apply (proj2 (proj2 (proj2 Hdc))) in Hg. destruct Hg as [d' [Hd' Hin]].
    assert (label_of rs (cell_of_index m (Z.of_nat k)) = d')
      by (apply (label_of_owner n m); [exact Hdc | exact Hd' | exact Hin]).
    congruence.
  - intros Hc.
    assert (Hg : in_grid n m c) by (apply Hdc; exists d; split; assumption).
    destruct (in_grid_index n m c Hm Hg) as [Hr Hci].
    exists (Z.to_nat (fst c * m + snd c)). rewrite length_labels_of.
    split; [lia | split].
    + unfold labels_of.
      rewrite nth_indep with (d' := label_of rs (cell_of_index m 0))
        by (rewrite length_map, length_zrange; lia).
      rewrite (map_nth (fun idx => label_of rs (cell_of_index m idx))).
      rewrite nth_zrange by lia. rewrite Z2Nat.id by lia.
      rewrite <- Hci. apply (label_of_owner n m); assumption.
    + rewrite Hci at 1. f_equal. lia.
Qed.

(** A valid partition is denoted, region by region up to the order of the
    cells, by a labeling that the enumeration visits and the loop accepts. *)
Lemma valid_partition_labels (n m : Z) (rs : regions) :
  0 < m -> 0 <= n -> valid_partition n m rs ->
  let labels := labels_of rs n m in
  In labels (product4 (Z.to_nat (n * m))) /\
  valid_labels labels n m = true /\
  (forall d, (d < 4)%nat ->
             Permutation (region (labels_to_regions labels n m) d) (region rs d)).
Proof.
  intros Hm Hn (Hdc & Hne & Hcon) labels.
  assert (HF : Forall (fun x => (x < 4)%nat) labels).
  { apply Forall_forall. intros x Hx. unfold labels, labels_of in Hx.
    apply in_map_iff in Hx. destruct Hx as [idx [<- _]]. apply label_of_lt. }
  assert (Hlen : Z.of_nat (length labels) = n * m).
  { unfold labels. rewrite length_labels_of. nia. }
  assert (Hperm : forall d, (d < 4)%nat ->
            Permutation (region (labels_to_regions labels n m) d) (region rs d)).
  { intros d Hd. rewrite region_labels_to_regions by exact HF.
    apply NoDup_Permutation.
    - apply NoDup_cells_labelled; exact Hm.
    - apply Hdc.
    - intros c. apply cells_labelled_labels_of; assumption. }
  split; [| split; [| exact Hperm]].
  - apply In_product4. split; [unfold labels; apply length_labels_of | exact HF].
  - apply valid_labels_iff; try assumption.
    split; [apply labels_disjoint_cover; assumption | split].
    + intros d Hd Hempty. apply (Hne d Hd).
      apply Permutation_nil. rewrite <- Hempty. apply Hperm. exact Hd.
    + intros d Hd. apply connected_same_cells with (R := region rs d).
      * intros c. split; intros H.
        -- eapply Permutation_in; [apply Permutation_sym, Hperm; exact Hd | exact H].
        -- eapply Permutation_in; [apply Hperm; exact Hd | exact H].
      * apply Hcon; exact Hd.
Qed.

(** * ExhaustiveSearch keeps the first minimiser *)

Lemma bf_step_eq (mx : matrix) (n m : Z) (st : bf_state) (l : list nat) :
  bf_step mx n m st l =
  if valid_labels l n m && lt_best (objective_of mx l n m) (best_objective st)
  then mk_bf (Some (labels_to_regions l n m)) (Some (objective_of mx l n m))
         (combinations_checked st + 1)
  else mk_bf (best_regions st) (best_objective st) (combinations_checked st + 1).
Proof.
  unfold bf_step, valid_labels, objective_of; cbv zeta.
  destruct (existsb _ (labels_to_regions l n m)); simpl; [reflexivity |].
  destruct (all_regions_connected (labels_to_regions l n m) n m); simpl;
    reflexivity.
Qed.

Lemma lt_best_trans (a b : Z) (best : option Z) :
  a < b -> lt_best b best = true -> lt_best a best = true.
Proof.
  destruct best as [x |]; simpl; [| reflexivity].
  rewrite !Z.ltb_lt. lia.
Qed.

Lemma lt_best_false (a b : Z) (best : option Z) :
  lt_best a best = false -> lt_best b best = true -> b < a.
Proof.
  destruct best as [x |]; simpl; [| discriminate].
  rewrite Z.ltb_ge, Z.ltb_lt. lia.
Qed.

Lemma bf_fold_spec (mx : matrix) (n m : Z) (ls : list (list nat)) :
  forall st,
    let st' := fold_left (bf_step mx n m) ls st in
    combinations_checked st' = combinations_checked st + len ls /\
    ((best_regions st' = best_regions st /\
      best_objective st' = best_objective st /\
      forall l, In l ls -> valid_labels l n m = true ->
                lt_best (objective_of mx l n m) (best_objective st) = false)
     \/
     (exists l, first_best mx n m ls l /\
                lt_best (objective_of mx l n m) (best_objective st) = true /\
                best_regions st' = Some (labels_to_regions l n m) /\
                best_objective st' = Some (objective_of mx l n m))).
Proof.
  induction ls as [| l rest IH]; intros st; cbv zeta.
  - simpl. split; [unfold len; simpl; lia |]. left.
    repeat split. intros l [].
  - simpl fold_left. rewrite bf_step_eq.
    assert (Hlen : len (l :: rest) = len rest + 1) by (unfold len; simpl length; lia).
    rewrite Hlen.
    destruct (valid_labels l n m
              && lt_best (objective_of mx l n m) (best_objective st)) eqn:E.
    + apply andb_true_iff in E. destruct E as [Hv Hlt].
      specialize (IH (mk_bf (Some (labels_to_regions l n m))
                        (Some (objective_of mx l n m))
                        (combinations_checked st + 1))).
      cbv zeta in IH.
      cbn [best_regions best_objective combinations_checked] in IH.
      destruct IH as [Hcount IH]. split; [lia |]. right.
      destruct IH as [(Hr & Ho & Hall) | (l2 & Hfb & Hlt2 & Hr & Ho)].
      * exists l. split; [| split; [exact Hlt | split; assumption]].
        exists [], rest. split; [reflexivity | split; [exact Hv | split]].
        -- intros l' [].
        -- intros l' Hin Hv'. specialize (Hall l' Hin Hv').
           apply Z.ltb_ge in Hall. exact Hall.
      * exists l2. apply Z.ltb_lt in Hlt2.
        split; [| split; [eapply lt_best_trans; eauto | split; assumption]].
        destruct Hfb as (pre & post & -> & Hv2 & Hpre & Hpost).
        exists (l :: pre), post.
        split; [reflexivity | split; [exact Hv2 | split; [| exact Hpost]]].
        intros l' [<- | Hin] Hv'; [exact Hlt2 | apply Hpre; assumption].
    + specialize (IH (mk_bf (best_regions st) (best_objective st)
                        (combinations_checked st + 1))).
      cbv zeta in IH.
      cbn [best_regions best_objective combinations_checked] in IH.
      destruct IH as [Hcount IH]. split; [lia |].
      destruct IH as [(Hr & Ho & Hall) | (l2 & Hfb & Hlt2 & Hr & Ho)].
      * left. split; [exact Hr | split; [exact Ho |]].
        intros l' [<- | Hin] Hv'; [| apply Hall; assumption].
        rewrite Hv' in E. exact E.
      * right. exists l2. split; [| split; [exact Hlt2 | split; assumption]].
        destruct Hfb as (pre & post & -> & Hv2 & Hpre & Hpost).
        exists (l :: pre), post.
        split; [reflexivity | split; [exact Hv2 | split; [| exact Hpost]]].
        intros l' [<- | Hin] Hv'; [| apply Hpre; assumption].
        rewrite Hv' in E. simpl in E.
        eapply lt_best_false; eauto.
Qed.

Lemma nonempty_dims (mx : matrix) :
  is_empty_grid mx = false -> 1 <= rows mx /\ 1 <= cols mx.
Proof.
  destruct mx as [| [| x row] mx]; simpl; try discriminate.
  intros _. unfold rows, cols, len; simpl. lia.
Qed.

(** The two ways the enumeration can end. *)
Lemma brute_force_cases (mx : matrix) :
  is_empty_grid mx = false -> rows mx * cols mx <= 16 ->
  let n := rows mx in
  let m := cols mx in
  (brute_force_allocation mx = (empty_regions, 4 ^ (n * m)) /\
   forall l, In l (product4 (Z.to_nat (n * m))) -> valid_labels l n m = false)
  \/
  (exists l, first_best mx n m (product4 (Z.to_nat (n * m))) l /\
             brute_force_allocation mx = (labels_to_regions l n m, 4 ^ (n * m))).
Proof.
  intros Hne Hsz n m. destruct (nonempty_dims mx Hne) as [Hn Hm].
  fold n in Hn, Hsz; fold m in Hm, Hsz.
  unfold brute_force_allocation. rewrite Hne. fold n m.
  destruct (16 <? n * m) eqn:E; [apply Z.ltb_lt in E; lia |].
  destruct (bf_fold_spec mx n m (product4 (Z.to_nat (n * m))) (mk_bf None None 0))
    as [Hcount Hcases].
  simpl in Hcount, Hcases.
  rewrite length_product4, Z2Nat.id in Hcount by nia.
  destruct Hcases as [(Hr & _ & Hall) | (l & Hfb & _ & Hr & _)].
  - left. rewrite Hr, Hcount. split; [reflexivity |].
    intros l Hin. destruct (valid_labels l n m) eqn:V; [| reflexivity].
    specialize (Hall l Hin V). discriminate.
  - right. exists l. split; [exact Hfb |]. rewrite Hr, Hcount. reflexivity.
Qed.

(** * Valid partitions exist exactly from 4 cells on *)

Lemma dims_checked : forallb dims_check small_dims = true.
Proof. vm_compute. reflexivity. Qed.

Lemma In_small_dims (n m : Z) :
  1 <= n -> 1 <= m -> n * m <= 16 -> In (n, m) small_dims.
Proof.
  intros Hn Hm Hsz. unfold small_dims. apply in_prod.
  - apply in_map_iff. exists (Z.to_nat n). split; [lia | apply in_seq; nia].
  - apply in_map_iff. exists (Z.to_nat m). split; [lia | apply in_seq; nia].
Qed.

Lemma snake_labels_in_product (n m : Z) :
  In (snake_labels n m) (product4 (Z.to_nat (n * m))).
Proof.
  apply In_product4. unfold snake_labels. split.
  - rewrite length_map. apply length_zrange.
  - apply Forall_forall. intros x Hx. apply in_map_iff in Hx.
    destruct Hx as [idx [<- _]]. cbv zeta. lia.
Qed.

Lemma snake_labels_valid (n m : Z) :
  1 <= n -> 1 <= m -> 4 <= n * m <= 16 ->
  valid_labels (snake_labels n m) n m = true.
Proof.
  intros Hn Hm [Hlo Hhi].
  pose proof dims_checked as H. rewrite forallb_forall in H.
  specialize (H (n, m) (In_small_dims n m Hn Hm Hhi)).
  unfold dims_check in H; simpl in H.
  destruct (n * m <? 4) eqn:E1; [apply Z.ltb_lt in E1; lia |].
  destruct (n * m <=? 16) eqn:E2; [exact H | apply Z.leb_gt in E2; lia].
Qed.

Lemma no_valid_labels_below_4 (n m : Z) (l : list nat) :
  1 <= n -> 1 <= m -> n * m < 4 ->
  In l (product4 (Z.to_nat (n * m))) -> valid_labels l n m = false.
Proof.
  intros Hn Hm Hlt Hin.
  pose proof dims_checked as H. rewrite forallb_forall in H.
  specialize (H (n, m) (In_small_dims n m Hn Hm ltac:(lia))).
  unfold dims_check in H; simpl in H.
  destruct (n * m <? 4) eqn:E1; [| apply Z.ltb_ge in E1; lia].
  rewrite forallb_forall in H. specialize (H l Hin).
  apply negb_true_iff in H. exact H.
Qed.

(** * ExhaustiveSearch returns the optimum *)

Lemma first_best_le (mx : matrix) (n m : Z) (ls : list (list nat))
    (l l' : list nat) :
  first_best mx n m ls l -> In l' ls -> valid_labels l' n m = true ->
  objective_of mx l n m <= objective_of mx l' n m.
Proof.
  intros (pre & post & -> & _ & Hpre & Hpost) Hin Hv.
  apply in_app_or in Hin. destruct Hin as [Hin | [<- | Hin]].
  - specialize (Hpre l' Hin Hv). lia.
  - lia.
  - apply Hpost; assumption.
Qed.

(** The returned objective is at most that of any valid partition. *)
Lemma brute_force_le_valid (mx : matrix) (rs : regions) :
  is_empty_grid mx = false -> rows mx * cols mx <= 16 ->
  valid_partition (rows mx) (cols mx) rs ->
  calculate_objective_value mx (fst (brute_force_allocation mx))
  <= calculate_objective_value mx rs.
Proof.
  intros Hne Hsz Hvp. destruct (nonempty_dims mx Hne) as [Hn Hm].
  destruct (valid_partition_labels (rows mx) (cols mx) rs ltac:(lia) ltac:(lia) Hvp)
    as (Hin & Hv & Hperm).
  rewrite <- (objective_perm mx _ _ Hperm).
  destruct (brute_force_cases mx Hne Hsz) as [[_ Hnone] | (l & Hfb & ->)].
  - rewrite (Hnone _ Hin) in Hv. discriminate.
  - simpl fst. exact (first_best_le mx _ _ _ l _ Hfb Hin Hv).
Qed.

(** C1. On a non-empty grid of at most 16 cells [brute_force_allocation]
    examines [4 ^ (n * m)] labelings; it returns the all-empty result
    exactly when the grid has fewer than 4 cells; and from 4 cells on it
    returns the partition of a labeling [labels] of the enumeration such
    that: the four regions are non-empty, pairwise disjoint, cover the grid
    and are edge-connected; its imbalance is at most that of every valid
    4-way partition; and every valid labeling enumerated before [labels]
    has a strictly larger imbalance (ties go to the first candidate). *)
Theorem brute_force_allocation_optimal (mx : matrix) :
  rectangular mx -> is_empty_grid mx = false -> rows mx * cols mx <= 16 ->
  let n := rows mx in
  let m := cols mx in
  let result := fst (brute_force_allocation mx) in
  snd (brute_force_allocation mx) = 4 ^ (n * m) /\
  (result = empty_regions <-> n * m < 4) /\
  (4 <= n * m ->
   valid_partition n m result /\
   (forall rs, valid_partition n m rs ->
      calculate_objective_value mx result <= calculate_objective_value mx rs) /\
   exists labels pre post,
     product4 (Z.to_nat (n * m)) = pre ++ labels :: post /\
     result = labels_to_regions labels n m /\
     forall l', In l' pre ->
       valid_partition n m (labels_to_regions l' n m) ->
       calculate_objective_value mx result
       < calculate_objective_value mx (labels_to_regions l' n m)).
Proof.
  intros _ Hne Hsz n m result.
  destruct (nonempty_dims mx Hne) as [Hn Hm]. fold n in Hn. fold m in Hm.
  assert (Hin_valid : forall l, In l (product4 (Z.to_nat (n * m))) ->
            (valid_labels l n m = true <->
             valid_partition n m (labels_to_regions l n m))).
  { intros l Hl. apply In_product4 in Hl. destruct Hl as [Hlen HF].
    apply valid_labels_iff; [lia | lia | rewrite Hlen; nia | exact HF]. }
  pose proof (brute_force_le_valid mx) as Hle.
  destruct (brute_force_cases mx Hne Hsz) as [[Hres Hnone] | (l & Hfb & Hres)];
    fold n m in Hres, Hle; subst result; rewrite Hres in *; simpl fst in *; simpl snd.
  - fold n m in Hnone.
    assert (Hlt : n * m < 4).
    { destruct (Z.lt_ge_cases (n * m) 4) as [H | H]; [exact H |].
      assert (Hsnake : valid_labels (snake_labels n m) n m = true)
        by (apply snake_labels_valid; try assumption; fold n m in Hsz; lia).
      rewrite (Hnone _ (snake_labels_in_product n m)) in Hsnake.
      discriminate. }
    split; [reflexivity | split; [tauto | lia]].
  - fold n m in Hfb.
    pose proof Hfb as (pre & post & Hsplit & Hv & Hpre & _).
    assert (Hl : In l (product4 (Z.to_nat (n * m))))
      by (rewrite Hsplit; apply in_or_app; right; left; reflexivity).
    assert (Hvp : valid_partition n m (labels_to_regions l n m))
      by (apply Hin_valid; assumption).
    assert (Hge : 4 <= n * m).
    { destruct (Z.lt_ge_cases (n * m) 4) as [H | H]; [| exact H].
      rewrite (no_valid_labels_below_4 n m l Hn Hm H Hl) in Hv. discriminate. }
    split; [reflexivity | split; [split |]].
    + intros E. exfalso. destruct Hvp as (_ & Hnonempty & _).
      apply (Hnonempty 0%nat); [lia |]. rewrite E. reflexivity.
    + lia.
    + intros _. split; [exact Hvp | split; [intros rs; apply Hle; [exact Hne | exact Hsz] |]].
      exists l, pre, post. split; [exact Hsplit | split; [reflexivity |]].
      intros l' Hin' Hvp'. apply Hpre; [exact Hin' |].
      apply Hin_valid; [| exact Hvp'].
      rewrite Hsplit. apply in_or_app; left; exact Hin'.
Qed.

(** Scenario 1 of the specification on the 2 x 2 grid satisfies the
    hypotheses of C1. *)
Lemma brute_force_allocation_optimal_2x2 :
  let mx := [[1; 2]; [3; 4]] in
  snd (brute_force_allocation mx) = 4 ^ (rows mx * cols mx) /\
  (fst (brute_force_allocation mx) = empty_regions <-> rows mx * cols mx < 4) /\
  (4 <= rows mx * cols mx ->
   valid_partition (rows mx) (cols mx) (fst (brute_force_allocation mx)) /\
   (forall rs, valid_partition (rows mx) (cols mx) rs ->
      calculate_objective_value mx (fst (brute_force_allocation mx))
      <= calculate_objective_value mx rs) /\
   exists labels pre post,
     product4 (Z.to_nat (rows mx * cols mx)) = pre ++ labels :: post /\
     fst (brute_force_allocation mx) = labels_to_regions labels (rows mx) (cols mx) /\
     forall l', In l' pre ->
       valid_partition (rows mx) (cols mx) (labels_to_regions l' (rows mx) (cols mx)) ->
       calculate_objective_value mx (fst (brute_force_allocation mx))
       < calculate_objective_value mx (labels_to_regions l' (rows mx) (cols mx))).
Proof.
  intros mx.
  apply (brute_force_allocation_optimal mx).
  - reflexivity.
  - reflexivity.
  - vm_compute. discriminate.
Defined.

(** * Row-major cell lists *)

Lemma map_seq_shift (k : nat) (len s : nat) :
  map Z.of_nat (seq (k + s) len) =
  map (fun j => Z.of_nat k + j) (map Z.of_nat (seq s len)).
Proof.
  revert s. induction len as [| p IH]; intros s; simpl; [reflexivity |].
  f_equal; [lia |]. rewrite <- IH. f_equal. f_equal. lia.
Qed.

Lemma zrange_app (a b : Z) :
  0 <= a -> 0 <= b ->
  zrange (a + b) = zrange a ++ map (fun j => a + j) (zrange b).
Proof.
  intros Ha Hb. unfold zrange.
  rewrite Z2Nat.inj_add by lia. rewrite seq_app, map_app. f_equal.
  simpl. rewrite <- (Nat.add_0_r (Z.to_nat a)) at 1.
  rewrite map_seq_shift. apply map_ext. intros j. lia.
Qed.

Lemma cell_of_index_row (m i j : Z) :
  0 < m -> 0 <= j < m -> cell_of_index m (i * m + j) = (i, j).
Proof.
  intros Hm Hj. unfold cell_of_index. f_equal.
  - rewrite Z.div_add_l by lia. rewrite Z.div_small by lia. lia.
  - rewrite Z.add_comm, Z.mod_add by lia. apply Z.mod_small; lia.
Qed.

Lemma all_cells_indices (k : nat) (m : Z) :
  0 < m ->
  all_cells (Z.of_nat k) m = map (cell_of_index m) (zrange (Z.of_nat k * m)).
Proof.
  intros Hm. induction k as [| k IH].
  - reflexivity.
  - unfold all_cells in *.
    replace (Z.of_nat (S k)) with (Z.of_nat k + 1) by lia.
    rewrite zrange_app by lia. rewrite flat_map_app, IH.
    replace ((Z.of_nat k + 1) * m) with (Z.of_nat k * m + m) by lia.
    rewrite zrange_app by nia. rewrite map_app. apply (f_equal (app _)).
    simpl. rewrite app_nil_r, map_map.
    apply map_ext_in. intros j Hj. apply In_zrange in Hj.
    rewrite cell_of_index_row by lia. f_equal. lia.
Qed.

Lemma all_cells_eq (n m : Z) :
  0 <= n -> 0 < m ->
  all_cells n m = map (cell_of_index m) (zrange (n * m)).
Proof.
  intros Hn Hm. rewrite <- (Z2Nat.id n Hn). apply all_cells_indices; exact Hm.
Qed.

Lemma skipn_zrange (N s : Z) :
  0 <= s <= N -> skipn (Z.to_nat s) (zrange N) = map (fun j => s + j) (zrange (N - s)).
Proof.
  intros H. replace N with (s + (N - s)) at 1 by lia.
  rewrite zrange_app by lia.
  rewrite skipn_app, length_zrange, Nat.sub_diag. simpl.
  rewrite skipn_all2 by (rewrite length_zrange; lia). reflexivity.
Qed.

Lemma firstn_zrange (N k : Z) :
  0 <= k <= N -> firstn (Z.to_nat k) (zrange N) = zrange k.
Proof.
  intros H. replace N with (k + (N - k)) by lia.
  rewrite zrange_app by lia.
  rewrite firstn_app, length_zrange, Nat.sub_diag. simpl.
  rewrite app_nil_r. apply firstn_all2. rewrite length_zrange; lia.
Qed.

Lemma slice_all_cells (n m s e : Z) :
  0 <= n -> 0 < m -> 0 <= s <= e -> e <= n * m ->
  slice (all_cells n m) s e = cell_run m s e.
Proof.
  intros Hn Hm Hs He. unfold slice, cell_run, index_run.
  rewrite all_cells_eq by assumption.
  rewrite skipn_map, firstn_map. f_equal.
  rewrite skipn_zrange by lia. rewrite firstn_map. f_equal.
  replace (Z.to_nat e - Z.to_nat s)%nat with (Z.to_nat (e - s)) by lia.
  apply firstn_zrange. lia.
Qed.

Lemma In_index_run (s e x : Z) : In x (index_run s e) <-> s <= x < e.
Proof.
  unfold index_run. rewrite in_map_iff. split.
  - intros [j [<- Hj]]. apply In_zrange in Hj. lia.
  - intros H. exists (x - s). split; [lia | apply In_zrange; lia].
Qed.

Lemma In_cell_run (m s e : Z) (c : cell) :
  In c (cell_run m s e) <-> exists x, s <= x < e /\ c = cell_of_index m x.
Proof.
  unfold cell_run. rewrite in_map_iff. split.
  - intros [x [<- Hx]]. exists x. split; [apply In_index_run; exact Hx | reflexivity].
  - intros [x [Hx ->]]. exists x. split; [reflexivity | apply In_index_run; exact Hx].
Qed.

Lemma NoDup_map_inj {A B : Type} (f : A -> B) (l : list A) :
  (forall x y, In x l -> In y l -> f x = f y -> x = y) ->
  NoDup l -> NoDup (map f l).
Proof.
  intros Hinj Hnd. induction Hnd as [| x l Hx Hnd IH]; simpl; constructor.
  - intros H. apply in_map_iff in H. destruct H as [y [E Hy]].
    assert (y = x) by (apply Hinj; [right; exact Hy | left; reflexivity | exact E]).
    subst y. contradiction.
  - apply IH. intros a b Ha Hb. apply Hinj; right; assumption.
Qed.

Lemma NoDup_zrange (N : Z) : NoDup (zrange N).
Proof.
  unfold zrange. apply NoDup_map_inj; [intros; lia | apply seq_NoDup].
Qed.

Lemma NoDup_index_run (s e : Z) : NoDup (index_run s e).
Proof.
  unfold index_run. apply NoDup_map_inj; [intros; lia | apply NoDup_zrange].
Qed.

Lemma NoDup_cell_run (m s e : Z) : 0 < m -> NoDup (cell_run m s e).
Proof.
  intros Hm. unfold cell_run. apply NoDup_map_inj; [| apply NoDup_index_run].
  intros x y _ _ H. eapply cell_of_index_inj; eauto.
Qed.

Lemma In_all_cells (n m : Z) (c : cell) :
  0 <= n -> 0 < m -> (In c (all_cells n m) <-> in_grid n m c).
Proof.
  intros Hn Hm. rewrite all_cells_eq by assumption. rewrite in_map_iff. split.
  - intros [x [<- Hx]]. apply In_zrange in Hx.
    apply cell_of_index_in_grid; assumption.
  - intros Hg. destruct (in_grid_index n m c Hm Hg) as [Hr Hc].
    exists (fst c * m + snd c). split; [symmetry; exact Hc | apply In_zrange; exact Hr].
Qed.

(** * Stage 1: the four runs *)

Lemma run_bounds (total : Z) :
  0 <= total ->
  0 <= run_end total 0 <= run_end total 1 /\
  run_end total 1 <= run_end total 2 /\
  run_end total 2 <= run_end total 3 /\
  run_end total 3 = total.
Proof.
  intros H. unfold run_end, region_size.
  pose proof (Z.div_mod total 4 ltac:(lia)) as Hdm.
  pose proof (Z.mod_pos_bound total 4 ltac:(lia)) as Hmod.
  change (Z.of_nat 0) with 0. change (Z.of_nat 1) with 1.
  change (Z.of_nat 2) with 2. change (Z.of_nat 3) with 3.
  destruct (0 <? total mod 4) eqn:E0, (1 <? total mod 4) eqn:E1,
           (2 <? total mod 4) eqn:E2, (3 <? total mod 4) eqn:E3;
    rewrite ?Z.ltb_lt, ?Z.ltb_ge in *; lia.
Qed.

Lemma run_start_le_end (total : Z) (d : nat) :
  0 <= total -> (d < 4)%nat ->
  0 <= run_start total d <= run_end total d /\ run_end total d <= total.
Proof.
  intros H Hd. pose proof (run_bounds total H) as B.
  destruct d as [| [| [| [| d]]]]; cbn [run_start]; lia.
Qed.

Lemma region_create_initial_allocation (mx : matrix) (d : nat) :
  (d < 4)%nat ->
  region (create_initial_allocation mx) d =
  slice (all_cells (rows mx) (cols mx))
    (run_start (rows mx * cols mx) d) (run_end (rows mx * cols mx) d).
Proof.
  intros Hd. unfold create_initial_allocation, initial_step, region.
  destruct d as [| [| [| [| d]]]]; try lia; reflexivity.
Qed.

Lemma length_create_initial_allocation (mx : matrix) :
  length (create_initial_allocation mx) = 4%nat.
Proof. reflexivity. Qed.

(** Every Stage-1 region is a run of consecutive row-major cells. *)
Lemma stage1_region_run (mx : matrix) (d : nat) :
  is_empty_grid mx = false -> (d < 4)%nat ->
  region (create_initial_allocation mx) d =
  cell_run (cols mx) (run_start (rows mx * cols mx) d)
    (run_end (rows mx * cols mx) d).
Proof.
  intros Hne Hd. destruct (nonempty_dims mx Hne) as [Hn Hm].
  rewrite region_create_initial_allocation by exact Hd.
  pose proof (run_start_le_end (rows mx * cols mx) d ltac:(nia) Hd).
  apply slice_all_cells; lia.
Qed.

(** Stage 1 assigns every cell exactly once. *)
Lemma stage1_disjoint_cover (mx : matrix) :
  is_empty_grid mx = false ->
  disjoint_cover (rows mx) (cols mx) (create_initial_allocation mx).
Proof.
  intros Hne. destruct (nonempty_dims mx Hne) as [Hn Hm].
  set (n := rows mx) in *. set (m := cols mx) in *.
  assert (Ht : 0 <= n * m) by nia.
  pose proof (run_bounds (n * m) Ht) as B.
  assert (Hreg : forall d, (d < 4)%nat ->
            region (create_initial_allocation mx) d =
            cell_run m (run_start (n * m) d) (run_end (n * m) d))
    by (intros d Hd; apply stage1_region_run; assumption).
  assert (Hout : forall d, (4 <= d)%nat -> region (create_initial_allocation mx) d = [])
    by (intros d Hd; apply region_out_of_range;
        rewrite length_create_initial_allocation; exact Hd).
  split; [reflexivity | split; [| split]].
  - intros d. destruct (Nat.lt_ge_cases d 4) as [Hd | Hd].
    + rewrite Hreg by exact Hd. apply NoDup_cell_run; lia.
    + rewrite Hout by exact Hd. constructor.
  - intros d1 d2 c Hne12 H1 H2.
    destruct (Nat.lt_ge_cases d1 4) as [Hd1 | Hd1];
      [| rewrite Hout in H1 by exact Hd1; destruct H1].
    destruct (Nat.lt_ge_cases d2 4) as [Hd2 | Hd2];
      [| rewrite Hout in H2 by exact Hd2; destruct H2].
    rewrite Hreg in H1, H2 by assumption.
    apply In_cell_run in H1. apply In_cell_run in H2.
    destruct H1 as [x1 [R1 ->]]. destruct H2 as [x2 [R2 E]].
    apply cell_of_index_inj in E; [| lia]. subst x2.
    destruct d1 as [| [| [| [| d1]]]]; try lia;
      destruct d2 as [| [| [| [| d2]]]]; try lia;
      cbn [run_start] in *; lia.
  - intros c. split.
    + intros Hg. destruct (in_grid_index n m c ltac:(lia) Hg) as [Hr Hc].
      set (x := fst c * m + snd c) in *.
      assert (Hcase : x < run_end (n * m) 0 \/
                      run_end (n * m) 0 <= x < run_end (n * m) 1 \/
                      run_end (n * m) 1 <= x < run_end (n * m) 2 \/
                      run_end (n * m) 2 <= x < run_end (n * m) 3) by lia.
      destruct Hcase as [H | [H | [H | H]]];
        [exists 0%nat | exists 1%nat | exists 2%nat | exists 3%nat];
        (split; [lia |]); rewrite Hreg by lia; apply In_cell_run;
        exists x; (split; [cbn [run_start]; lia | exact Hc]).
    + intros [d [Hd H]]. rewrite Hreg in H by exact Hd.
      apply In_cell_run in H. destruct H as [x [Hx ->]].
      pose proof (run_start_le_end (n * m) d Ht Hd).
      apply cell_of_index_in_grid; lia.
Qed.

(** * Stage 2: the move search *)

Section Stage2.
Context {ord : SetOrder}.

Lemma fold_left_invariant {A B : Type} (P : A -> Prop) (f : A -> B -> A)
    (l : list B) (Q : B -> Prop) :
  (forall a b, P a -> Q b -> P (f a b)) ->
  (forall b, In b l -> Q b) ->
  forall a, P a -> P (fold_left f l a).
Proof.
  intros Hstep. induction l as [| b l IH]; intros HQ a Ha; simpl; [exact Ha |].
  apply IH.
  - intros b' Hb'. apply HQ. right; exact Hb'.
  - apply Hstep; [exact Ha | apply HQ; left; reflexivity].
Qed.

Lemma In_find_boundary_cells (r1 r2 : list cell) (n m : Z) (c : cell) :
  In c (find_boundary_cells r1 r2 n m) -> In c r1 \/ In c r2.
Proof.
  unfold find_boundary_cells, boundary_insertions.
  rewrite list_of_set_In, in_app_iff, !filter_In. tauto.
Qed.

Lemma consider_cell_good (mx : matrix) (rs : regions) (current : Z)
    (dev1 dev2 : nat) (st : Z * option move) (c : cell) :
  dev1 <> dev2 -> (dev1 < 4)%nat -> (dev2 < 4)%nat ->
  In c (region rs dev1) \/ In c (region rs dev2) ->
  good_search mx rs current st ->
  good_search mx rs current (consider_cell mx rs current dev1 dev2 st c).
Proof.
  intros Hne H1 H2 Hc [Hpos Hmv]. unfold consider_cell.
  set (from_dev := if mem c (region rs dev1) then dev1 else dev2).
  set (to_dev := if Nat.eqb from_dev dev1 then dev2 else dev1).
  destruct (fst st <? current - simulate_move mx rs c from_dev to_dev) eqn:E;
    [| split; assumption].
  apply Z.ltb_lt in E. split; [simpl; lia |].
  intros c' f t Heq. simpl in Heq. inversion Heq; subst c' f t. simpl.
  assert (Hfrom : In c (region rs from_dev) /\
                  ((from_dev = dev1 /\ to_dev = dev2) \/
                   (from_dev = dev2 /\ to_dev = dev1))).
  { unfold to_dev, from_dev. destruct (mem c (region rs dev1)) eqn:M.
    - rewrite Nat.eqb_refl. apply mem_In in M. tauto.
    - apply mem_not_In in M.
      destruct (Nat.eqb_spec dev2 dev1) as [E' | E']; [congruence |].
      split; [tauto | right; tauto]. }
  destruct Hfrom as [Hin [[-> ->] | [-> ->]]]; repeat split; auto; lia.
Qed.

Lemma scan_pair_good (mx : matrix) (rs : regions) (n m : Z) (current : Z)
    (dev1 dev2 : nat) (st : Z * option move) :
  (dev1 < 4)%nat -> (dev2 < 4)%nat ->
  good_search mx rs current st ->
  good_search mx rs current (scan_pair mx rs n m current dev1 st dev2).
Proof.
  intros H1 H2 Hg. unfold scan_pair.
  destruct (Nat.eqb_spec dev1 dev2) as [E | E]; [exact Hg |].
  apply fold_left_invariant with
    (Q := fun c => In c (region rs dev1) \/ In c (region rs dev2)).
  - intros a b Ha Hb. apply consider_cell_good; assumption.
  - intros b Hb. apply In_find_boundary_cells in Hb. exact Hb.
  - exact Hg.
Qed.

Lemma In_devs (d : nat) : In d devs <-> (d < 4)%nat.
Proof. unfold devs; simpl. lia. Qed.

(** A move that the search returns takes a cell out of its own region into
    another one and strictly lowers the imbalance. *)
Lemma find_best_move_spec (mx : matrix) (rs : regions) (n m : Z)
    (c : cell) (f t : nat) :
  find_best_move mx rs n m = Some (c, f, t) ->
  f <> t /\ (f < 4)%nat /\ (t < 4)%nat /\ In c (region rs f) /\
  simulate_move mx rs c f t < calculate_current_imbalance mx rs.
Proof.
  unfold find_best_move. intros H.
  set (current := calculate_current_imbalance mx rs) in *.
  assert (G : good_search mx rs current
                (fold_left
                   (fun st dev1 =>
                      fold_left (scan_pair mx rs n m current dev1) devs st)
                   devs (0, None))).
  { apply fold_left_invariant with (Q := fun d => (d < 4)%nat).
    - intros a d1 Ha Hd1.
      apply fold_left_invariant with (Q := fun d => (d < 4)%nat).
      + intros a' d2 Ha' Hd2. apply scan_pair_good; assumption.
      + intros d2. apply In_devs.
      + exact Ha.
    - intros d. apply In_devs.
    - split; [simpl; lia | intros ? ? ? E; discriminate]. }
  destruct G as [_ G]. specialize (G c f t H).
  destruct G as (G1 & G2 & G3 & G4 & G5 & G6). repeat split; auto. lia.
Qed.

(** * Stage 2: applying a move *)

Lemma In_remove_first (c x : cell) (l : list cell) :
  In x (remove_first c l) -> In x l.
Proof.
  induction l as [| y l IH]; simpl; [tauto |].
  destruct (cell_eqb y c); simpl; tauto.
Qed.

Lemma In_remove_first_iff (c x : cell) (l : list cell) :
  NoDup l -> (In x (remove_first c l) <-> In x l /\ x <> c).
Proof.
  induction 1 as [| y l Hy Hnd IH]; simpl; [tauto |].
  destruct (cell_eqb y c) eqn:E.
  - apply cell_eqb_eq in E. subst y. split.
    + intros Hx. split; [right; exact Hx | intros ->; contradiction].
    + intros [[-> | Hx] Hne]; [congruence | exact Hx].
  - assert (y <> c) by (intros ->; rewrite cell_eqb_refl in E; discriminate).
    simpl. rewrite IH. split.
    + intros [<- | [Hx Hne]]; tauto.
    + intros [[<- | Hx] Hne]; tauto.
Qed.

Lemma NoDup_remove_first (c : cell) (l : list cell) :
  NoDup l -> NoDup (remove_first c l).
Proof.
  induction 1 as [| y l Hy Hnd IH]; simpl; [constructor |].
  destruct (cell_eqb y c); [exact Hnd |].
  constructor; [| exact IH]. intros H. apply Hy. eapply In_remove_first; eauto.
Qed.

Lemma region_sum_remove_first (mx : matrix) (c : cell) (l : list cell) :
  In c l -> region_sum mx (remove_first c l) = region_sum mx l - cost mx c.
Proof.
  induction l as [| y l IH]; simpl; [tauto |].
  intros Hin. destruct (cell_eqb y c) eqn:E.
  - apply cell_eqb_eq in E. subst y. rewrite region_sum_cons. lia.
  - destruct Hin as [-> | Hin]; [rewrite cell_eqb_refl in E; discriminate |].
    rewrite !region_sum_cons, IH by exact Hin. lia.
Qed.

Lemma region_apply_move (rs : regions) (c : cell) (f t d : nat) :
  f <> t -> (f < length rs)%nat -> (t < length rs)%nat ->
  region (apply_move rs (c, f, t)) d =
  if Nat.eqb d t then region rs t ++ [c]
  else if Nat.eqb d f then remove_first c (region rs f)
  else region rs d.
Proof.
  intros Hne Hf Ht. unfold apply_move.
  rewrite region_append_cell by (rewrite length_set_region; exact Ht).
  destruct (Nat.eqb_spec d t) as [-> | Hdt].
  - rewrite Nat.eqb_refl. rewrite region_set_region_neq by exact Hne. reflexivity.
  - destruct (Nat.eqb_spec t d) as [E | _]; [congruence |]. rewrite app_nil_r.
    destruct (Nat.eqb_spec d f) as [-> | Hdf].
    + apply region_set_region_eq; exact Hf.
    + apply region_set_region_neq. congruence.
Qed.

Lemma length_apply_move (rs : regions) (mv : move) :
  length (apply_move rs mv) = length rs.
Proof.
  destruct mv as [[c f] t]. unfold apply_move.
  rewrite length_append_cell, length_set_region. reflexivity.
Qed.

(** A relocation removes the cell from exactly one region and appends it to
    exactly one other: the disjoint cover is preserved. *)
Lemma apply_move_disjoint_cover (n m : Z) (rs : regions) (c : cell)
    (f t : nat) :
  f <> t -> (f < 4)%nat -> (t < 4)%nat -> In c (region rs f) ->
  disjoint_cover n m rs -> disjoint_cover n m (apply_move rs (c, f, t)).
Proof.
  intros Hne Hf Ht Hc (H4 & Hnd & Hdis & Hcov).
  assert (Hreg : forall d, region (apply_move rs (c, f, t)) d =
            if Nat.eqb d t then region rs t ++ [c]
            else if Nat.eqb d f then remove_first c (region rs f)
            else region rs d)
    by (intros d; apply region_apply_move; lia).
  assert (Hin : forall d x, In x (region (apply_move rs (c, f, t)) d) <->
            (d = t /\ (In x (region rs t) \/ x = c)) \/
            (d = f /\ In x (region rs f) /\ x <> c) \/
            (d <> t /\ d <> f /\ In x (region rs d))).
  { intros d x. rewrite Hreg.
    destruct (Nat.eqb_spec d t) as [-> | Hdt].
    - rewrite in_app_iff. simpl. intuition congruence.
    - destruct (Nat.eqb_spec d f) as [-> | Hdf].
      + rewrite (In_remove_first_iff c x (region rs f) (Hnd f)). intuition congruence.
      + intuition congruence. }
  assert (Hct : ~ In c (region rs t)) by (apply (Hdis f t c Hne Hc)).
  split; [rewrite length_apply_move; exact H4 | split; [| split]].
  - intros d. rewrite Hreg.
    destruct (Nat.eqb d t).
    + apply NoDup_app; [apply Hnd | constructor; [intros [] | constructor] |].
      intros x Hx [<- | []]. contradiction.
    + destruct (Nat.eqb d f); [apply NoDup_remove_first |]; apply Hnd.
  - intros d1 d2 x Hne12 H1 H2. apply Hin in H1. apply Hin in H2.
    destruct H1 as [[E1 [H1 | X1]] | [[E1 [H1 N1]] | (A1 & B1 & H1)]];
      destruct H2 as [[E2 [H2 | X2]] | [[E2 [H2 N2]] | (A2 & B2 & H2)]];
      subst; try congruence;
      match goal with
      | Ha : In ?y (region rs ?a), Hb : In ?y (region rs ?b) |- _ =>
          apply (Hdis a b y); [congruence | exact Ha | exact Hb]
      end.
  - intros x. rewrite Hcov. split.
    + intros [d [Hd Hx]].
      destruct (cell_eq_dec x c) as [-> | Hxc].
      * exists t. split; [exact Ht |]. apply Hin. left. tauto.
      * exists d. split; [exact Hd |]. apply Hin.
        destruct (Nat.eq_dec d t) as [-> | Hdt]; [left; tauto |].
        destruct (Nat.eq_dec d f) as [-> | Hdf]; [right; left; tauto |].
        right; right; tauto.
    + intros [d [Hd Hx]]. apply Hin in Hx.
      destruct Hx as [[E [H | X]] | [[E [H _]] | (_ & _ & H)]]; subst.
      * exists t; tauto.
      * exists f; tauto.
      * exists f; tauto.
      * exists d; tauto.
Qed.

Lemma region_sum_one (mx : matrix) (c : cell) :
  region_sum mx [c] = cost mx c.
Proof. reflexivity. Qed.

Lemma region_sums_eq (mx : matrix) (rs : regions) :
  region_sums mx rs =
  [region_sum mx (region rs 0); region_sum mx (region rs 1);
   region_sum mx (region rs 2); region_sum mx (region rs 3)].
Proof. reflexivity. Qed.

(** The imbalance after a relocation is the one [simulate_move] foresaw. *)
Lemma imbalance_apply_move (mx : matrix) (rs : regions) (c : cell)
    (f t : nat) :
  length rs = 4%nat ->
  f <> t -> (f < 4)%nat -> (t < 4)%nat -> In c (region rs f) ->
  calculate_current_imbalance mx (apply_move rs (c, f, t)) =
  simulate_move mx rs c f t.
Proof.
  intros H4 Hne Hf Ht Hc.
  unfold calculate_current_imbalance, simulate_move. cbv zeta.
  rewrite !region_sums_eq.
  rewrite !region_apply_move by lia.
  destruct f as [| [| [| [| f]]]]; try lia;
    destruct t as [| [| [| [| t]]]]; try lia;
    cbn [Nat.eqb update nth];
    rewrite !region_sum_app, !region_sum_one,
      !(region_sum_remove_first mx c _ Hc);
    cbn [max_list min_list fold_left]; lia.
Qed.

(** * Stage 2: the loop *)

(** The final imbalance is at most the initial one, the iteration counter
    grows by at most the number of passes, and the loop stops short of it
    only on a pass that found no improving move. *)
Lemma optimize_loop_spec (mx : matrix) (n m : Z) (passes : nat) :
  forall rs iterations,
    disjoint_cover n m rs ->
    let r := optimize_loop passes mx n m rs iterations in
    disjoint_cover n m (fst r) /\
    calculate_current_imbalance mx (fst r)
    <= calculate_current_imbalance mx rs /\
    iterations <= snd r <= iterations + Z.of_nat passes /\
    (snd r < iterations + Z.of_nat passes ->
     find_best_move mx (fst r) n m = None).
Proof.
  induction passes as [| p IH]; intros rs iterations Hdc; cbv zeta.
  - simpl. split; [exact Hdc | split; [lia | split; [lia | intros H; lia]]].
  - cbn [optimize_loop].
    destruct (find_best_move mx rs n m) as [[[c f] t] |] eqn:E.
    + destruct (find_best_move_spec mx rs n m c f t E)
        as (Hne & Hf & Ht & Hc & Hlt).
      assert (Hdc' : disjoint_cover n m (apply_move rs (c, f, t)))
        by (apply apply_move_disjoint_cover; assumption).
      specialize (IH (apply_move rs (c, f, t)) (iterations + 1) Hdc').
      cbv zeta in IH. destruct IH as (I1 & I2 & I3 & I4).
      rewrite imbalance_apply_move in I2 by (try assumption; apply Hdc).
      split; [exact I1 | split; [lia | split; [lia |]]].
      intros H. apply I4. lia.
    + simpl. split; [exact Hdc | split; [lia | split; [lia |]]].
      intros _. exact E.
Qed.

End Stage2.

(** * Stage 2: convergence *)

Section Stage2Convergence.
Context {ord : SetOrder}.

Lemma fold_left_mono {A B : Type} (g : A -> Z) (f : A -> B -> A) (l : list B) :
  (forall a b, g a <= g (f a b)) ->
  forall a, g a <= g (fold_left f l a).
Proof.
  intros Hm. induction l as [| b l IH]; intros a; simpl; [lia |].
  specialize (IH (f a b)). specialize (Hm a b). lia.
Qed.

Lemma fold_left_reaches {A B : Type} (g : A -> Z) (f : A -> B -> A)
    (l : list B) (b : B) (v : Z) :
  (forall a b', g a <= g (f a b')) ->
  In b l -> (forall a, v <= g (f a b)) ->
  forall a, v <= g (fold_left f l a).
Proof.
  intros Hm Hin Hb. induction l as [| x l IH]; intros a; simpl; [destruct Hin |].
  destruct Hin as [-> | Hin].
  - pose proof (fold_left_mono g f l Hm (f a b)). specialize (Hb a). lia.
  - apply IH; exact Hin.
Qed.

Lemma consider_cell_mono (mx : matrix) (rs : regions) (dev1 dev2 : nat)
    (st : Z * option move) (c : cell) :
  fst st
  <= fst (consider_cell mx rs (calculate_current_imbalance mx rs) dev1 dev2 st c)
  /\
  improvement_of mx rs dev1 dev2 c
  <= fst (consider_cell mx rs (calculate_current_imbalance mx rs) dev1 dev2 st c).
Proof.
  unfold consider_cell, improvement_of. cbv zeta.
  match goal with |- context [if ?b then _ else _] => destruct b eqn:E end.
  - apply Z.ltb_lt in E. simpl. lia.
  - apply Z.ltb_ge in E. lia.
Qed.

Lemma scan_pair_mono (mx : matrix) (rs : regions) (n m : Z) (dev1 dev2 : nat)
    (st : Z * option move) :
  fst st
  <= fst (scan_pair mx rs n m (calculate_current_imbalance mx rs) dev1 st dev2).
Proof.
  unfold scan_pair. destruct (Nat.eqb dev1 dev2); [lia |].
  apply (fold_left_mono fst). intros a b. apply consider_cell_mono.
Qed.

Lemma scan_pair_reaches (mx : matrix) (rs : regions) (n m : Z)
    (dev1 dev2 : nat) (c : cell) (st : Z * option move) :
  dev1 <> dev2 ->
  In c (find_boundary_cells (region rs dev1) (region rs dev2) n m) ->
  improvement_of mx rs dev1 dev2 c
  <= fst (scan_pair mx rs n m (calculate_current_imbalance mx rs) dev1 st dev2).
Proof.
  intros Hne Hin. unfold scan_pair.
  destruct (Nat.eqb_spec dev1 dev2) as [E | _]; [contradiction |].
  apply (fold_left_reaches fst) with (b := c).
  - intros a b. apply consider_cell_mono.
  - exact Hin.
  - intros a. apply consider_cell_mono.
Qed.

Lemma search_none_zero (mx : matrix) (rs : regions) (current : Z)
    (dev1 dev2 : nat) (st : Z * option move) (c : cell) :
  (snd st = None -> fst st = 0) ->
  snd (consider_cell mx rs current dev1 dev2 st c) = None ->
  fst (consider_cell mx rs current dev1 dev2 st c) = 0.
Proof.
  unfold consider_cell. cbv zeta.
  match goal with |- context [if ?b then _ else _] => destruct b end; simpl.
  - discriminate.
  - auto.
Qed.

(** When the search returns no move, no relocation of a boundary cell of
    any pair of distinct regions lowers the imbalance. *)
Lemma find_best_move_none (mx : matrix) (rs : regions) (n m : Z) :
  find_best_move mx rs n m = None ->
  forall dev1 dev2 c,
    (dev1 < 4)%nat -> (dev2 < 4)%nat -> dev1 <> dev2 ->
    In c (find_boundary_cells (region rs dev1) (region rs dev2) n m) ->
    improvement_of mx rs dev1 dev2 c <= 0.
Proof.
  unfold find_best_move. cbv zeta.
  set (current := calculate_current_imbalance mx rs).
  set (inner := fun st dev1 =>
                  fold_left (scan_pair mx rs n m current dev1) devs st).
  intros Hnone dev1 dev2 c H1 H2 Hne Hin.
  assert (Hmono : forall a d, fst a <= fst (inner a d)).
  { intros a d. unfold inner. apply (fold_left_mono fst).
    intros a' d'. apply scan_pair_mono. }
  assert (Hreach : improvement_of mx rs dev1 dev2 c
                   <= fst (fold_left inner devs (0, None))).
  { apply (fold_left_reaches fst) with (b := dev1).
    - exact Hmono.
    - apply In_devs; exact H1.
    - intros a. unfold inner.
      apply (fold_left_reaches fst) with (b := dev2).
      + intros a' d'. apply scan_pair_mono.
      + apply In_devs; exact H2.
      + intros a'. apply scan_pair_reaches; assumption. }
  assert (Hzero : snd (fold_left inner devs (0, None)) = None ->
                  fst (fold_left inner devs (0, None)) = 0).
  { apply (fold_left_invariant
             (fun st : Z * option move => snd st = None -> fst st = 0)
             inner devs (fun _ => True)); [| auto | auto].
    intros a d Ha _. unfold inner.
    apply (fold_left_invariant
             (fun st : Z * option move => snd st = None -> fst st = 0)
             _ devs (fun _ => True)); [| auto | exact Ha].
    intros a' d' Ha' _. unfold scan_pair.
    destruct (Nat.eqb d d'); [exact Ha' |].
    apply (fold_left_invariant
             (fun st : Z * option move => snd st = None -> fst st = 0)
             _ _ (fun _ => True)); [| auto | exact Ha'].
    intros a'' c' Ha'' _. apply search_none_zero. exact Ha''. }
  fold current inner in Hnone. specialize (Hzero Hnone). lia.
Qed.

(** One more pass applies the move found on the regions reached so far, if
    there is one. *)
Lemma optimize_loop_succ (mx : matrix) (n m : Z) (k : nat) :
  forall rs iterations,
    fst (optimize_loop (S k) mx n m rs iterations) =
    let r := fst (optimize_loop k mx n m rs iterations) in
    match find_best_move mx r n m with
    | Some mv => apply_move r mv
    | None => r
    end.
Proof.
  induction k as [| k IH]; intros rs iterations.
  - simpl. destruct (find_best_move mx rs n m); reflexivity.
  - cbn [optimize_loop] in *. cbv zeta in *.
    destruct (find_best_move mx rs n m) as [mv |] eqn:E.
    + specialize (IH (apply_move rs mv) (iterations + 1)). exact IH.
    + simpl. rewrite E. reflexivity.
Qed.

(** The loop stops on the first pass whose search finds no move. *)
Lemma optimize_loop_stops (mx : matrix) (n m : Z) (passes : nat) :
  forall rs iterations k,
    (k < passes)%nat ->
    find_best_move mx (fst (optimize_loop k mx n m rs iterations)) n m = None ->
    snd (optimize_loop passes mx n m rs iterations)
    <= iterations + Z.of_nat k + 1.
Proof.
  induction passes as [| p IH]; intros rs iterations k Hk Hnone; [lia |].
  cbn [optimize_loop].
  destruct (find_best_move mx rs n m) as [mv |] eqn:E.
  - destruct k as [| k].
    + simpl in Hnone. congruence.
    + cbn [optimize_loop] in Hnone. rewrite E in Hnone.
      specialize (IH (apply_move rs mv) (iterations + 1) k ltac:(lia) Hnone).
      lia.
  - simpl. lia.
Qed.

Lemma after_passes_disjoint_cover (mx : matrix) (k : nat) :
  is_empty_grid mx = false ->
  disjoint_cover (rows mx) (cols mx) (after_passes mx k).
Proof.
  intros Hne. unfold after_passes.
  apply optimize_loop_spec. apply stage1_disjoint_cover. exact Hne.
Qed.

End Stage2Convergence.

(** * An iteration order for sets *)

Lemma In_first_seen (l : list cell) :
  forall seen c, In c (first_seen seen l) <-> In c l /\ ~ In c seen.
Proof.
  induction l as [| x l IH]; intros seen c; simpl; [tauto |].
  destruct (mem x seen) eqn:E.
  - apply mem_In in E. rewrite IH. split; [tauto |].
    intros [[<- | H] Hn]; tauto.
  - apply mem_not_In in E. simpl. rewrite IH. simpl. split.
    + intros [<- | [H Hn]]; tauto.
    + intros [[<- | H] Hn]; [tauto |].
      destruct (cell_eq_dec x c) as [-> | Hne]; tauto.
Qed.

Lemma NoDup_first_seen (l : list cell) :
  forall seen, NoDup (first_seen seen l).
Proof.
  induction l as [| x l IH]; intros seen; simpl; [constructor |].
  destruct (mem x seen); [apply IH |].
  constructor; [| apply IH].
  rewrite In_first_seen. intros [_ H]. apply H. left; reflexivity.
Qed.

(** Sets enumerated in the order of first insertion. *)
#[export] Instance first_seen_order : SetOrder.
Proof.
  refine {| list_of_set := first_seen [] |}.
  - intros l. apply NoDup_first_seen.
  - intros l c. rewrite In_first_seen. simpl. tauto.
Defined.

(** * TwoStageOptimizer: the specified properties *)

Lemma two_stage_allocation_eq {ord : SetOrder} (mx : matrix)
    (max_iterations : Z) :
  is_empty_grid mx = false ->
  two_stage_allocation mx max_iterations =
  optimize_loop (Z.to_nat max_iterations) mx (rows mx) (cols mx)
    (create_initial_allocation mx) 0.
Proof.
  intros Hne. unfold two_stage_allocation, optimize_boundaries.
  rewrite Hne. reflexivity.
Qed.

(** C5. On a non-empty grid, for every iteration budget, the partition
    returned by [two_stage_allocation] consists of 4 pairwise disjoint
    regions that cover the grid, every cell assigned exactly once: the
    Stage-1 split is such a partition, and every relocation that Stage 2
    applies takes a cell of the source region [f], removes it there and
    appends it to another region [t], leaving the other regions alone, which
    preserves the property. *)
Theorem two_stage_disjoint_cover {ord : SetOrder} (mx : matrix)
    (max_iterations : Z) :
  rectangular mx -> is_empty_grid mx = false -> 0 <= max_iterations ->
  let n := rows mx in
  let m := cols mx in
  disjoint_cover n m (create_initial_allocation mx) /\
  (forall rs c f t,
      disjoint_cover n m rs -> find_best_move mx rs n m = Some (c, f, t) ->
      In c (region rs f) /\ f <> t /\
      (forall d, region (apply_move rs (c, f, t)) d =
                 if Nat.eqb d t then region rs t ++ [c]
                 else if Nat.eqb d f then remove_first c (region rs f)
                 else region rs d) /\
      disjoint_cover n m (apply_move rs (c, f, t))) /\
  disjoint_cover n m (fst (two_stage_allocation mx max_iterations)).
Proof.
  intros _ Hne _ n m.
  pose proof (stage1_disjoint_cover mx Hne) as H1. fold n m in H1.
  split; [exact H1 | split].
  - intros rs c f t Hdc Hmv.
    destruct (find_best_move_spec mx rs n m c f t Hmv)
      as (Hft & Hf & Ht & Hc & _).
    split; [exact Hc | split; [exact Hft | split]].
    + intros d. apply region_apply_move; [exact Hft | |];
        destruct Hdc as [H4 _]; lia.
    + apply apply_move_disjoint_cover; assumption.
  - rewrite two_stage_allocation_eq by exact Hne.
    apply optimize_loop_spec. exact H1.
Qed.

Lemma two_stage_disjoint_cover_3x3 :
  let mx := [[1; 2; 3]; [4; 5; 6]; [7; 8; 9]] in
  disjoint_cover 3 3 (create_initial_allocation mx) /\
  (forall rs c f t,
      disjoint_cover 3 3 rs -> find_best_move mx rs 3 3 = Some (c, f, t) ->
      In c (region rs f) /\ f <> t /\
      (forall d, region (apply_move rs (c, f, t)) d =
                 if Nat.eqb d t then region rs t ++ [c]
                 else if Nat.eqb d f then remove_first c (region rs f)
                 else region rs d) /\
      disjoint_cover 3 3 (apply_move rs (c, f, t))) /\
  disjoint_cover 3 3 (fst (two_stage_allocation mx 50)).
Proof.
  intros mx.
  apply (@two_stage_disjoint_cover first_seen_order mx 50).
  - reflexivity.
  - reflexivity.
  - lia.
Defined.

(** C7. On a non-empty grid the imbalance never grows from one Stage-2
    iteration to the next: the regions after [k + 1] passes have an
    imbalance at most that after [k] passes; a pass that finds a move
    applies it and strictly lowers the imbalance; and so, for every
    iteration budget, the imbalance that [two_stage_allocation] returns is
    at most that of its own Stage-1 split. *)
Theorem two_stage_imbalance_monotone {ord : SetOrder} (mx : matrix)
    (max_iterations : Z) :
  rectangular mx -> is_empty_grid mx = false ->
  let n := rows mx in
  let m := cols mx in
  (forall k, calculate_current_imbalance mx (after_passes mx (S k))
             <= calculate_current_imbalance mx (after_passes mx k)) /\
  (forall k mv,
      find_best_move mx (after_passes mx k) n m = Some mv ->
      after_passes mx (S k) = apply_move (after_passes mx k) mv /\
      calculate_current_imbalance mx (after_passes mx (S k))
      < calculate_current_imbalance mx (after_passes mx k)) /\
  fst (two_stage_allocation mx max_iterations)
  = after_passes mx (Z.to_nat max_iterations) /\
  calculate_objective_value mx (fst (two_stage_allocation mx max_iterations))
  <= calculate_objective_value mx (create_initial_allocation mx).
Proof.
  intros _ Hne n m.
  assert (Hstep : forall k mv,
            find_best_move mx (after_passes mx k) n m = Some mv ->
            after_passes mx (S k) = apply_move (after_passes mx k) mv /\
            calculate_current_imbalance mx (after_passes mx (S k))
            < calculate_current_imbalance mx (after_passes mx k)).
  { intros k [[c f] t] Hmv.
    assert (E : after_passes mx (S k) = apply_move (after_passes mx k) (c, f, t)).
    { unfold after_passes at 1. rewrite optimize_loop_succ. cbv zeta.
      fold (after_passes mx k). fold n m. rewrite Hmv. reflexivity. }
    split; [exact E |]. rewrite E.
    destruct (find_best_move_spec mx _ n m c f t Hmv)
      as (Hft & Hf & Ht & Hc & Hlt).
    rewrite imbalance_apply_move; try assumption.
    apply (after_passes_disjoint_cover mx k Hne). }
  split; [| split; [exact Hstep | split]].
  - intros k.
    destruct (find_best_move mx (after_passes mx k) n m) as [mv |] eqn:E.
    + destruct (Hstep k mv E) as [_ H]. lia.
    + unfold after_passes at 1. rewrite optimize_loop_succ. cbv zeta.
      fold (after_passes mx k). fold n m. rewrite E. lia.
  - rewrite two_stage_allocation_eq by exact Hne. reflexivity.
  - rewrite two_stage_allocation_eq by exact Hne.
    apply (optimize_loop_spec mx n m (Z.to_nat max_iterations)
             (create_initial_allocation mx) 0).
    apply stage1_disjoint_cover. exact Hne.
Qed.

Lemma two_stage_imbalance_monotone_3x3 :
  let mx := [[1; 2; 3]; [4; 5; 6]; [7; 8; 9]] in
  (forall k, calculate_current_imbalance mx (after_passes mx (S k))
             <= calculate_current_imbalance mx (after_passes mx k)) /\
  (forall k mv,
      find_best_move mx (after_passes mx k) 3 3 = Some mv ->
      after_passes mx (S k) = apply_move (after_passes mx k) mv /\
      calculate_current_imbalance mx (after_passes mx (S k))
      < calculate_current_imbalance mx (after_passes mx k)) /\
  fst (two_stage_allocation mx 50) = after_passes mx 50 /\
  calculate_objective_value mx (fst (two_stage_allocation mx 50))
  <= calculate_objective_value mx (create_initial_allocation mx).
Proof.
  intros mx.
  apply (@two_stage_imbalance_monotone first_seen_order mx 50).
  - reflexivity.
  - reflexivity.
Defined.

(** C8. On a non-empty grid and for every budget [max_iterations >= 0],
    [two_stage_allocation] (a total function: its loop makes at most
    [max_iterations] passes) returns an iteration count between 0 and
    [max_iterations]; when the count is below the budget the loop stopped
    on a pass whose search found no move, and then no relocation of a
    boundary cell between two distinct regions improves the imbalance of
    the returned regions; and the loop stops on the first pass that finds
    no move: if the search fails on the regions reached after [k] passes,
    with [k] below the budget, the count is at most [k + 1]. *)
Theorem two_stage_iterations_bounded {ord : SetOrder} (mx : matrix)
    (max_iterations : Z) :
  rectangular mx -> is_empty_grid mx = false -> 0 <= max_iterations ->
  let n := rows mx in
  let m := cols mx in
  let r := two_stage_allocation mx max_iterations in
  0 <= snd r <= max_iterations /\
  (snd r < max_iterations ->
   find_best_move mx (fst r) n m = None /\
   forall dev1 dev2 c,
     (dev1 < 4)%nat -> (dev2 < 4)%nat -> dev1 <> dev2 ->
     In c (find_boundary_cells (region (fst r) dev1) (region (fst r) dev2) n m) ->
     improvement_of mx (fst r) dev1 dev2 c <= 0) /\
  (forall k : nat,
     Z.of_nat k < max_iterations ->
     find_best_move mx (after_passes mx k) n m = None ->
     snd r <= Z.of_nat k + 1).
Proof.
  intros _ Hne Hmax n m r.
  unfold r. rewrite two_stage_allocation_eq by exact Hne. fold n m.
  destruct (optimize_loop_spec mx n m (Z.to_nat max_iterations)
              (create_initial_allocation mx) 0
              (stage1_disjoint_cover mx Hne)) as (_ & _ & Hb & Hstop).
  split; [lia | split].
  - intros Hlt.
    assert (Hnone : find_best_move mx
              (fst (optimize_loop (Z.to_nat max_iterations) mx n m
                      (create_initial_allocation mx) 0)) n m = None)
      by (apply Hstop; lia).
    split; [exact Hnone |].
    apply find_best_move_none. exact Hnone.
  - intros k Hk Hnone.
    pose proof (optimize_loop_stops mx n m (Z.to_nat max_iterations)
                  (create_initial_allocation mx) 0 k ltac:(lia) Hnone).
    lia.
Qed.

Lemma two_stage_iterations_bounded_3x3 :
  let mx := [[1; 2; 3]; [4; 5; 6]; [7; 8; 9]] in
  let r := two_stage_allocation mx 50 in
  0 <= snd r <= 50 /\
  (snd r < 50 ->
   find_best_move mx (fst r) 3 3 = None /\
   forall dev1 dev2 c,
     (dev1 < 4)%nat -> (dev2 < 4)%nat -> dev1 <> dev2 ->
     In c (find_boundary_cells (region (fst r) dev1) (region (fst r) dev2) 3 3) ->
     improvement_of mx (fst r) dev1 dev2 c <= 0) /\
  (forall k : nat,
     Z.of_nat k < 50 ->
     find_best_move mx (after_passes mx k) 3 3 = None ->
     snd r <= Z.of_nat k + 1).
Proof.
  intros mx.
  apply (@two_stage_iterations_bounded first_seen_order mx 50).
  - reflexivity.
  - reflexivity.
  - lia.
Defined.

(** * Stage 1: which runs are edge-connected *)

Section Runs.
Variables (m s e : Z).
Hypothesis Hm : 0 < m.
Hypothesis Hs : 0 <= s.

Lemma In_run_coords (r c : Z) :
  0 <= c < m -> s <= r * m + c < e -> In (r, c) (cell_run m s e).
Proof.
  intros Hc Hx. apply In_cell_run. exists (r * m + c).
  split; [exact Hx | symmetry; apply cell_of_index_row; assumption].
Qed.

(** A horizontal segment of a run is a path. *)
Lemma row_segment_path (r c1 : Z) (k : nat) :
  0 <= c1 -> c1 + Z.of_nat k < m ->
  (forall c, c1 <= c <= c1 + Z.of_nat k -> In (r, c) (cell_run m s e)) ->
  path_in (cell_run m s e) (r, c1) (r, c1 + Z.of_nat k).
Proof.
  intros Hc1. induction k as [| k IH]; intros Hk Hin.
  - replace (c1 + Z.of_nat 0) with c1 by lia. apply path_refl. apply Hin. lia.
  - eapply path_step.
    + apply IH; [lia |]. intros c Hc. apply Hin. lia.
    + exists (0, 1). split; [simpl; auto |]. unfold shift; simpl. f_equal; lia.
    + apply Hin. lia.
Qed.

(** Consecutive cells of a run that lies in one row, or that is longer than
    a row, are joined inside the run. *)
Lemma run_next_path (x : Z) :
  s <= x -> x + 1 < e ->
  s / m = (e - 1) / m \/ m < e - s ->
  path_in (cell_run m s e) (cell_of_index m x) (cell_of_index m (x + 1)).
Proof.
  intros Hx Hx1 Hshape.
  pose proof (Z.div_mod x m ltac:(lia)) as Hdm.
  pose proof (Z.mod_pos_bound x m Hm) as Hmod.
  set (r := x / m) in *. set (c := x mod m) in *.
  assert (Ex : x = r * m + c) by lia.
  destruct (Z.eq_dec c (m - 1)) as [Hlast | Hmid].
  - (* the row ends at [x]: go back, down and forward *)
    assert (Hlong : m < e - s).
    { destruct Hshape as [Hrow | H]; [| exact H]. exfalso.
      assert (H1 : s / m <= r) by (apply Z.div_le_mono; lia).
      assert (H2 : (x + 1) / m <= (e - 1) / m) by (apply Z.div_le_mono; lia).
      assert (H3 : (x + 1) / m = r + 1).
      { replace (x + 1) with ((r + 1) * m + 0) by lia.
        rewrite Z.div_add_l by lia. rewrite Z.div_0_l by lia. lia. }
      lia. }
    set (j := Z.max 0 (x + m + 1 - e)).
    assert (Hj : 0 <= j <= m - 1 /\ j <= x - s /\ x + m + 1 - e <= j) by lia.
    assert (E0 : cell_of_index m x = (r, (m - 1 - j) + Z.of_nat (Z.to_nat j))).
    { rewrite Ex. rewrite cell_of_index_row by lia. f_equal. lia. }
    assert (E1 : cell_of_index m (x + 1) = (r + 1, 0)).
    { replace (x + 1) with ((r + 1) * m + 0) by lia.
      apply cell_of_index_row; lia. }
    rewrite E0, E1.
    apply path_in_trans with (b := (r, m - 1 - j)).
    { apply path_in_sym. apply row_segment_path; [lia | lia |].
      intros c' Hc'. apply In_run_coords; [lia | nia]. }
    apply path_in_trans with (b := (r + 1, m - 1 - j)).
    { apply path_in_one.
      - apply In_run_coords; [lia | nia].
      - apply In_run_coords; [lia | nia].
      - exists (1, 0). split; [simpl; auto |]. unfold shift; simpl. f_equal; lia. }
    apply path_in_sym.
    assert (P : path_in (cell_run m s e) (r + 1, 0)
                  (r + 1, 0 + Z.of_nat (Z.to_nat (m - 1 - j)))).
    { apply row_segment_path; [lia | lia |].
      intros c' Hc'. apply In_run_coords; [lia | nia]. }
    replace (0 + Z.of_nat (Z.to_nat (m - 1 - j))) with (m - 1 - j) in P by lia.
    exact P.
  - (* [x + 1] is the next cell of the same row *)
    assert (E0 : cell_of_index m x = (r, c))
      by (rewrite Ex; apply cell_of_index_row; lia).
    assert (E1 : cell_of_index m (x + 1) = (r, c + 1)).
    { replace (x + 1) with (r * m + (c + 1)) by lia.
      apply cell_of_index_row; lia. }
    rewrite E0, E1. apply path_in_one.
    + apply In_run_coords; [lia | nia].
    + apply In_run_coords; [lia | nia].
    + exists (0, 1). split; [simpl; auto |]. unfold shift; simpl. f_equal; lia.
Qed.

Lemma run_connected :
  s / m = (e - 1) / m \/ m < e - s ->
  connected (cell_run m s e).
Proof.
  intros Hshape. apply connected_via with (s := cell_of_index m s).
  intros c Hc. apply In_cell_run in Hc. destruct Hc as [x [Hx ->]].
  replace x with (s + Z.of_nat (Z.to_nat (x - s))) in * by lia.
  induction (Z.to_nat (x - s)) as [| k IH].
  - replace (s + Z.of_nat 0) with s by lia.
    apply path_refl. apply In_cell_run. exists s. split; [lia | reflexivity].
  - eapply path_in_trans.
    + apply IH. lia.
    + replace (s + Z.of_nat (S k)) with (s + Z.of_nat k + 1) in * by lia.
      apply run_next_path; [lia | lia | exact Hshape].
Qed.

(** A run of at most a row's length that wraps into the next row is cut
    in two: a path from its first cell never leaves the first row. *)
Lemma run_wrapped_disconnected :
  s < e -> s / m <> (e - 1) / m -> e - s <= m ->
  ~ connected (cell_run m s e).
Proof.
  intros Hse Hrows Hshort Hconn.
  assert (Hstay : forall x, path_in (cell_run m s e) (cell_of_index m s) x ->
                            fst x = s / m).
  { intros x Hp. remember (cell_of_index m s) as s0 eqn:Es0.
    induction Hp as [a Ha | a b c Hab IH Hadj Hc].
    - subst a. reflexivity.
    - specialize (IH Es0). apply path_in_end in Hab.
      apply In_cell_run in Hab. destruct Hab as [xb [Hxb ->]].
      apply In_cell_run in Hc. destruct Hc as [xc [Hxc ->]].
      unfold cell_of_index in *. simpl in IH. simpl.
      destruct Hadj as [d [Hd E]]. unfold shift in E. simpl in E.
      inversion E as [[E1 E2]]. clear E.
      pose proof (Z.div_mod xb m ltac:(lia)) as Db.
      pose proof (Z.div_mod xc m ltac:(lia)) as Dc.
      pose proof (Z.div_mod s m ltac:(lia)) as Ds.
      pose proof (Z.mod_pos_bound xb m Hm) as Mb.
      pose proof (Z.mod_pos_bound xc m Hm) as Mc.
      pose proof (Z.mod_pos_bound s m Hm) as Ms.
      unfold directions in Hd. simpl in Hd.
      destruct Hd as [<- | [<- | [<- | [<- | []]]]]; simpl in E1, E2; nia. }
  assert (Hlast : In (cell_of_index m (e - 1)) (cell_run m s e))
    by (apply In_cell_run; exists (e - 1); split; [lia | reflexivity]).
  assert (Hfirst : In (cell_of_index m s) (cell_run m s e))
    by (apply In_cell_run; exists s; split; [lia | reflexivity]).
  specialize (Hstay _ (Hconn _ _ Hfirst Hlast)). simpl in Hstay. lia.
Qed.

End Runs.

(** C6 as stated fails: on the 2 x 3 grid the second Stage-1 region is the
    run of the cells 2 and 3, the end of row 0 and the start of row 1, which
    is neither empty nor edge-connected, and [check_connected] rejects it. *)
Lemma stage1_region_disconnected :
  let mx := [[1; 2; 2]; [1; 3; 3]] in
  region (create_initial_allocation mx) 1 = [(0, 2); (1, 0)] /\
  check_connected (region (create_initial_allocation mx) 1) (rows mx) (cols mx)
  = false /\
  ~ connected (region (create_initial_allocation mx) 1).
Proof.
  intros mx. split; [reflexivity | split; [reflexivity |]].
  intros H.
  apply (check_connected_complete _ 2 3) in H.
  - vm_compute in H. discriminate.
  - vm_compute. repeat constructor; simpl; intuition discriminate.
  - intros c Hc. vm_compute in Hc.
    destruct Hc as [<- | [<- | []]]; unfold in_grid; simpl; lia.
Qed.

(** C6, amended. On a non-empty grid every Stage-1 region is the run of the
    row-major cells with indices from [run_start] to [run_end - 1]; a
    non-empty one is edge-connected exactly when it lies within one row of
    the grid or has more cells than a row, and [check_connected] accepts it
    exactly when it is edge-connected. *)
Theorem stage1_run_connected (mx : matrix) (d : nat) :
  rectangular mx -> is_empty_grid mx = false -> (d < 4)%nat ->
  let n := rows mx in
  let m := cols mx in
  let s := run_start (n * m) d in
  let e := run_end (n * m) d in
  let r := region (create_initial_allocation mx) d in
  r = cell_run m s e /\
  (s < e ->
   (connected r <-> s / m = (e - 1) / m \/ m < e - s) /\
   (check_connected r n m = true <-> connected r)).
Proof.
  intros _ Hne Hd n m s e r.
  destruct (nonempty_dims mx Hne) as [Hn Hm]. fold n in Hn. fold m in Hm.
  assert (Hr : r = cell_run m s e) by (apply stage1_region_run; assumption).
  split; [exact Hr |]. intros Hse.
  pose proof (run_start_le_end (n * m) d ltac:(nia) Hd) as Hb.
  fold s e in Hb.
  split.
  - rewrite Hr. split.
    + intros Hc.
      destruct (Z.eq_dec (s / m) ((e - 1) / m)) as [E | E]; [left; exact E |].
      destruct (Z.lt_ge_cases m (e - s)) as [L | L]; [right; exact L |].
      exfalso. apply (run_wrapped_disconnected m s e); try assumption; lia.
    + intros Hshape. apply run_connected; [lia | lia | exact Hshape].
  - apply check_connected_iff.
    + rewrite Hr. apply NoDup_cell_run. lia.
    + intros c Hin. rewrite Hr in Hin. apply In_cell_run in Hin.
      destruct Hin as [x [Hx ->]]. apply cell_of_index_in_grid; lia.
Qed.

Lemma stage1_run_connected_3x3 :
  let mx := [[1; 2; 3]; [4; 5; 6]; [7; 8; 9]] in
  let r := region (create_initial_allocation mx) 0 in
  r = cell_run 3 0 3 /\
  (0 < 3 ->
   (connected r <-> 0 / 3 = (3 - 1) / 3 \/ 3 < 3 - 0) /\
   (check_connected r 3 3 = true <-> connected r)).
Proof.
  intros mx.
  apply (stage1_run_connected mx 0).
  - reflexivity.
  - reflexivity.
  - lia.
Defined.

(** * GreedyBuilder: regions as one list of assigned cells *)

Lemma concat_append_cell (rs : regions) (d : nat) (c : cell) :
  (d < length rs)%nat ->
  Permutation (concat (append_cell rs d c)) (c :: concat rs).
Proof.
  unfold append_cell, set_region, region.
  revert d. induction rs as [| r rs IH]; intros d Hd; simpl in Hd; [lia |].
  destruct d as [| d]; simpl.
  - rewrite <- app_assoc. simpl.
    apply Permutation_sym, Permutation_middle.
  - specialize (IH d ltac:(lia)).
    eapply Permutation_trans; [apply Permutation_app_head; exact IH |].
    apply Permutation_sym, Permutation_middle.
Qed.

Lemma In_concat_region (rs : regions) (c : cell) :
  In c (concat rs) <-> exists d, (d < length rs)%nat /\ In c (region rs d).
Proof.
  unfold region. rewrite in_concat. split.
  - intros [r [Hr Hc]]. apply In_nth with (d := []) in Hr.
    destruct Hr as [d [Hd E]]. exists d. rewrite E. auto.
  - intros [d [Hd Hc]]. exists (nth d rs []). split; [apply nth_In; exact Hd | exact Hc].
Qed.

Lemma NoDup_app_inv {A : Type} (l l' : list A) :
  NoDup (l ++ l') ->
  NoDup l /\ NoDup l' /\ forall x, In x l -> ~ In x l'.
Proof.
  induction l as [| a l IH]; simpl; intros H.
  - repeat split; [constructor | exact H | tauto].
  - inversion H as [| ? ? Ha Hnd]; subst.
    destruct (IH Hnd) as (H1 & H2 & H3).
    repeat split.
    + constructor; [| exact H1]. intros Hin. apply Ha. apply in_or_app; auto.
    + exact H2.
    + intros x [<- | Hx] Hx'; [apply Ha; apply in_or_app; auto | exact (H3 x Hx Hx')].
Qed.

Lemma NoDup_concat_regions (rs : regions) :
  NoDup (concat rs) ->
  (forall d, NoDup (region rs d)) /\
  (forall d1 d2 c, d1 <> d2 -> In c (region rs d1) -> ~ In c (region rs d2)).
Proof.
  induction rs as [| r rs IH]; intros H.
  - split.
    + intros d. unfold region. destruct d; constructor.
    + intros d1 d2 c _ H1. unfold region in H1. destruct d1; destruct H1.
  - simpl in H. apply NoDup_app_inv in H. destruct H as (Hr & Hrs & Hdis).
    destruct (IH Hrs) as [I1 I2]. split.
    + intros [| d]; [exact Hr | apply I1].
    + intros [| d1] [| d2] c Hne H1 H2; try congruence.
      * apply (Hdis c H1). apply In_concat_region.
        exists d2. split; [| exact H2].
        destruct (Nat.lt_ge_cases d2 (length rs)) as [L | L]; [exact L |].
        unfold region in H2. simpl in H2. rewrite nth_overflow in H2 by exact L.
        destruct H2.
      * apply (Hdis c H2). apply In_concat_region.
        exists d1. split; [| exact H1].
        destruct (Nat.lt_ge_cases d1 (length rs)) as [L | L]; [exact L |].
        unfold region in H1. simpl in H1. rewrite nth_overflow in H1 by exact L.
        destruct H1.
      * apply (I2 d1 d2 c); [congruence | exact H1 | exact H2].
Qed.

(** * GreedyBuilder: the matrix of assigned cells *)

Lemma is_assigned_mark (n m : Z) (a : list (list bool)) (c c' : cell) :
  assigned_dims n m a -> in_grid n m c -> in_grid n m c' ->
  is_assigned (mark_assigned a c) c' =
  if cell_eqb c' c then true else is_assigned a c'.
Proof.
  intros [Hrows Hcols] [Hi Hj] [Hi' Hj'].
  unfold is_assigned, mark_assigned.
  destruct c as [i j], c' as [i' j']; simpl in *.
  unfold cell_eqb; simpl.
  destruct (Z.eqb_spec i' i) as [-> | Hne]; simpl.
  - rewrite nth_update_eq by lia.
    destruct (Z.eqb_spec j' j) as [-> | Hnj].
    + apply nth_update_eq. rewrite Hcols by lia. lia.
    + apply nth_update_neq. lia.
  - rewrite nth_update_neq by lia. reflexivity.
Qed.

Lemma mark_assigned_dims (n m : Z) (a : list (list bool)) (c : cell) :
  assigned_dims n m a -> assigned_dims n m (mark_assigned a c).
Proof.
  intros [Hrows Hcols]. unfold mark_assigned. split.
  - rewrite length_update. exact Hrows.
  - intros k Hk.
    destruct (Nat.eq_dec (Z.to_nat (fst c)) k) as [E | E].
    + rewrite E. rewrite nth_update_eq by lia.
      rewrite length_update. apply Hcols; exact Hk.
    + rewrite nth_update_neq by exact E. apply Hcols; exact Hk.
Qed.

Lemma initial_assigned_dims (n m : Z) :
  assigned_dims n m (repeat (repeat false (Z.to_nat m)) (Z.to_nat n)).
Proof.
  split.
  - apply repeat_length.
  - intros k Hk. rewrite nth_repeat_lt by exact Hk. apply repeat_length.
Qed.

Lemma initial_is_assigned (n m : Z) (c : cell) :
  is_assigned (repeat (repeat false (Z.to_nat m)) (Z.to_nat n)) c = false.
Proof.
  unfold is_assigned.
  destruct (Nat.lt_ge_cases (Z.to_nat (fst c)) (Z.to_nat n)) as [H | H].
  - rewrite nth_repeat_lt by exact H.
    destruct (Nat.lt_ge_cases (Z.to_nat (snd c)) (Z.to_nat m)) as [H' | H'].
    + apply nth_repeat_lt; exact H'.
    + apply nth_overflow. rewrite repeat_length. exact H'.
  - rewrite (nth_overflow (repeat _ _)) by (rewrite repeat_length; exact H).
    destruct (Z.to_nat (snd c)); reflexivity.
Qed.

(** * GreedyBuilder: the helper functions *)

Section GreedyHelpers.
Context {ord : SetOrder}.


(** A cell of [get_adjacent_free_cells] is a free in-grid neighbour of a
    cell of the region. *)
Lemma In_get_adjacent_free_cells (r : list cell) (a : list (list bool))
    (n m : Z) (c : cell) :
  In c (get_adjacent_free_cells r a n m) <->
  exists c0 d, In c0 r /\ In d directions /\ c = shift c0 d /\
               in_bounds n m c = true /\ is_assigned a c = false.
Proof.
  unfold get_adjacent_free_cells, adjacent_insertions.
  rewrite list_of_set_In, in_flat_map. split.
  - intros [c0 [H0 H]]. apply in_flat_map in H. destruct H as [d [Hd H]].
    destruct (in_bounds n m (shift c0 d) && negb (is_assigned a (shift c0 d))) eqn:E;
      [| destruct H].
    destruct H as [<- | []]. apply andb_true_iff in E. destruct E as [E1 E2].
    apply negb_true_iff in E2. exists c0, d. auto.
  - intros (c0 & d & H0 & Hd & -> & Hb & Ha). exists c0. split; [exact H0 |].
    apply in_flat_map. exists d. split; [exact Hd |].
    rewrite Hb, Ha. simpl. left; reflexivity.
Qed.

Lemma find_developer_from_spec (ds : list nat) (rs : regions)
    (a : list (list bool)) (n m : Z) :
  match find_developer_from ds rs a n m with
  | Some (dev, cells) =>
      In dev ds /\ cells = get_adjacent_free_cells (region rs dev) a n m /\
      cells <> []
  | None =>
      forall dev, In dev ds -> get_adjacent_free_cells (region rs dev) a n m = []
  end.
Proof.
  induction ds as [| dev ds IH]; simpl; [tauto |].
  destruct (get_adjacent_free_cells (region rs dev) a n m) as [| c t] eqn:E.
  - destruct (find_developer_from ds rs a n m) as [[dev' cells] |].
    + destruct IH as (H1 & H2 & H3). auto.
    + intros dev' [<- | H]; [exact E | apply IH; exact H].
  - split; [left; reflexivity | split; [symmetry; exact E | discriminate]].
Qed.

Lemma choose_step_In (mx : matrix) (sums : list Z) (t : nat)
    (cells : list cell) :
  forall st,
    (forall c, fst st = Some c -> In c cells) ->
    forall l, incl l cells ->
    forall c, fst (fold_left (choose_step mx sums t) l st) = Some c ->
              In c cells.
Proof.
  intros st Hst l. revert st Hst.
  induction l as [| x l IH]; intros st Hst Hl c; simpl; [apply Hst |].
  apply IH.
  - unfold choose_step. destruct (lt_best _ (snd st)); simpl; [| exact Hst].
    intros c' E. inversion E; subst. apply Hl. left; reflexivity.
  - intros y Hy. apply Hl. right; exact Hy.
Qed.

(** The chosen cell is one of the candidates. *)
Lemma choose_best_cell_In (cells : list cell) (mx : matrix) (sums : list Z)
    (t : nat) :
  cells <> [] -> In (choose_best_cell cells mx sums t) cells.
Proof.
  intros Hne. unfold choose_best_cell.
  assert (H0 : In (nth 0 cells (0, 0)) cells)
    by (apply nth_In; destruct cells; [congruence | simpl; lia]).
  destruct (length cells =? 1)%nat; [exact H0 |].
  destruct (fst (fold_left (choose_step mx sums t) cells (None, None)))
    as [c |] eqn:E; [| exact H0].
  eapply choose_step_In; [| apply incl_refl | exact E].
  simpl. discriminate.
Qed.

Lemma greedy_body_total (mx : matrix) (n m : Z) (st : greedy_state) :
  let r := greedy_body mx n m st in
  snd r = true \/ total_assigned (fst r) = total_assigned st + 1.
Proof.
  unfold greedy_body. cbv zeta.
  destruct (get_adjacent_free_cells _ (g_assigned st) n m) as [| x t].
  - destruct (find_developer_with_adjacent_cells (g_regions st)
                (g_assigned st) n m) as [[dev [| y cells]] |];
      simpl; auto.
  - simpl; auto.
Qed.

(** The fuel of [greedy_run] is enough: the loop ends by [break] or with
    its condition [total_assigned < total_cells] false, on every grid. *)
Lemma greedy_loop_fuel_enough (mx : matrix) (n m : Z) (fuel : nat) :
  forall st,
    n * m - total_assigned st <= Z.of_nat fuel ->
    let r := greedy_loop fuel mx n m st in
    snd r = true \/ n * m <= total_assigned (fst r).
Proof.
  induction fuel as [| f IH]; intros st Hf; cbv zeta.
  - simpl. right. lia.
  - cbn [greedy_loop].
    destruct (total_assigned st <? n * m) eqn:E;
      [| apply Z.ltb_ge in E; right; simpl; lia].
    pose proof (greedy_body_total mx n m st) as Hb. cbv zeta in Hb.
    destruct (snd (greedy_body mx n m st)) eqn:B.
    + left. exact B.
    + destruct Hb as [Hb | Hb]; [discriminate |].
      apply IH. lia.
Qed.

Lemma greedy_run_fuel_enough (mx : matrix) :
  snd (greedy_run mx) = true \/
  rows mx * cols mx <= total_assigned (fst (greedy_run mx)).
Proof.
  unfold greedy_run. cbv zeta. apply greedy_loop_fuel_enough.
  change (total_assigned (greedy_init mx (rows mx) (cols mx))) with 4. lia.
Qed.

End GreedyHelpers.

(** * GreedyBuilder: the growth loop on grids with two rows and columns *)

Lemma cell_run_0 (m e : Z) :
  cell_run m 0 e = map (cell_of_index m) (zrange e).
Proof.
  unfold cell_run, index_run. rewrite Z.sub_0_r. f_equal.
  rewrite <- (map_id (zrange e)) at 2. apply map_ext. intros j. lia.
Qed.

(** The rectangular grid is edge-connected. *)
Lemma grid_connected (n m : Z) :
  1 <= n -> 1 <= m -> connected (all_cells n m).
Proof.
  intros Hn Hm. rewrite all_cells_eq by lia. rewrite <- cell_run_0.
  apply run_connected; [lia | lia |].
  destruct (Z.eq_dec n 1) as [-> | Hne].
  - left. rewrite Z.div_0_l by lia. rewrite Z.div_small by lia. reflexivity.
  - right. nia.
Qed.

Lemma length_all_cells (n m : Z) :
  0 <= n -> 0 < m -> len (all_cells n m) = n * m.
Proof.
  intros Hn Hm. unfold len. rewrite all_cells_eq by assumption.
  rewrite length_map, length_zrange. nia.
Qed.

Lemma NoDup_all_cells (n m : Z) : 0 <= n -> 0 < m -> NoDup (all_cells n m).
Proof.
  intros Hn Hm. rewrite all_cells_eq by assumption. rewrite <- cell_run_0.
  apply NoDup_cell_run; exact Hm.
Qed.

Lemma connected_extend (R : list cell) (c0 c : cell) :
  connected R -> In c0 R -> adjacent c0 c -> connected (R ++ [c]).
Proof.
  intros Hc H0 Hadj. apply connected_via with (s := c0).
  intros x Hx. apply in_app_or in Hx. destruct Hx as [Hx | [<- | []]].
  - apply path_in_incl with (R := R); [apply incl_appl, incl_refl |].
    apply Hc; assumption.
  - apply path_in_one.
    + apply in_or_app; left; exact H0.
    + apply in_or_app; right; left; reflexivity.
    + exact Hadj.
Qed.

Section GreedyLoop.
Context {ord : SetOrder}.
Variables (mx : matrix) (n m : Z).
Hypothesis Hn : 2 <= n.
Hypothesis Hm : 2 <= m.

(** The assigned cells never outnumber the grid. *)
Lemma greedy_total_le (st : greedy_state) :
  greedy_inv n m st -> total_assigned st <= n * m.
Proof.
  intros I. rewrite (gi_total n m st I).
  rewrite <- (length_all_cells n m) by lia. unfold len.
  apply inj_le. apply NoDup_incl_length; [apply (gi_nodup n m st I) |].
  intros c Hc. apply In_all_cells; [lia | lia |]. apply (gi_grid n m st I); exact Hc.
Qed.

(** If no region has a free neighbour, every cell is assigned. *)
Lemma greedy_stuck_full (st : greedy_state) :
  greedy_inv n m st ->
  (forall d, (d < 4)%nat ->
     get_adjacent_free_cells (region (g_regions st) d) (g_assigned st) n m = []) ->
  n * m <= total_assigned st.
Proof.
  intros I Hstuck.
  assert (Hclosed : forall x, In x (concat (g_regions st)) ->
            closed_at (all_cells n m) n m x (concat (g_regions st))).
  { intros x Hx d Hd Hb _.
    apply In_concat_region in Hx. destruct Hx as [dev [Hdev Hx]].
    rewrite (gi_length n m st I) in Hdev.
    destruct (is_assigned (g_assigned st) (shift x d)) eqn:E.
    - apply (gi_assigned n m st I); [apply in_bounds_in_grid; exact Hb | exact E].
    - exfalso.
      assert (Hin : In (shift x d)
                (get_adjacent_free_cells (region (g_regions st) dev)
                   (g_assigned st) n m)).
      { apply In_get_adjacent_free_cells. exists x, d. auto. }
      rewrite (Hstuck dev Hdev) in Hin. destruct Hin. }
  destruct (region (g_regions st) 0) as [| s0 t0] eqn:E0;
    [exfalso; apply (gi_nonempty n m st I 0%nat); [lia | exact E0] |].
  assert (Hs0 : In s0 (concat (g_regions st))).
  { apply In_concat_region. exists 0%nat.
    rewrite (gi_length n m st I), E0. split; [lia | left; reflexivity]. }
  assert (Hall : incl (all_cells n m) (concat (g_regions st))).
  { intros c Hc.
    apply (path_in_closed (all_cells n m) _ n m s0).
    - intros x Hx. apply In_all_cells in Hx; [exact Hx | lia | lia].
    - exact Hs0.
    - exact Hclosed.
    - apply grid_connected; [lia | lia | | exact Hc].
      apply In_all_cells; [lia | lia |]. apply (gi_grid n m st I). exact Hs0. }
  rewrite (gi_total n m st I). rewrite <- (length_all_cells n m) by lia.
  unfold len. apply inj_le.
  apply NoDup_incl_length; [apply NoDup_all_cells; lia | exact Hall].
Qed.

(** Assigning a free in-grid neighbour of a region keeps the invariant. *)
Lemma assign_cell_inv (st : greedy_state) (target : nat) (c0 c : cell) :
  greedy_inv n m st ->
  (target < 4)%nat -> In c0 (region (g_regions st) target) ->
  adjacent c0 c -> in_grid n m c -> ~ In c (concat (g_regions st)) ->
  greedy_inv n m
    (assign_cell mx st target c (allocation_iter_count st + 1)
       (total_assigned st + 1)).
Proof.
  intros I Ht H0 Hadj Hg Hfree.
  pose proof (gi_length n m st I) as H4.
  assert (Hperm : Permutation (concat (append_cell (g_regions st) target c))
                    (c :: concat (g_regions st)))
    by (apply concat_append_cell; lia).
  constructor; simpl.
  - rewrite length_append_cell. exact H4.
  - eapply Permutation_NoDup; [apply Permutation_sym; exact Hperm |].
    constructor; [exact Hfree | apply (gi_nodup n m st I)].
  - intros x Hx. apply (Permutation_in _ Hperm) in Hx.
    destruct Hx as [<- | Hx]; [exact Hg | apply (gi_grid n m st I); exact Hx].
  - intros x Hx.
    rewrite (is_assigned_mark n m) by (try assumption; apply (gi_dims n m st I)).
    destruct (cell_eqb x c) eqn:E.
    + apply cell_eqb_eq in E. subst x. split; [intros _ | reflexivity].
      apply (Permutation_in _ (Permutation_sym Hperm)). left; reflexivity.
    + rewrite (gi_assigned n m st I x Hx). split.
      * intros H. apply (Permutation_in _ (Permutation_sym Hperm)). right; exact H.
      * intros H. apply (Permutation_in _ Hperm) in H.
        destruct H as [<- | H]; [rewrite cell_eqb_refl in E; discriminate | exact H].
  - apply mark_assigned_dims. apply (gi_dims n m st I).
  - rewrite (gi_total n m st I). unfold len.
    rewrite (Permutation_length Hperm). simpl length. lia.
  - rewrite (gi_iters n m st I). lia.
  - intros d Hd. rewrite region_append_cell by lia.
    destruct (Nat.eqb target d).
    + intros E. apply app_eq_nil in E. destruct E as [_ E]. discriminate.
    + rewrite app_nil_r. apply (gi_nonempty n m st I); exact Hd.
  - intros d Hd. rewrite region_append_cell by lia.
    destruct (Nat.eqb_spec target d) as [<- | Hne].
    + apply connected_extend with (c0 := c0);
        [apply (gi_connected n m st I); exact Ht | exact H0 | exact Hadj].
    + rewrite app_nil_r. apply (gi_connected n m st I); exact Hd.
Qed.

(** While cells remain, a pass never breaks: it assigns one free cell, a
    neighbour of the region of some developer, to that developer. *)
Lemma greedy_body_spec (st : greedy_state) :
  greedy_inv n m st -> total_assigned st < n * m ->
  exists target c0 c,
    greedy_body mx n m st =
    (assign_cell mx st target c (allocation_iter_count st + 1)
       (total_assigned st + 1), false) /\
    (target < 4)%nat /\ In c0 (region (g_regions st) target) /\
    adjacent c0 c /\ in_grid n m c /\ ~ In c (concat (g_regions st)).
Proof.
  intros I Hlt.
  pose proof (gi_length n m st I) as H4.
  assert (Hgrow : forall target cells,
            cells = get_adjacent_free_cells (region (g_regions st) target)
                      (g_assigned st) n m ->
            cells <> [] ->
            exists c0 c,
              c = choose_best_cell cells mx (g_sums st) target /\
              (target < 4)%nat /\ In c0 (region (g_regions st) target) /\
              adjacent c0 c /\ in_grid n m c /\ ~ In c (concat (g_regions st))).
  { intros target cells Hcells Hne.
    pose proof (choose_best_cell_In cells mx (g_sums st) target Hne) as Hin.
    rewrite Hcells in Hin at 2.
    apply In_get_adjacent_free_cells in Hin.
    destruct Hin as (c0 & d & H0 & Hd & Hc & Hb & Ha).
    exists c0, (choose_best_cell cells mx (g_sums st) target).
    apply in_bounds_in_grid in Hb.
    split; [reflexivity | split; [| split; [exact H0 | split; [| split]]]].
    - destruct (Nat.lt_ge_cases target 4) as [L | L]; [exact L |].
      rewrite region_out_of_range in H0 by lia. destruct H0.
    - exists d. split; [exact Hd | exact Hc].
    - exact Hb.
    - intros Hc'. apply (gi_assigned n m st I _ Hb) in Hc'. congruence. }
  unfold greedy_body. cbv zeta.
  set (min_dev := get_developer_with_min_sum (g_sums st)).
  destruct (get_adjacent_free_cells (region (g_regions st) min_dev)
              (g_assigned st) n m) as [| x t] eqn:E.
  - unfold find_developer_with_adjacent_cells.
    pose proof (find_developer_from_spec devs (g_regions st) (g_assigned st) n m)
      as Hfind.
    destruct (find_developer_from devs (g_regions st) (g_assigned st) n m)
      as [[dev cells] |].
    + destruct Hfind as (_ & Hcells & Hne).
      destruct (Hgrow dev cells Hcells Hne) as (c0 & c & Hc & Hrest).
      exists dev, c0, c. split; [| exact Hrest].
      destruct cells as [| y cells]; [congruence |]. rewrite Hc. reflexivity.
    + exfalso.
      assert (n * m <= total_assigned st).
      { apply greedy_stuck_full; [exact I |].
        intros d Hd. apply Hfind. apply In_devs; exact Hd. }
      lia.
  - destruct (Hgrow min_dev (x :: t) (eq_sym E) ltac:(discriminate))
      as (c0 & c & Hc & Hrest).
    exists min_dev, c0, c. split; [| exact Hrest]. rewrite Hc. reflexivity.
Qed.

(** The loop runs to completion: it never breaks and assigns all cells. *)
Lemma greedy_loop_spec (fuel : nat) :
  forall st,
    greedy_inv n m st ->
    Z.of_nat fuel <= n * m - total_assigned st ->
    let r := greedy_loop fuel mx n m st in
    snd r = false /\ greedy_inv n m (fst r) /\
    total_assigned (fst r) = total_assigned st + Z.of_nat fuel.
Proof.
  induction fuel as [| f IH]; intros st I Hf; cbv zeta.
  - simpl. split; [reflexivity | split; [exact I | lia]].
  - cbn [greedy_loop].
    destruct (total_assigned st <? n * m) eqn:E;
      [apply Z.ltb_lt in E | apply Z.ltb_ge in E; lia].
    destruct (greedy_body_spec st I E) as (target & c0 & c & Hbody & Hrest).
    rewrite Hbody. cbn [fst snd].
    destruct Hrest as (Ht & H0 & Hadj & Hg & Hfree).
    pose proof (assign_cell_inv st target c0 c I Ht H0 Hadj Hg Hfree) as I'.
    specialize (IH _ I'). cbv zeta in IH. simpl total_assigned in IH at 1.
    destruct IH as (J1 & J2 & J3); [simpl; lia |].
    split; [exact J1 | split; [exact J2 |]].
    rewrite J3. simpl. lia.
Qed.

(** One more pass of the loop, from the state reached so far. *)
Lemma greedy_loop_succ (k : nat) :
  forall st,
    greedy_loop (S k) mx n m st =
    let r := greedy_loop k mx n m st in
    if snd r then r
    else if total_assigned (fst r) <? n * m then greedy_body mx n m (fst r)
    else r.
Proof.
  induction k as [| k IH]; intros st.
  - cbn [greedy_loop fst snd]. cbv zeta. cbn [fst snd].
    destruct (total_assigned st <? n * m); [| reflexivity].
    destruct (greedy_body mx n m st) as [st' b]. cbn [fst snd].
    destruct b; reflexivity.
  - change (greedy_loop (S (S k)) mx n m st) with
      (if total_assigned st <? n * m then
         let r := greedy_body mx n m st in
         if snd r then r else greedy_loop (S k) mx n m (fst r)
       else (st, false)).
    change (greedy_loop (S k) mx n m st) with
      (if total_assigned st <? n * m then
         let r := greedy_body mx n m st in
         if snd r then r else greedy_loop k mx n m (fst r)
       else (st, false)).
    cbv zeta.
    destruct (total_assigned st <? n * m) eqn:E.
    + destruct (snd (greedy_body mx n m st)) eqn:B.
      * rewrite B. reflexivity.
      * rewrite IH. reflexivity.
    + cbn [fst snd]. rewrite E. reflexivity.
Qed.

(** The four corners are distinct seeds. *)
Lemma greedy_init_inv : greedy_inv n m (greedy_init mx n m).
Proof.
  unfold greedy_init, assign_cell, start_positions, devs. cbn [fold_left nth].
  cbn [g_regions g_sums g_assigned allocation_iter_count total_assigned].
  set (a0 := repeat (repeat false (Z.to_nat m)) (Z.to_nat n)).
  set (c0 := (0, 0) : cell). set (c1 := (0, m - 1) : cell).
  set (c2 := (n - 1, 0) : cell). set (c3 := (n - 1, m - 1) : cell).
  assert (G0 : in_grid n m c0) by (unfold in_grid, c0; simpl; lia).
  assert (G1 : in_grid n m c1) by (unfold in_grid, c1; simpl; lia).
  assert (G2 : in_grid n m c2) by (unfold in_grid, c2; simpl; lia).
  assert (G3 : in_grid n m c3) by (unfold in_grid, c3; simpl; lia).
  assert (Hregs : append_cell (append_cell (append_cell
                    (append_cell empty_regions 0 c0) 1 c1) 2 c2) 3 c3
                  = [[c0]; [c1]; [c2]; [c3]]) by reflexivity.
  rewrite Hregs.
  constructor; cbn [g_regions g_sums g_assigned allocation_iter_count
                    total_assigned concat app].
  - reflexivity.
  - repeat constructor; simpl; unfold c0, c1, c2, c3;
      intros H; repeat (destruct H as [H | H]; [inversion H; lia |]); exact H.
  - intros c [<- | [<- | [<- | [<- | []]]]]; assumption.
  - intros c Hc.
    assert (D0 : assigned_dims n m a0) by apply initial_assigned_dims.
    pose proof (mark_assigned_dims n m _ c0 D0) as D1.
    pose proof (mark_assigned_dims n m _ c1 D1) as D2.
    pose proof (mark_assigned_dims n m _ c2 D2) as D3.
    rewrite (is_assigned_mark n m _ c3 c D3 G3 Hc).
    rewrite (is_assigned_mark n m _ c2 c D2 G2 Hc).
    rewrite (is_assigned_mark n m _ c1 c D1 G1 Hc).
    rewrite (is_assigned_mark n m _ c0 c D0 G0 Hc).
    unfold a0. rewrite initial_is_assigned. simpl.
    destruct (cell_eqb c c3) eqn:E3;
      [apply cell_eqb_eq in E3; subst; tauto |].
    destruct (cell_eqb c c2) eqn:E2;
      [apply cell_eqb_eq in E2; subst; tauto |].
    destruct (cell_eqb c c1) eqn:E1;
      [apply cell_eqb_eq in E1; subst; tauto |].
    destruct (cell_eqb c c0) eqn:E0;
      [apply cell_eqb_eq in E0; subst; tauto |].
    split; [discriminate |].
    intros [<- | [<- | [<- | [<- | []]]]];
      rewrite cell_eqb_refl in *; discriminate.
  - repeat apply mark_assigned_dims. apply initial_assigned_dims.
  - reflexivity.
  - reflexivity.
  - intros d Hd. destruct d as [| [| [| [| d]]]]; try lia; discriminate.
  - intros d Hd.
    destruct d as [| [| [| [| d]]]]; try lia;
      apply check_connected_small with (n := n) (m := m); simpl; lia.
Qed.

End GreedyLoop.

(** * Runs that do not depend on the iteration order of sets *)

Section OrderIndependence.
Context {ord : SetOrder}.

Lemma list_of_set_singleton (c : cell) : list_of_set [c] = [c].
Proof.
  pose proof (list_of_set_NoDup [c]) as Hnd.
  pose proof (list_of_set_In [c]) as Hin.
  destruct (list_of_set [c]) as [| x [| y t]].
  - exfalso. apply (Hin c). left; reflexivity.
  - f_equal. destruct (proj1 (Hin x) (or_introl eq_refl)) as [E | []]. auto.
  - exfalso.
    destruct (proj1 (Hin x) (or_introl eq_refl)) as [E | []].
    destruct (proj1 (Hin y) (or_intror (or_introl eq_refl))) as [E' | []].
    subst. inversion Hnd as [| ? ? Hx _]. apply Hx. left; reflexivity.
Qed.

(** A balanced partition is a fixed point of Stage 2. *)
Lemma find_best_move_balanced (mx : matrix) (rs : regions) (n m : Z) :
  calculate_current_imbalance mx rs = 0 -> find_best_move mx rs n m = None.
Proof.
  intros H0. destruct (find_best_move mx rs n m) as [[[c f] t] |] eqn:E;
    [| reflexivity].
  exfalso. destruct (find_best_move_spec mx rs n m c f t E) as (_ & _ & _ & _ & Hlt).
  assert (0 <= simulate_move mx rs c f t).
  { unfold simulate_move. cbv zeta. rewrite region_sums_eq.
    destruct f as [| [| [| [| f]]]]; destruct t as [| [| [| [| t]]]];
      cbn [update nth max_list min_list fold_left]; lia. }
  lia.
Qed.

(** On [[1, 2, 2], [1, 3, 3]] the Stage-1 split is balanced, so the first
    pass of Stage 2 finds no move whatever the order of the boundary
    cells. *)
Lemma two_stage_2x3_any_order :
  two_stage_allocation [[1; 2; 2]; [1; 3; 3]] 100
  = ([[(0, 0); (0, 1)]; [(0, 2); (1, 0)]; [(1, 1)]; [(1, 2)]], 1).
Proof.
  unfold two_stage_allocation, optimize_boundaries. cbn [is_empty_grid].
  change (Z.to_nat 100) with (S 99). cbn [optimize_loop].
  rewrite find_best_move_balanced by reflexivity. reflexivity.
Qed.

(** On [[1, 0, 0, 0, 1]] the only pass of the greedy loop has a single
    candidate cell, (0, 1). *)
Lemma greedy_1x5_any_order :
  greedy_run [[1; 0; 0; 0; 1]]
  = (mk_greedy [[(0, 0); (0, 1)]; [(0, 4)]; [(0, 0)]; [(0, 4)]]
       [1; 1; 1; 1] [[true; true; false; false; true]] 1 5, false).
Proof.
  unfold greedy_run.
  change (Z.to_nat (rows [[1; 0; 0; 0; 1]] * cols [[1; 0; 0; 0; 1]] - 4)) with 1%nat.
  cbn [greedy_loop].
  change (total_assigned _ <? _) with true. cbv iota.
  unfold greedy_body. cbv zeta.
  change (get_adjacent_free_cells _ _ _ _) with (list_of_set [(0, 1)]).
  rewrite list_of_set_singleton. reflexivity.
Qed.

End OrderIndependence.

(** * GreedyBuilder: the specified properties *)

Lemma dims_nonempty (mx : matrix) :
  1 <= rows mx -> 1 <= cols mx -> is_empty_grid mx = false.
Proof.
  unfold rows, cols, len. destruct mx as [| [| x row] mx]; simpl; intros; lia || reflexivity.
Qed.

Lemma greedy_inv_disjoint_cover (n m : Z) (st : greedy_state) :
  2 <= n -> 2 <= m ->
  greedy_inv n m st -> total_assigned st = n * m ->
  disjoint_cover n m (g_regions st).
Proof.
  intros Hn Hm I Htotal.
  destruct (NoDup_concat_regions _ (gi_nodup n m st I)) as [Hnd Hdis].
  pose proof (gi_length n m st I) as H4.
  split; [exact H4 | split; [exact Hnd | split; [exact Hdis |]]].
  assert (Hall : incl (all_cells n m) (concat (g_regions st))).
  { apply NoDup_length_incl.
    - apply (gi_nodup n m st I).
    - pose proof (gi_total n m st I) as Ht.
      pose proof (length_all_cells n m ltac:(lia) ltac:(lia)) as Hl.
      unfold len in *. lia.
    - intros c Hc. apply In_all_cells; [lia | lia |].
      apply (gi_grid n m st I); exact Hc. }
  intros c. split.
  - intros Hg. apply In_all_cells in Hg; [| lia | lia].
    apply Hall in Hg. apply In_concat_region in Hg.
    rewrite H4 in Hg. exact Hg.
  - intros [d [Hd Hc]]. apply (gi_grid n m st I).
    apply In_concat_region. exists d. rewrite H4. auto.
Qed.

Section GreedyResult.
Context {ord : SetOrder}.

Lemma greedy_run_spec (mx : matrix) :
  2 <= rows mx -> 2 <= cols mx ->
  snd (greedy_run mx) = false /\
  greedy_inv (rows mx) (cols mx) (fst (greedy_run mx)) /\
  total_assigned (fst (greedy_run mx)) = rows mx * cols mx.
Proof.
  intros Hn Hm. unfold greedy_run. cbv zeta.
  pose proof (greedy_init_inv mx (rows mx) (cols mx) Hn Hm) as I0.
  destruct (greedy_loop_spec mx (rows mx) (cols mx) Hn Hm
              (Z.to_nat (rows mx * cols mx - 4)) _ I0) as (H1 & H2 & H3).
  - assert (4 <= rows mx * cols mx) by nia.
    change (total_assigned (greedy_init mx (rows mx) (cols mx))) with 4. lia.
  - split; [exact H1 | split; [exact H2 |]]. rewrite H3.
    assert (4 <= rows mx * cols mx) by nia.
    change (total_assigned (greedy_init mx (rows mx) (cols mx))) with 4. lia.
Qed.

(** On a grid with two rows and two columns the greedy result is a valid
    partition. *)
Lemma greedy_valid_partition (mx : matrix) :
  2 <= rows mx -> 2 <= cols mx ->
  valid_partition (rows mx) (cols mx) (fst (greedy_allocation mx)).
Proof.
  intros Hn Hm. unfold greedy_allocation.
  rewrite dims_nonempty by lia. cbv zeta. cbn [fst].
  destruct (greedy_run_spec mx Hn Hm) as (_ & I & Ht).
  split; [apply greedy_inv_disjoint_cover; assumption | split].
  - apply (gi_nonempty _ _ _ I).
  - apply (gi_connected _ _ _ I).
Qed.

(** C10. On a grid with at least two rows and two columns the growth loop
    of [greedy_allocation] is never left by [break], and the returned
    iteration count is [n * m - 4].  After [k < n * m - 4] passes the loop
    has not broken, [4 + k] cells are assigned and the counter is [k]; the
    next pass assigns exactly one new cell: a cell of the grid that was in
    no region, next to a cell of the region of the developer that gets it. *)
Theorem greedy_never_breaks (mx : matrix) :
  rectangular mx -> 2 <= rows mx -> 2 <= cols mx ->
  let n := rows mx in
  let m := cols mx in
  snd (greedy_run mx) = false /\
  snd (greedy_allocation mx) = n * m - 4 /\
  forall k : nat, Z.of_nat k < n * m - 4 ->
    let st := fst (greedy_after mx k) in
    let st' := fst (greedy_after mx (S k)) in
    snd (greedy_after mx k) = false /\
    total_assigned st = 4 + Z.of_nat k /\
    allocation_iter_count st = Z.of_nat k /\
    snd (greedy_after mx (S k)) = false /\
    allocation_iter_count st' = Z.of_nat k + 1 /\
    exists target c0 c,
      (target < 4)%nat /\ In c0 (region (g_regions st) target) /\
      adjacent c0 c /\ in_grid n m c /\ ~ In c (concat (g_regions st)) /\
      g_regions st' = append_cell (g_regions st) target c.
Proof.
  intros _ Hn Hm n m.
  destruct (greedy_run_spec mx Hn Hm) as (Hrun & I & Ht). fold n m in I, Ht.
  split; [exact Hrun | split].
  - unfold greedy_allocation. rewrite dims_nonempty by lia. cbv zeta. cbn [snd].
    rewrite (gi_iters n m _ I). lia.
  - intros k Hk st st'.
    pose proof (greedy_init_inv mx n m Hn Hm) as I0.
    destruct (greedy_loop_spec mx n m Hn Hm k _ I0) as (K1 & K2 & K3);
      [change (total_assigned (greedy_init mx n m)) with 4; lia |].
    change (total_assigned (greedy_init mx n m)) with 4 in K3.
    change (greedy_loop k mx n m (greedy_init mx n m))
      with (greedy_after mx k) in K1, K2, K3.
    change (fst (greedy_after mx k)) with st in K2, K3.
    destruct (greedy_body_spec mx n m Hn Hm st K2 ltac:(lia))
      as (target & c0 & c & Hbody & Hrest).
    assert (Hnext : greedy_after mx (S k) =
              (assign_cell mx st target c (allocation_iter_count st + 1)
                 (total_assigned st + 1), false)).
    { unfold greedy_after. rewrite greedy_loop_succ. cbv zeta.
      change (greedy_loop k mx (rows mx) (cols mx)
                (greedy_init mx (rows mx) (cols mx)))
        with (greedy_after mx k).
      rewrite K1. change (fst (greedy_after mx k)) with st.
      change (rows mx) with n. change (cols mx) with m.
      destruct (total_assigned st <? n * m) eqn:E;
        [exact Hbody | apply Z.ltb_ge in E; lia]. }
    split; [exact K1 | split; [lia | split]].
    { rewrite (gi_iters n m st K2). lia. }
    unfold st'. rewrite Hnext. cbn [fst snd].
    split; [reflexivity | split].
    { simpl. rewrite (gi_iters n m st K2). lia. }
    exists target, c0, c.
    destruct Hrest as (R1 & R2 & R3 & R4 & R5).
    repeat (split; [assumption |]). reflexivity.
Qed.

End GreedyResult.

Lemma greedy_never_breaks_3x3 :
  let mx := [[1; 2; 3]; [4; 5; 6]; [7; 8; 9]] in
  snd (greedy_run mx) = false /\
  snd (greedy_allocation mx) = 3 * 3 - 4 /\
  forall k : nat, Z.of_nat k < 3 * 3 - 4 ->
    let st := fst (greedy_after mx k) in
    let st' := fst (greedy_after mx (S k)) in
    snd (greedy_after mx k) = false /\
    total_assigned st = 4 + Z.of_nat k /\
    allocation_iter_count st = Z.of_nat k /\
    snd (greedy_after mx (S k)) = false /\
    allocation_iter_count st' = Z.of_nat k + 1 /\
    exists target c0 c,
      (target < 4)%nat /\ In c0 (region (g_regions st) target) /\
      adjacent c0 c /\ in_grid 3 3 c /\ ~ In c (concat (g_regions st)) /\
      g_regions st' = append_cell (g_regions st) target c.
Proof.
  intros mx.
  apply (@greedy_never_breaks first_seen_order mx).
  - reflexivity.
  - vm_compute. discriminate.
  - vm_compute. discriminate.
Defined.

(** C3. The code at two grids of one row, for every iteration order of
    sets.  On [[1, 2, 3, 4]] the loop makes no pass and on
    [[1, 0, 0, 0, 1]] it makes one; neither run breaks, and in both results
    the cell (0, 0) lies in regions 0 and 2 and the last cell in regions 1
    and 3, while cells in between lie in no region. *)
Theorem greedy_degenerate_overlap {ord : SetOrder} :
  greedy_allocation [[1; 2; 3; 4]]
  = ([[(0, 0)]; [(0, 3)]; [(0, 0)]; [(0, 3)]], 0) /\
  snd (greedy_run [[1; 2; 3; 4]]) = false /\
  greedy_allocation [[1; 0; 0; 0; 1]]
  = ([[(0, 0); (0, 1)]; [(0, 4)]; [(0, 0)]; [(0, 4)]], 1) /\
  snd (greedy_run [[1; 0; 0; 0; 1]]) = false.
Proof.
  split; [reflexivity | split; [reflexivity |]].
  unfold greedy_allocation. cbn [is_empty_grid].
  rewrite greedy_1x5_any_order. split; reflexivity.
Qed.

(** C4. The seeding of the code on the 1 x 4 grid [[1, 2, 3, 4]]: the
    corner formulas give (0, 0) twice and (0, 3) twice, both cells are put
    into two seed regions, their costs are counted twice, and
    [total_assigned] is set to 4 with two cells assigned. *)
Theorem greedy_seed_collision :
  let st := greedy_init [[1; 2; 3; 4]] 1 4 in
  start_positions 1 4 = [(0, 0); (0, 3); (0, 0); (0, 3)] /\
  g_regions st = [[(0, 0)]; [(0, 3)]; [(0, 0)]; [(0, 3)]] /\
  g_sums st = [1; 4; 1; 4] /\
  g_assigned st = [[true; false; false; true]] /\
  total_assigned st = 4.
Proof. repeat split; reflexivity. Qed.

(** * The three algorithms compared *)

(** C2 as stated fails.  On [[1, 2, 2], [1, 3, 3]] the Stage-1 split of
    the two-stage algorithm has imbalance 0 with the disconnected region
    {(0, 2), (1, 0)}, Stage 2 finds nothing to improve, and the best
    partition into connected regions has imbalance 2.  On
    [[1, 0, 0, 0, 1]] the greedy result counts the two corner cells twice
    and reaches imbalance 0, below the optimum 1.  Sets are enumerated here
    in insertion order; both runs are the same for every order
    ([two_stage_2x3_any_order], [greedy_1x5_any_order]). *)
Lemma brute_force_above_heuristics :
  let mx := [[1; 2; 2]; [1; 3; 3]] in
  let row := [[1; 0; 0; 0; 1]] in
  fst (two_stage_allocation mx 100)
  = [[(0, 0); (0, 1)]; [(0, 2); (1, 0)]; [(1, 1)]; [(1, 2)]] /\
  calculate_objective_value mx (fst (two_stage_allocation mx 100)) = 0 /\
  calculate_objective_value mx (fst (brute_force_allocation mx)) = 2 /\
  calculate_objective_value row (fst (greedy_allocation row)) = 0 /\
  calculate_objective_value row (fst (brute_force_allocation row)) = 1.
Proof. vm_compute. repeat split; reflexivity. Qed.

Lemma objective_nonneg (mx : matrix) (rs : regions) :
  0 <= calculate_objective_value mx rs.
Proof.
  unfold calculate_objective_value. rewrite region_sums_eq.
  cbn [max_list min_list fold_left]. lia.
Qed.

(** C2, amended. On a non-empty grid of at most 16 cells the imbalance of
    the brute-force result is at most that of the greedy result when the
    grid has at least two rows and two columns, and at most that of the
    two-stage result whenever the four regions that the two-stage
    algorithm returns are non-empty and edge-connected; on a grid of fewer
    than 4 cells the brute-force result is all-empty, with imbalance 0, at
    most that of both heuristics. *)
Theorem brute_force_le_heuristics {ord : SetOrder} (mx : matrix)
    (max_iterations : Z) :
  rectangular mx -> is_empty_grid mx = false -> rows mx * cols mx <= 16 ->
  let best := calculate_objective_value mx (fst (brute_force_allocation mx)) in
  let ts := fst (two_stage_allocation mx max_iterations) in
  (2 <= rows mx -> 2 <= cols mx ->
   best <= calculate_objective_value mx (fst (greedy_allocation mx))) /\
  ((forall d, (d < 4)%nat -> region ts d <> [] /\ connected (region ts d)) ->
   best <= calculate_objective_value mx ts) /\
  (rows mx * cols mx < 4 ->
   best = 0 /\
   best <= calculate_objective_value mx (fst (greedy_allocation mx)) /\
   best <= calculate_objective_value mx ts).
Proof.
  intros _ Hne Hsz best ts. split; [| split].
  3: {
    intros Hlt.
    assert (Hbest : best = 0).
    { unfold best.
      destruct (brute_force_cases mx Hne Hsz) as [[-> _] | (l & Hfb & _)];
        [reflexivity |].
      exfalso. destruct (nonempty_dims mx Hne) as [Hn Hm].
      destruct Hfb as (pre & post & Hsplit & Hv & _).
      rewrite (no_valid_labels_below_4 _ _ l Hn Hm Hlt) in Hv;
        [discriminate |].
      rewrite Hsplit. apply in_or_app; right; left; reflexivity. }
    rewrite Hbest. split; [reflexivity | split]; apply objective_nonneg. }
  - intros Hn Hm. apply brute_force_le_valid; [exact Hne | exact Hsz |].
    apply greedy_valid_partition; assumption.
  - intros Hts. apply brute_force_le_valid; [exact Hne | exact Hsz |].
    split; [| split].
    + unfold ts. rewrite two_stage_allocation_eq by exact Hne.
      apply optimize_loop_spec. apply stage1_disjoint_cover. exact Hne.
    + intros d Hd. apply Hts; exact Hd.
    + intros d Hd. apply Hts; exact Hd.
Qed.

Lemma brute_force_le_heuristics_2x2 :
  let mx := [[1; 2]; [3; 4]] in
  let best := calculate_objective_value mx (fst (brute_force_allocation mx)) in
  let ts := fst (two_stage_allocation mx 100) in
  (2 <= rows mx -> 2 <= cols mx ->
   best <= calculate_objective_value mx (fst (greedy_allocation mx))) /\
  ((forall d, (d < 4)%nat -> region ts d <> [] /\ connected (region ts d)) ->
   best <= calculate_objective_value mx ts) /\
  (rows mx * cols mx < 4 ->
   best = 0 /\
   best <= calculate_objective_value mx (fst (greedy_allocation mx)) /\
   best <= calculate_objective_value mx ts).
Proof.
  intros mx.
  apply (@brute_force_le_heuristics first_seen_order mx 100).
  - reflexivity.
  - reflexivity.
  - vm_compute. discriminate.
Defined.

(** * Degenerate inputs *)

Lemma is_empty_grid_dims (mx : matrix) :
  is_empty_grid mx = true <-> rows mx = 0 \/ cols mx = 0.
Proof.
  unfold rows, cols, len. destruct mx as [| [| x row] mx]; simpl; split;
    intros; try reflexivity; try lia; try discriminate.
Qed.

(** C9. On an empty grid or a grid with a zero dimension each of the three
    algorithms returns four empty regions and the count 0; on a grid of
    more than 16 cells [brute_force_allocation] returns four empty regions
    and the count 0.  These results are returned by the guards at the head
    of the functions, before any cell is read. *)
Theorem degenerate_inputs {ord : SetOrder} (mx : matrix)
    (max_iterations : Z) :
  (rows mx = 0 \/ cols mx = 0 ->
   brute_force_allocation mx = ([[]; []; []; []], 0) /\
   greedy_allocation mx = ([[]; []; []; []], 0) /\
   two_stage_allocation mx max_iterations = ([[]; []; []; []], 0)) /\
  (16 < rows mx * cols mx ->
   brute_force_allocation mx = ([[]; []; []; []], 0)).
Proof.
  split.
  - intros H. apply is_empty_grid_dims in H.
    unfold brute_force_allocation, greedy_allocation, two_stage_allocation.
    rewrite H. repeat split; reflexivity.
  - intros H. unfold brute_force_allocation.
    destruct (is_empty_grid mx); [reflexivity |]. cbv zeta.
    apply Z.ltb_lt in H. rewrite H. reflexivity.
Qed.

Lemma degenerate_inputs_examples :
  (brute_force_allocation [] = ([[]; []; []; []], 0) /\
   greedy_allocation [] = ([[]; []; []; []], 0) /\
   two_stage_allocation [] 100 = ([[]; []; []; []], 0)) /\
  (brute_force_allocation [[]; []] = ([[]; []; []; []], 0) /\
   greedy_allocation [[]; []] = ([[]; []; []; []], 0) /\
   two_stage_allocation [[]; []] 100 = ([[]; []; []; []], 0)) /\
  brute_force_allocation [repeat 1 17] = ([[]; []; []; []], 0).
Proof.
  split; [| split].
  - apply (proj1 (@degenerate_inputs first_seen_order [] 100)).
    left; reflexivity.
  - apply (proj1 (@degenerate_inputs first_seen_order [[]; []] 100)).
    right; reflexivity.
  - apply (proj2 (@degenerate_inputs first_seen_order [repeat 1 17] 100)).
    reflexivity.
Defined.

(** * Further properties: the connectivity test *)

(** X1. For a list of distinct cells of the grid, [check_connected] returns
    [True] exactly when the cells form an edge-connected set: every cell is
    reached from every other by up, down, left and right steps inside the
    set. *)
Theorem check_connected_decides (R : list cell) (n m : Z) :
  NoDup R -> (forall c, In c R -> in_grid n m c) ->
  (check_connected R n m = true <-> connected R).
Proof. apply check_connected_iff. Qed.

Lemma check_connected_decides_L :
  let R := [(0, 0); (1, 0); (1, 1)] in
  check_connected R 2 2 = true <-> connected R.
Proof.
  intros R. apply (check_connected_decides R 2 2).
  - repeat constructor; simpl; intuition congruence.
  - intros c [<- | [<- | [<- | []]]]; unfold in_grid; simpl; lia.
Defined.

(** X2. A list of two or more coordinates in which a cell occurs twice is
    rejected by [check_connected], whatever its shape: the traversal counts
    each cell once and compares the count with the length of the list. *)
Theorem check_connected_rejects_repeats (l1 l2 l3 : list cell) (c : cell)
    (n m : Z) :
  check_connected (l1 ++ c :: l2 ++ c :: l3) n m = false.
Proof.
  remember (l1 ++ c :: l2 ++ c :: l3) as R eqn:HR.
  assert (Hlen : (length R = S (length (l1 ++ c :: l2 ++ l3)))%nat).
  { rewrite HR. rewrite !length_app. simpl. rewrite !length_app. simpl. lia. }
  assert (Hincl : incl R (l1 ++ c :: l2 ++ l3)).
  { rewrite HR. intros x Hx.
    rewrite in_app_iff in Hx. simpl in Hx. rewrite in_app_iff in Hx. simpl in Hx.
    rewrite in_app_iff. simpl. rewrite in_app_iff. tauto. }
  assert (H2 : (2 <= length R)%nat).
  { rewrite Hlen. rewrite length_app. simpl. lia. }
  unfold check_connected.
  destruct (length R <=? 1)%nat eqn:E; [apply Nat.leb_le in E; lia |].
  destruct R as [| s tl]; [simpl in H2; lia |].
  set (R := s :: tl) in *.
  destruct (bfs_spec R n m s (length R) [s] [s]) as (J & _ & _).
  - repeat split.
    + constructor; [intros [] | constructor].
    + intros x [<- | []]. apply path_refl. left; reflexivity.
    + apply incl_refl.
    + intros x Hx Hn. contradiction.
  - simpl. lia.
  - destruct J as (Jnd & Jp & _ & _).
    apply Nat.eqb_neq.
    assert ((length (fst (bfs (length R) R n m [s] [s]))
             <= length (l1 ++ c :: l2 ++ l3))%nat).
    { apply NoDup_incl_length; [exact Jnd |].
      intros x Hx. apply Hincl. eapply path_in_end. apply Jp. exact Hx. }
    lia.
Qed.

(** * Further properties: labelings, regions and the allocation matrix *)

Lemma labels_to_regions_partition_aux (labels : list nat) (n m : Z) :
  0 < m -> 0 <= n ->
  Z.of_nat (length labels) = n * m ->
  Forall (fun x => (x < 4)%nat) labels ->
  disjoint_cover n m (labels_to_regions labels n m) /\
  forall k d, (k < length labels)%nat ->
    (In (cell_of_index m (Z.of_nat k)) (region (labels_to_regions labels n m) d)
     <-> nth k labels 4%nat = d).
Proof.
  intros Hm Hn Hlen HF. split; [apply labels_disjoint_cover; assumption |].
  intros k d Hk. rewrite region_labels_to_regions by exact HF.
  rewrite In_cells_labelled. split.
  - intros [k' [Hk' [Hd E]]]. apply cell_of_index_inj in E; [| exact Hm].
    assert (k = k') by lia. subst k'. exact Hd.
  - intros Hd. exists k. repeat split; [exact Hk | exact Hd].
Qed.

(** X3. [labels_to_regions] turns a labeling of the [n * m] cells with
    labels 0 to 3 into four regions that are pairwise disjoint and cover
    the grid, and the cell with row-major index [k] lies in region [d]
    exactly when [labels[k] = d]. *)
Theorem labels_to_regions_partition (labels : list nat) (n m : Z) :
  0 < m -> 0 <= n ->
  Z.of_nat (length labels) = n * m ->
  Forall (fun x => (x < 4)%nat) labels ->
  disjoint_cover n m (labels_to_regions labels n m) /\
  forall k d, (k < length labels)%nat ->
    (In (cell_of_index m (Z.of_nat k)) (region (labels_to_regions labels n m) d)
     <-> nth k labels 4%nat = d).
Proof. apply labels_to_regions_partition_aux. Qed.

Lemma labels_to_regions_partition_2x2 :
  let labels := [2; 0; 1; 3]%nat in
  disjoint_cover 2 2 (labels_to_regions labels 2 2) /\
  forall k d, (k < length labels)%nat ->
    (In (cell_of_index 2 (Z.of_nat k)) (region (labels_to_regions labels 2 2) d)
     <-> nth k labels 4%nat = d).
Proof.
  intros labels. apply (labels_to_regions_partition labels 2 2).
  - lia.
  - lia.
  - reflexivity.
  - repeat constructor.
Defined.

Lemma entry_set_entry (n m : Z) (am : list (list Z)) (c c' : cell) (v : Z) :
  am_dims n m am -> in_grid n m c -> in_grid n m c' ->
  entry (set_entry am c v) c' = if cell_eqb c' c then v else entry am c'.
Proof.
  intros [Hrows Hcols] [Hi Hj] [Hi' Hj'].
  unfold entry, set_entry.
  destruct c as [i j], c' as [i' j']; simpl in *.
  unfold cell_eqb; simpl.
  destruct (Z.eqb_spec i' i) as [-> | Hne]; simpl.
  - rewrite nth_update_eq by lia.
    destruct (Z.eqb_spec j' j) as [-> | Hnj].
    + apply nth_update_eq. rewrite Hcols by lia. lia.
    + apply nth_update_neq. lia.
  - rewrite nth_update_neq by lia. reflexivity.
Qed.

Lemma set_entry_dims (n m : Z) (am : list (list Z)) (c : cell) (v : Z) :
  am_dims n m am -> am_dims n m (set_entry am c v).
Proof.
  intros [Hrows Hcols]. unfold set_entry. split.
  - rewrite length_update. exact Hrows.
  - intros k Hk.
    destruct (Nat.eq_dec (Z.to_nat (fst c)) k) as [E | E].
    + rewrite E. rewrite nth_update_eq by lia.
      rewrite length_update. apply Hcols; exact Hk.
    + rewrite nth_update_neq by exact E. apply Hcols; exact Hk.
Qed.

(** The inner loop [for i, j in regions[dev]] of the allocation matrix. *)
Lemma entry_paint (n m : Z) (v : Z) (cells : list cell) :
  (forall x, In x cells -> in_grid n m x) ->
  forall am c,
    am_dims n m am -> in_grid n m c ->
    am_dims n m (fold_left (fun am x => set_entry am x v) cells am) /\
    entry (fold_left (fun am x => set_entry am x v) cells am) c =
    if mem c cells then v else entry am c.
Proof.
  induction cells as [| x t IH]; intros Hg am c Hd Hc; simpl.
  - split; [exact Hd | reflexivity].
  - assert (Hx : in_grid n m x) by (apply Hg; left; reflexivity).
    destruct (IH (fun y Hy => Hg y (or_intror Hy)) (set_entry am x v) c
                (set_entry_dims n m am x v Hd) Hc) as [D E].
    split; [exact D |]. rewrite E.
    rewrite (entry_set_entry n m am x c v Hd Hx Hc).
    destruct (mem c t); [rewrite orb_true_r; reflexivity |].
    rewrite orb_false_r. reflexivity.
Qed.

Lemma initial_am_dims (n m : Z) :
  am_dims n m (repeat (repeat (-1) (Z.to_nat m)) (Z.to_nat n)).
Proof.
  split.
  - apply repeat_length.
  - intros k Hk. rewrite nth_repeat_lt by exact Hk. apply repeat_length.
Qed.

Lemma initial_entry (n m : Z) (c : cell) :
  in_grid n m c ->
  entry (repeat (repeat (-1) (Z.to_nat m)) (Z.to_nat n)) c = -1.
Proof.
  intros [Hi Hj]. unfold entry.
  rewrite nth_repeat_lt by lia. apply nth_repeat_lt. lia.
Qed.

Lemma allocation_matrix_entry (mx : matrix) (rs : regions) (c : cell) :
  (forall d x, In x (region rs d) -> in_grid (rows mx) (cols mx) x) ->
  in_grid (rows mx) (cols mx) c ->
  entry (allocation_matrix mx rs) c = shown_developer rs c.
Proof.
  intros Hg Hc. unfold allocation_matrix, devs. cbv zeta. cbn [fold_left].
  set (n := rows mx) in *. set (m := cols mx) in *.
  set (am0 := repeat (repeat (-1) (Z.to_nat m)) (Z.to_nat n)).
  pose proof (initial_am_dims n m) as D0. fold am0 in D0.
  destruct (entry_paint n m (Z.of_nat 0 + 1) (region rs 0) (Hg 0%nat) am0 c D0 Hc)
    as [D1 E1].
  set (am1 := fold_left _ (region rs 0) am0) in *.
  destruct (entry_paint n m (Z.of_nat 1 + 1) (region rs 1) (Hg 1%nat) am1 c D1 Hc)
    as [D2 E2].
  set (am2 := fold_left _ (region rs 1) am1) in *.
  destruct (entry_paint n m (Z.of_nat 2 + 1) (region rs 2) (Hg 2%nat) am2 c D2 Hc)
    as [D3 E3].
  set (am3 := fold_left _ (region rs 2) am2) in *.
  destruct (entry_paint n m (Z.of_nat 3 + 1) (region rs 3) (Hg 3%nat) am3 c D3 Hc)
    as [_ E4].
  rewrite E4, E3, E2, E1. unfold am0. rewrite (initial_entry n m c Hc).
  reflexivity.
Qed.

(** X4. The matrix that the [visualize_allocation] functions print shows,
    for every cell of the grid, the number of the last developer (in index
    order) whose region holds the cell, and -1 (printed as "-") for a cell
    in no region, provided the regions hold cells of the grid only. *)
Theorem allocation_matrix_shows (mx : matrix) (rs : regions) (c : cell) :
  (4 <= length rs)%nat ->
  (forall d x, In x (region rs d) -> in_grid (rows mx) (cols mx) x) ->
  in_grid (rows mx) (cols mx) c ->
  entry (allocation_matrix mx rs) c = shown_developer rs c.
Proof. intros _. apply allocation_matrix_entry. Qed.

Lemma allocation_matrix_shows_1x4 :
  let mx := [[1; 2; 3; 4]] in
  let rs := [[(0, 0)]; [(0, 3)]; [(0, 0)]; [(0, 3)]] in
  entry (allocation_matrix mx rs) (0, 0) = shown_developer rs (0, 0).
Proof.
  intros mx rs. apply (allocation_matrix_shows mx rs (0, 0)).
  - simpl. lia.
  - intros d x Hx. unfold in_grid.
    destruct d as [| [| [| [| [| d]]]]]; simpl in Hx;
      try (destruct Hx as [<- | []]; cbv; repeat split; congruence);
      destruct Hx.
  - cbv; repeat split; congruence.
Defined.

(** X5. Round trip between [labels_to_regions] and the allocation matrix:
    for a labeling of the [n * m] cells with labels 0 to 3, the matrix
    printed for its regions shows [labels[k] + 1] at the cell with
    row-major index [k]. *)
Theorem allocation_matrix_of_labels (mx : matrix) (labels : list nat)
    (k : nat) :
  is_empty_grid mx = false ->
  Z.of_nat (length labels) = rows mx * cols mx ->
  Forall (fun x => (x < 4)%nat) labels ->
  (k < length labels)%nat ->
  entry
    (allocation_matrix mx (labels_to_regions labels (rows mx) (cols mx)))
    (cell_of_index (cols mx) (Z.of_nat k))
  = Z.of_nat (nth k labels 4%nat) + 1.
Proof.
  intros Hne Hlen HF Hk. destruct (nonempty_dims mx Hne) as [Hn Hm].
  set (n := rows mx) in *. set (m := cols mx) in *.
  destruct (labels_to_regions_partition_aux labels n m ltac:(lia) ltac:(lia) Hlen HF)
    as [Hdc Hmem].
  assert (Hg : in_grid n m (cell_of_index m (Z.of_nat k)))
    by (apply cell_of_index_in_grid; lia).
  rewrite allocation_matrix_entry; [| | exact Hg].
  - unfold shown_developer.
    assert (Hd : forall d, mem (cell_of_index m (Z.of_nat k))
                   (region (labels_to_regions labels n m) d)
                 = Nat.eqb (nth k labels 4%nat) d).
    { intros d. destruct (Nat.eqb_spec (nth k labels 4%nat) d) as [E | E].
      - apply mem_In. apply Hmem; assumption.
      - apply mem_not_In. intros H. apply E. apply (Hmem k d Hk). exact H. }
    rewrite !Hd.
    assert (Hlt : (nth k labels 4 < 4)%nat).
    { rewrite Forall_forall in HF. apply HF. apply nth_In. exact Hk. }
    destruct (nth k labels 4%nat) as [| [| [| [| x]]]]; try lia; reflexivity.
  - intros d x Hx. destruct (Nat.lt_ge_cases d 4) as [L | L].
    + apply Hdc. exists d. split; assumption.
    + rewrite region_out_of_range in Hx; [destruct Hx |].
      destruct Hdc as [H4 _]. fold n m. rewrite H4. exact L.
Qed.

Lemma allocation_matrix_of_labels_2x2 :
  let mx := [[1; 2]; [3; 4]] in
  let labels := [2; 0; 1; 3]%nat in
  entry
    (allocation_matrix mx (labels_to_regions labels (rows mx) (cols mx)))
    (cell_of_index (cols mx) (Z.of_nat 2))
  = Z.of_nat (nth 2 labels 4%nat) + 1.
Proof.
  intros mx labels. apply (allocation_matrix_of_labels mx labels 2).
  - reflexivity.
  - reflexivity.
  - repeat constructor.
  - simpl. lia.
Defined.

(** * Further properties: sums and objective values *)

Lemma fold_max_spec (t : list Z) :
  forall x,
    x <= fold_left Z.max t x /\
    (forall y, In y t -> y <= fold_left Z.max t x) /\
    (fold_left Z.max t x = x \/ In (fold_left Z.max t x) t).
Proof.
  induction t as [| a t IH]; intros x; simpl.
  - split; [lia | split; [tauto | left; reflexivity]].
  - destruct (IH (Z.max x a)) as (H1 & H2 & H3). split; [lia | split].
    + intros y [<- | Hy]; [lia | apply H2; exact Hy].
    + destruct H3 as [E | Hin]; [| right; right; exact Hin].
      rewrite E. destruct (Z.max_spec x a) as [[_ ->] | [_ ->]]; auto.
Qed.

Lemma fold_min_spec (t : list Z) :
  forall x,
    fold_left Z.min t x <= x /\
    (forall y, In y t -> fold_left Z.min t x <= y) /\
    (fold_left Z.min t x = x \/ In (fold_left Z.min t x) t).
Proof.
  induction t as [| a t IH]; intros x; simpl.
  - split; [lia | split; [tauto | left; reflexivity]].
  - destruct (IH (Z.min x a)) as (H1 & H2 & H3). split; [lia | split].
    + intros y [<- | Hy]; [lia | apply H2; exact Hy].
    + destruct H3 as [E | Hin]; [| right; right; exact Hin].
      rewrite E. destruct (Z.min_spec x a) as [[_ ->] | [_ ->]]; auto.
Qed.

Lemma max_list_ge (l : list Z) (x : Z) : In x l -> x <= max_list l.
Proof.
  destruct l as [| a t]; [intros [] |]. simpl.
  destruct (fold_max_spec t a) as (H1 & H2 & _).
  intros [<- | Hx]; [exact H1 | apply H2; exact Hx].
Qed.

Lemma min_list_le (l : list Z) (x : Z) : In x l -> min_list l <= x.
Proof.
  destruct l as [| a t]; [intros [] |]. simpl.
  destruct (fold_min_spec t a) as (H1 & H2 & _).
  intros [<- | Hx]; [exact H1 | apply H2; exact Hx].
Qed.

Lemma max_list_In (l : list Z) : l <> [] -> In (max_list l) l.
Proof.
  destruct l as [| a t]; [congruence |]. intros _. simpl.
  destruct (fold_max_spec t a) as (_ & _ & [-> | H]); auto.
Qed.

Lemma min_list_In (l : list Z) : l <> [] -> In (min_list l) l.
Proof.
  destruct l as [| a t]; [congruence |]. intros _. simpl.
  destruct (fold_min_spec t a) as (_ & _ & [-> | H]); auto.
Qed.

Lemma update_same {A : Type} (l : list A) (k : nat) (d : A) :
  update l k (nth k l d) = l.
Proof.
  revert k; induction l as [| h t IH]; intros [| k]; simpl; auto.
  f_equal. apply IH.
Qed.

Lemma update_update {A : Type} (l : list A) (k : nat) (v w : A) :
  update (update l k v) k w = update l k w.
Proof.
  revert k; induction l as [| h t IH]; intros [| k]; simpl; auto.
  f_equal. apply IH.
Qed.

(** The inner loop [for i, j in regions[dev]: sums[dev] += matrix[i][j]]. *)
Lemma add_costs (mx : matrix) (dev : nat) (cells : list cell) :
  forall sums,
    (dev < length sums)%nat ->
    fold_left (fun sums c => update sums dev (nth dev sums 0 + cost mx c))
      cells sums
    = update sums dev (nth dev sums 0 + region_sum mx cells).
Proof.
  induction cells as [| x t IH]; intros sums Hd; simpl.
  - unfold region_sum; simpl. rewrite Z.add_0_r. symmetry. apply update_same.
  - rewrite IH by (rewrite length_update; exact Hd).
    rewrite nth_update_eq by exact Hd. rewrite update_update.
    rewrite region_sum_cons. rewrite Z.add_assoc. reflexivity.
Qed.

Lemma calculate_sums_eq (mx : matrix) (rs : regions) :
  calculate_sums mx rs = region_sums mx rs.
Proof.
  unfold calculate_sums, devs. cbn [fold_left].
  rewrite (add_costs mx 0 (region rs 0) [0; 0; 0; 0]) by (simpl; lia).
  cbn [update nth].
  rewrite (add_costs mx 1 (region rs 1)) by (simpl; lia). cbn [update nth].
  rewrite (add_costs mx 2 (region rs 2)) by (simpl; lia). cbn [update nth].
  rewrite (add_costs mx 3 (region rs 3)) by (simpl; lia). cbn [update nth].
  reflexivity.
Qed.

(** X6. The score that experiments.py gives a partition,
    [calculate_objective_value(calculate_sums(matrix, regions))] with its
    own two helpers, is the objective value that brute_force.py computes
    for it, and the imbalance that two_stage.py computes for it. *)
Theorem experiments_score_agrees (mx : matrix) (rs : regions) :
  (4 <= length rs)%nat ->
  objective_of_sums (calculate_sums mx rs) = calculate_objective_value mx rs /\
  objective_of_sums (calculate_sums mx rs) = calculate_current_imbalance mx rs.
Proof.
  intros _. rewrite calculate_sums_eq. split; reflexivity.
Qed.

Lemma experiments_score_agrees_2x2 :
  let mx := [[1; 2]; [3; 4]] in
  let rs := [[(0, 0)]; [(0, 1)]; [(1, 0)]; [(1, 1)]] in
  objective_of_sums (calculate_sums mx rs) = calculate_objective_value mx rs /\
  objective_of_sums (calculate_sums mx rs) = calculate_current_imbalance mx rs.
Proof.
  intros mx rs. apply (experiments_score_agrees mx rs). simpl. lia.
Defined.

(** X7. On a grid of more than 16 cells the all-empty result of the
    capacity guard of [brute_force_allocation] is scored 0 by
    experiments.py, the value of a perfectly balanced partition (experiment
    3.4.2 runs it on 5 x 5 grids). *)
Theorem brute_force_guard_scores_zero (mx : matrix) :
  16 < rows mx * cols mx ->
  objective_of_sums (calculate_sums mx (fst (brute_force_allocation mx))) = 0.
Proof.
  intros H. rewrite calculate_sums_eq. unfold brute_force_allocation.
  destruct (is_empty_grid mx); [reflexivity |]. cbv zeta.
  apply Z.ltb_lt in H. rewrite H. reflexivity.
Qed.

Lemma brute_force_guard_scores_zero_5x5 :
  let mx := repeat (repeat 7 5) 5 in
  objective_of_sums (calculate_sums mx (fst (brute_force_allocation mx))) = 0.
Proof.
  intros mx. apply (brute_force_guard_scores_zero mx). reflexivity.
Defined.

(** X8. The objective value of four regions is never negative, and it is 0
    exactly when the four regions have the same sum of costs. *)
Theorem objective_zero_iff_balanced (mx : matrix) (rs : regions) :
  (4 <= length rs)%nat ->
  0 <= calculate_objective_value mx rs /\
  (calculate_objective_value mx rs = 0 <->
   forall d d', (d < 4)%nat -> (d' < 4)%nat ->
     region_sum mx (region rs d) = region_sum mx (region rs d')).
Proof.
  intros _. unfold calculate_objective_value. rewrite region_sums_eq.
  cbn [max_list min_list fold_left].
  split; [lia | split].
  - intros H d d' Hd Hd'.
    destruct d as [| [| [| [| d]]]]; try lia;
      destruct d' as [| [| [| [| d']]]]; lia.
  - intros H.
    pose proof (H 0%nat 1%nat ltac:(lia) ltac:(lia)).
    pose proof (H 0%nat 2%nat ltac:(lia) ltac:(lia)).
    pose proof (H 0%nat 3%nat ltac:(lia) ltac:(lia)).
    lia.
Qed.

Lemma objective_zero_iff_balanced_2x3 :
  let mx := [[1; 2; 2]; [1; 3; 3]] in
  let rs := [[(0, 0); (0, 1)]; [(0, 2); (1, 0)]; [(1, 1)]; [(1, 2)]] in
  0 <= calculate_objective_value mx rs /\
  (calculate_objective_value mx rs = 0 <->
   forall d d', (d < 4)%nat -> (d' < 4)%nat ->
     region_sum mx (region rs d) = region_sum mx (region rs d')).
Proof.
  intros mx rs. apply (objective_zero_iff_balanced mx rs). simpl. lia.
Defined.

Lemma rectangular_row (mx : matrix) (c : cell) :
  rectangular mx -> in_grid (rows mx) (cols mx) c ->
  In (nth (Z.to_nat (fst c)) mx []) mx /\
  In (cost mx c) (nth (Z.to_nat (fst c)) mx []).
Proof.
  intros Hr [Hi Hj]. unfold rows, len in Hi.
  assert (Hrow : In (nth (Z.to_nat (fst c)) mx []) mx) by (apply nth_In; lia).
  split; [exact Hrow |].
  unfold rectangular in Hr. rewrite forallb_forall in Hr.
  specialize (Hr _ Hrow). apply Z.eqb_eq in Hr. unfold len in Hr.
  unfold cost. apply nth_In. lia.
Qed.

(** X9. On a non-empty rectangular matrix [get_max_min_difference] is the
    spread of the costs: no two cells differ by more, two cells differ by
    exactly that much, and it is never negative. *)
Theorem get_max_min_difference_spread (mx : matrix) :
  rectangular mx -> is_empty_grid mx = false ->
  let n := rows mx in
  let m := cols mx in
  0 <= get_max_min_difference mx /\
  (forall c c', in_grid n m c -> in_grid n m c' ->
     cost mx c - cost mx c' <= get_max_min_difference mx) /\
  exists c c', in_grid n m c /\ in_grid n m c' /\
    cost mx c - cost mx c' = get_max_min_difference mx.
Proof.
  intros Hr Hne n m. destruct (nonempty_dims mx Hne) as [Hn Hm].
  fold n in Hn. fold m in Hm.
  assert (Hbound : forall c c', in_grid n m c -> in_grid n m c' ->
            cost mx c - cost mx c' <= get_max_min_difference mx).
  { intros c c' Hc Hc'. unfold get_max_min_difference.
    destruct (rectangular_row mx c Hr Hc) as [R1 C1].
    destruct (rectangular_row mx c' Hr Hc') as [R2 C2].
    pose proof (max_list_ge _ _ C1).
    pose proof (min_list_le _ _ C2).
    pose proof (max_list_ge _ _ (in_map max_list _ _ R1)).
    pose proof (min_list_le _ _ (in_map min_list _ _ R2)).
    lia. }
  assert (Hcell : forall row v, In row mx -> In v row ->
            exists c, in_grid n m c /\ cost mx c = v).
  { intros row v Hrow Hv.
    apply In_nth with (d := []) in Hrow. destruct Hrow as [i [Hi Erow]].
    apply In_nth with (d := 0) in Hv. destruct Hv as [j [Hj Ev]].
    assert (Hlen : len row = m).
    { unfold rectangular in Hr. rewrite forallb_forall in Hr.
      apply Z.eqb_eq. apply Hr. rewrite <- Erow. apply nth_In. exact Hi. }
    exists (Z.of_nat i, Z.of_nat j). split.
    - unfold in_grid, n, rows, len in *. simpl. lia.
    - unfold cost. simpl. rewrite !Nat2Z.id. rewrite Erow. exact Ev. }
  assert (Hrows : map max_list mx <> [] /\ map min_list mx <> []).
  { destruct mx; [discriminate |]. split; discriminate. }
  assert (Hnonempty : forall row, In row mx -> row <> []).
  { intros row Hrow E. subst row.
    unfold rectangular in Hr. rewrite forallb_forall in Hr.
    specialize (Hr _ Hrow). apply Z.eqb_eq in Hr. unfold len in Hr. simpl in Hr.
    fold m in Hr. lia. }
  assert (Hattained : exists c c', in_grid n m c /\ in_grid n m c' /\
            cost mx c - cost mx c' = get_max_min_difference mx).
  { unfold get_max_min_difference.
    pose proof (max_list_In _ (proj1 Hrows)) as Hmax.
    pose proof (min_list_In _ (proj2 Hrows)) as Hmin.
    apply in_map_iff in Hmax. destruct Hmax as [r1 [E1 R1]].
    apply in_map_iff in Hmin. destruct Hmin as [r2 [E2 R2]].
    destruct (Hcell r1 (max_list r1) R1 (max_list_In _ (Hnonempty _ R1)))
      as [c [Hc Ec]].
    destruct (Hcell r2 (min_list r2) R2 (min_list_In _ (Hnonempty _ R2)))
      as [c' [Hc' Ec']].
    exists c, c'. split; [exact Hc | split; [exact Hc' |]]. lia. }
  split; [| split; [exact Hbound | exact Hattained]].
  destruct Hattained as (c & c' & Hc & Hc' & E).
  pose proof (Hbound c' c Hc' Hc). pose proof (Hbound c c Hc Hc). lia.
Qed.

Lemma get_max_min_difference_spread_3x3 :
  let mx := [[1; 2; 3]; [4; 5; 6]; [7; 8; 9]] in
  0 <= get_max_min_difference mx /\
  (forall c c', in_grid 3 3 c -> in_grid 3 3 c' ->
     cost mx c - cost mx c' <= get_max_min_difference mx) /\
  exists c c', in_grid 3 3 c /\ in_grid 3 3 c' /\
    cost mx c - cost mx c' = get_max_min_difference mx.
Proof.
  intros mx. apply (get_max_min_difference_spread mx); reflexivity.
Defined.

(** * Further properties: the helper functions of greedy.py *)

Lemma index_of_spec (v : Z) (l : list Z) :
  In v l ->
  (index_of v l < length l)%nat /\
  nth (index_of v l) l 0 = v /\
  forall j, (j < index_of v l)%nat -> nth j l 0 <> v.
Proof.
  induction l as [| x t IH]; simpl; [tauto |].
  intros Hin. destruct (Z.eqb_spec x v) as [-> | Hne].
  - split; [lia | split; [reflexivity | intros j Hj; lia]].
  - destruct Hin as [E | Hin]; [contradiction |].
    destruct (IH Hin) as (H1 & H2 & H3).
    split; [lia | split; [exact H2 |]].
    intros [| j] Hj; [exact Hne | apply H3; lia].
Qed.

(** X10. On a non-empty list of sums [get_developer_with_min_sum] returns
    a valid index whose sum is the least of all, and the first such index:
    every developer before it has a strictly larger sum. *)
Theorem get_developer_with_min_sum_first (sums : list Z) :
  sums <> [] ->
  let k := get_developer_with_min_sum sums in
  (k < length sums)%nat /\
  (forall j, (j < length sums)%nat -> nth k sums 0 <= nth j sums 0) /\
  (forall j, (j < k)%nat -> nth k sums 0 < nth j sums 0).
Proof.
  intros Hne k. unfold k, get_developer_with_min_sum.
  destruct (index_of_spec (min_list sums) sums (min_list_In sums Hne))
    as (H1 & H2 & H3).
  split; [exact H1 | split].
  - intros j Hj. rewrite H2. apply min_list_le. apply nth_In. exact Hj.
  - intros j Hj. rewrite H2.
    assert (min_list sums <= nth j sums 0)
      by (apply min_list_le; apply nth_In; lia).
    specialize (H3 j Hj). lia.
Qed.

Lemma get_developer_with_min_sum_first_tie :
  let sums := [5; 3; 7; 3] in
  let k := get_developer_with_min_sum sums in
  (k < length sums)%nat /\
  (forall j, (j < length sums)%nat -> nth k sums 0 <= nth j sums 0) /\
  (forall j, (j < k)%nat -> nth k sums 0 < nth j sums 0).
Proof.
  intros sums. apply (get_developer_with_min_sum_first sums). discriminate.
Defined.





Section GreedyHelperProperties.
Context {ord : SetOrder}.





End GreedyHelperProperties.


(** * Further properties: the greedy loop on every non-empty grid *)

Lemma region_sums_append_cell (mx : matrix) (rs : regions) (t : nat)
    (c : cell) :
  length rs = 4%nat -> (t < 4)%nat ->
  region_sums mx (append_cell rs t c) =
  update (region_sums mx rs) t (nth t (region_sums mx rs) 0 + cost mx c).
Proof.
  intros H4 Ht. rewrite !region_sums_eq.
  rewrite !region_append_cell by lia.
  destruct t as [| [| [| [| t]]]]; try lia;
    cbn [Nat.eqb update nth];
    rewrite ?app_nil_r, region_sum_app, region_sum_one; reflexivity.
Qed.

Section GreedyAny.
Context {ord : SetOrder}.
Variables (mx : matrix) (n m : Z).
Hypothesis Hn : 1 <= n.
Hypothesis Hm : 1 <= m.

Lemma greedy_any_stuck_full (st : greedy_state) :
  greedy_inv_any mx n m st ->
  (forall d, (d < 4)%nat ->
     get_adjacent_free_cells (region (g_regions st) d) (g_assigned st) n m = []) ->
  n * m <= total_assigned st.
Proof.
  intros I Hstuck.
  assert (Hclosed : forall x, In x (concat (g_regions st)) ->
            closed_at (all_cells n m) n m x (concat (g_regions st))).
  { intros x Hx d Hd Hb _.
    apply In_concat_region in Hx. destruct Hx as [dev [Hdev Hx]].
    rewrite (ga_length mx n m st I) in Hdev.
    destruct (is_assigned (g_assigned st) (shift x d)) eqn:E.
    - apply (ga_assigned mx n m st I); [apply in_bounds_in_grid; exact Hb | exact E].
    - exfalso.
      assert (Hin : In (shift x d)
                (get_adjacent_free_cells (region (g_regions st) dev)
                   (g_assigned st) n m)).
      { apply In_get_adjacent_free_cells. exists x, d. auto. }
      rewrite (Hstuck dev Hdev) in Hin. destruct Hin. }
  destruct (region (g_regions st) 0) as [| s0 t0] eqn:E0;
    [exfalso; apply (ga_nonempty mx n m st I 0%nat); [lia | exact E0] |].
  assert (Hs0 : In s0 (concat (g_regions st))).
  { apply In_concat_region. exists 0%nat.
    rewrite (ga_length mx n m st I), E0. split; [lia | left; reflexivity]. }
  assert (Hall : incl (all_cells n m) (concat (g_regions st))).
  { intros c Hc.
    apply (path_in_closed (all_cells n m) _ n m s0).
    - intros x Hx. apply In_all_cells in Hx; [exact Hx | lia | lia].
    - exact Hs0.
    - exact Hclosed.
    - apply grid_connected; [lia | lia | | exact Hc].
      apply In_all_cells; [lia | lia |]. apply (ga_grid mx n m st I). exact Hs0. }
  rewrite (ga_total mx n m st I). rewrite <- (length_all_cells n m) by lia.
  unfold len. apply inj_le.
  apply NoDup_incl_length; [apply NoDup_all_cells; lia | exact Hall].
Qed.

Lemma assign_cell_inv_any (st : greedy_state) (target : nat) (c0 c : cell) :
  greedy_inv_any mx n m st ->
  (target < 4)%nat -> In c0 (region (g_regions st) target) ->
  adjacent c0 c -> in_grid n m c -> ~ In c (concat (g_regions st)) ->
  greedy_inv_any mx n m
    (assign_cell mx st target c (allocation_iter_count st + 1)
       (total_assigned st + 1)).
Proof.
  intros I Ht H0 Hadj Hg Hfree.
  pose proof (ga_length mx n m st I) as H4.
  assert (Hperm : Permutation (concat (append_cell (g_regions st) target c))
                    (c :: concat (g_regions st)))
    by (apply concat_append_cell; lia).
  constructor; simpl.
  - rewrite length_append_cell. exact H4.
  - intros d. destruct (Nat.lt_ge_cases target (length (g_regions st))) as [L | L];
      [| lia].
    rewrite region_append_cell by exact L.
    destruct (Nat.eqb_spec target d) as [<- | Hne].
    + apply NoDup_app; [apply (ga_nodup mx n m st I)
                       | constructor; [intros [] | constructor] |].
      intros x Hx [<- | []]. apply Hfree.
      apply In_concat_region. exists target. split; [exact L | exact Hx].
    + rewrite app_nil_r. apply (ga_nodup mx n m st I).
  - intros x Hx. apply (Permutation_in _ Hperm) in Hx.
    destruct Hx as [<- | Hx]; [exact Hg | apply (ga_grid mx n m st I); exact Hx].
  - intros x Hx.
    rewrite (is_assigned_mark n m) by (try assumption; apply (ga_dims mx n m st I)).
    destruct (cell_eqb x c) eqn:E.
    + apply cell_eqb_eq in E. subst x. split; [intros _ | reflexivity].
      apply (Permutation_in _ (Permutation_sym Hperm)). left; reflexivity.
    + rewrite (ga_assigned mx n m st I x Hx). split.
      * intros H. apply (Permutation_in _ (Permutation_sym Hperm)). right; exact H.
      * intros H. apply (Permutation_in _ Hperm) in H.
        destruct H as [<- | H]; [rewrite cell_eqb_refl in E; discriminate | exact H].
  - apply mark_assigned_dims. apply (ga_dims mx n m st I).
  - rewrite (ga_total mx n m st I). unfold len.
    rewrite (Permutation_length Hperm). simpl length. lia.
  - rewrite (ga_iters mx n m st I). lia.
  - intros d Hd. rewrite region_append_cell by lia.
    destruct (Nat.eqb target d).
    + intros E. apply app_eq_nil in E. destruct E as [_ E]. discriminate.
    + rewrite app_nil_r. apply (ga_nonempty mx n m st I); exact Hd.
  - intros d Hd. rewrite region_append_cell by lia.
    destruct (Nat.eqb_spec target d) as [<- | Hne].
    + apply connected_extend with (c0 := c0);
        [apply (ga_connected mx n m st I); exact Ht | exact H0 | exact Hadj].
    + rewrite app_nil_r. apply (ga_connected mx n m st I); exact Hd.
  - rewrite region_sums_append_cell by assumption.
    rewrite (ga_sums mx n m st I). reflexivity.
Qed.

Lemma greedy_body_spec_any (st : greedy_state) :
  greedy_inv_any mx n m st -> total_assigned st < n * m ->
  exists target c0 c,
    greedy_body mx n m st =
    (assign_cell mx st target c (allocation_iter_count st + 1)
       (total_assigned st + 1), false) /\
    (target < 4)%nat /\ In c0 (region (g_regions st) target) /\
    adjacent c0 c /\ in_grid n m c /\ ~ In c (concat (g_regions st)).
Proof.
  intros I Hlt.
  pose proof (ga_length mx n m st I) as H4.
  assert (Hgrow : forall target cells,
            cells = get_adjacent_free_cells (region (g_regions st) target)
                      (g_assigned st) n m ->
            cells <> [] ->
            exists c0 c,
              c = choose_best_cell cells mx (g_sums st) target /\
              (target < 4)%nat /\ In c0 (region (g_regions st) target) /\
              adjacent c0 c /\ in_grid n m c /\ ~ In c (concat (g_regions st))).
  { intros target cells Hcells Hne.
    pose proof (choose_best_cell_In cells mx (g_sums st) target Hne) as Hin.
    rewrite Hcells in Hin at 2.
    apply In_get_adjacent_free_cells in Hin.
    destruct Hin as (c0 & d & H0 & Hd & Hc & Hb & Ha).
    exists c0, (choose_best_cell cells mx (g_sums st) target).
    apply in_bounds_in_grid in Hb.
    split; [reflexivity | split; [| split; [exact H0 | split; [| split]]]].
    - destruct (Nat.lt_ge_cases target 4) as [L | L]; [exact L |].
      rewrite region_out_of_range in H0 by lia. destruct H0.
    - exists d. split; [exact Hd | exact Hc].
    - exact Hb.
    - intros Hc'. apply (ga_assigned mx n m st I _ Hb) in Hc'. congruence. }
  unfold greedy_body. cbv zeta.
  set (min_dev := get_developer_with_min_sum (g_sums st)).
  destruct (get_adjacent_free_cells (region (g_regions st) min_dev)
              (g_assigned st) n m) as [| x t] eqn:E.
  - unfold find_developer_with_adjacent_cells.
    pose proof (find_developer_from_spec devs (g_regions st) (g_assigned st) n m)
      as Hfind.
    destruct (find_developer_from devs (g_regions st) (g_assigned st) n m)
      as [[dev cells] |].
    + destruct Hfind as (_ & Hcells & Hne).
      destruct (Hgrow dev cells Hcells Hne) as (c0 & c & Hc & Hrest).
      exists dev, c0, c. split; [| exact Hrest].
      destruct cells as [| y cells]; [congruence |]. rewrite Hc. reflexivity.
    + exfalso.
      assert (n * m <= total_assigned st).
      { apply greedy_any_stuck_full; [exact I |].
        intros d Hd. apply Hfind. apply In_devs; exact Hd. }
      lia.
  - destruct (Hgrow min_dev (x :: t) (eq_sym E) ltac:(discriminate))
      as (c0 & c & Hc & Hrest).
    exists min_dev, c0, c. split; [| exact Hrest]. rewrite Hc. reflexivity.
Qed.

Lemma greedy_loop_spec_any (fuel : nat) :
  forall st,
    greedy_inv_any mx n m st ->
    Z.of_nat fuel <= n * m - total_assigned st ->
    let r := greedy_loop fuel mx n m st in
    snd r = false /\ greedy_inv_any mx n m (fst r) /\
    total_assigned (fst r) = total_assigned st + Z.of_nat fuel.
Proof.
  induction fuel as [| f IH]; intros st I Hf; cbv zeta.
  - simpl. split; [reflexivity | split; [exact I | lia]].
  - cbn [greedy_loop].
    destruct (total_assigned st <? n * m) eqn:E;
      [apply Z.ltb_lt in E | apply Z.ltb_ge in E; lia].
    destruct (greedy_body_spec_any st I E) as (target & c0 & c & Hbody & Hrest).
    rewrite Hbody. cbn [fst snd].
    destruct Hrest as (Ht & H0 & Hadj & Hg & Hfree).
    pose proof (assign_cell_inv_any st target c0 c I Ht H0 Hadj Hg Hfree) as I'.
    specialize (IH _ I'). cbv zeta in IH. simpl total_assigned in IH at 1.
    destruct IH as (J1 & J2 & J3); [simpl; lia |].
    split; [exact J1 | split; [exact J2 |]].
    rewrite J3. simpl. lia.
Qed.

Lemma greedy_init_inv_any : greedy_inv_any mx n m (greedy_init mx n m).
Proof.
  unfold greedy_init, assign_cell, start_positions, devs. cbn [fold_left nth].
  cbn [g_regions g_sums g_assigned allocation_iter_count total_assigned].
  set (a0 := repeat (repeat false (Z.to_nat m)) (Z.to_nat n)).
  set (c0 := (0, 0) : cell). set (c1 := (0, m - 1) : cell).
  set (c2 := (n - 1, 0) : cell). set (c3 := (n - 1, m - 1) : cell).
  assert (G0 : in_grid n m c0) by (unfold in_grid, c0; simpl; lia).
  assert (G1 : in_grid n m c1) by (unfold in_grid, c1; simpl; lia).
  assert (G2 : in_grid n m c2) by (unfold in_grid, c2; simpl; lia).
  assert (G3 : in_grid n m c3) by (unfold in_grid, c3; simpl; lia).
  assert (Hregs : append_cell (append_cell (append_cell
                    (append_cell empty_regions 0 c0) 1 c1) 2 c2) 3 c3
                  = [[c0]; [c1]; [c2]; [c3]]) by reflexivity.
  rewrite Hregs.
  constructor; cbn [g_regions g_sums g_assigned allocation_iter_count
                    total_assigned concat app].
  - reflexivity.
  - intros d. destruct d as [| [| [| [| [| d]]]]]; unfold region; simpl;
      repeat constructor; simpl; tauto.
  - intros c [<- | [<- | [<- | [<- | []]]]]; assumption.
  - intros c Hc.
    assert (D0 : assigned_dims n m a0) by apply initial_assigned_dims.
    pose proof (mark_assigned_dims n m _ c0 D0) as D1.
    pose proof (mark_assigned_dims n m _ c1 D1) as D2.
    pose proof (mark_assigned_dims n m _ c2 D2) as D3.
    rewrite (is_assigned_mark n m _ c3 c D3 G3 Hc).
    rewrite (is_assigned_mark n m _ c2 c D2 G2 Hc).
    rewrite (is_assigned_mark n m _ c1 c D1 G1 Hc).
    rewrite (is_assigned_mark n m _ c0 c D0 G0 Hc).
    unfold a0. rewrite initial_is_assigned. simpl.
    destruct (cell_eqb c c3) eqn:E3;
      [apply cell_eqb_eq in E3; subst; tauto |].
    destruct (cell_eqb c c2) eqn:E2;
      [apply cell_eqb_eq in E2; subst; tauto |].
    destruct (cell_eqb c c1) eqn:E1;
      [apply cell_eqb_eq in E1; subst; tauto |].
    destruct (cell_eqb c c0) eqn:E0;
      [apply cell_eqb_eq in E0; subst; tauto |].
    split; [discriminate |].
    intros [<- | [<- | [<- | [<- | []]]]];
      rewrite cell_eqb_refl in *; discriminate.
  - repeat apply mark_assigned_dims. apply initial_assigned_dims.
  - reflexivity.
  - reflexivity.
  - intros d Hd. destruct d as [| [| [| [| d]]]]; try lia; discriminate.
  - intros d Hd.
    destruct d as [| [| [| [| d]]]]; try lia;
      apply check_connected_small with (n := n) (m := m); simpl; lia.
  - reflexivity.
Qed.

End GreedyAny.

Section GreedyAnyResult.
Context {ord : SetOrder}.

(** The run of the greedy algorithm on any non-empty grid. *)
Lemma greedy_run_spec_any (mx : matrix) :
  is_empty_grid mx = false ->
  snd (greedy_run mx) = false /\
  greedy_inv_any mx (rows mx) (cols mx) (fst (greedy_run mx)) /\
  total_assigned (fst (greedy_run mx)) = Z.max 4 (rows mx * cols mx).
Proof.
  intros Hne. destruct (nonempty_dims mx Hne) as [Hn Hm].
  unfold greedy_run. cbv zeta.
  pose proof (greedy_init_inv_any mx (rows mx) (cols mx) Hn Hm) as I0.
  destruct (Z.le_gt_cases 4 (rows mx * cols mx)) as [H4 | H4].
  - destruct (greedy_loop_spec_any mx (rows mx) (cols mx) Hn Hm
                (Z.to_nat (rows mx * cols mx - 4)) _ I0) as (H1 & H2 & H3).
    + change (total_assigned (greedy_init mx (rows mx) (cols mx))) with 4. lia.
    + split; [exact H1 | split; [exact H2 |]]. rewrite H3.
      change (total_assigned (greedy_init mx (rows mx) (cols mx))) with 4. lia.
  - replace (Z.to_nat (rows mx * cols mx - 4)) with 0%nat by lia.
    cbn [greedy_loop fst snd].
    split; [reflexivity | split; [exact I0 |]].
    change (total_assigned (greedy_init mx (rows mx) (cols mx))) with 4. lia.
Qed.

(** X14. On every non-empty grid, also a grid of one row or one column
    where seed corners coincide, each of the four regions that
    [greedy_allocation] returns is non-empty, lists no cell twice, holds
    cells of the grid only, is edge-connected and passes
    [check_connected]. *)
Theorem greedy_regions_connected (mx : matrix) (d : nat) :
  rectangular mx -> is_empty_grid mx = false -> (d < 4)%nat ->
  let r := region (fst (greedy_allocation mx)) d in
  r <> [] /\ NoDup r /\
  (forall c, In c r -> in_grid (rows mx) (cols mx) c) /\
  connected r /\ check_connected r (rows mx) (cols mx) = true.
Proof.
  intros _ Hne Hd r. unfold r, greedy_allocation. rewrite Hne. cbn [fst].
  destruct (greedy_run_spec_any mx Hne) as (_ & I & _).
  set (st := fst (greedy_run mx)) in *.
  assert (Hg : forall c, In c (region (g_regions st) d) ->
                         in_grid (rows mx) (cols mx) c).
  { intros c Hc. apply (ga_grid _ _ _ _ I). apply In_concat_region.
    exists d. rewrite (ga_length _ _ _ _ I). auto. }
  split; [apply (ga_nonempty _ _ _ _ I); exact Hd |].
  split; [apply (ga_nodup _ _ _ _ I) |].
  split; [exact Hg |].
  split; [apply (ga_connected _ _ _ _ I); exact Hd |].
  apply check_connected_complete;
    [apply (ga_nodup _ _ _ _ I) | exact Hg | apply (ga_connected _ _ _ _ I); exact Hd].
Qed.

(** X15. On every non-empty grid the growth loop of [greedy_allocation] is
    never left by [break]: while the loop runs some region has a free
    neighbour.  The returned iteration count is [n * m - 4], or 0 on a grid
    of fewer than 4 cells, and the four regions together list
    [4 + iterations] cells. *)
Theorem greedy_break_unreachable (mx : matrix) :
  rectangular mx -> is_empty_grid mx = false ->
  snd (greedy_run mx) = false /\
  snd (greedy_allocation mx) = Z.max 0 (rows mx * cols mx - 4) /\
  len (concat (fst (greedy_allocation mx))) = 4 + snd (greedy_allocation mx).
Proof.
  intros _ Hne. destruct (greedy_run_spec_any mx Hne) as (Hb & I & Ht).
  unfold greedy_allocation. rewrite Hne. cbn [fst snd].
  split; [exact Hb |].
  rewrite <- (ga_total _ _ _ _ I), (ga_iters _ _ _ _ I). lia.
Qed.

(** X16. The sums that [greedy_allocation] maintains incrementally
    ([sums[dev] += matrix[i][j]] at every assignment) are, at the end of
    the run on any non-empty grid, the sums of the costs of the cells that
    the returned regions list; the imbalance the algorithm steers by is
    the objective value of its result. *)
Theorem greedy_sums_are_region_sums (mx : matrix) :
  rectangular mx -> is_empty_grid mx = false ->
  g_sums (fst (greedy_run mx)) = calculate_sums mx (fst (greedy_allocation mx)) /\
  calculate_imbalance (g_sums (fst (greedy_run mx)))
  = calculate_objective_value mx (fst (greedy_allocation mx)).
Proof.
  intros _ Hne. destruct (greedy_run_spec_any mx Hne) as (_ & I & _).
  unfold greedy_allocation. rewrite Hne. cbn [fst].
  rewrite calculate_sums_eq, (ga_sums _ _ _ _ I). split; reflexivity.
Qed.

(** X17. On a grid with at least two rows and two columns the result of
    [greedy_allocation] passes the test that the exhaustive search applies
    to its candidates: no region is empty and [all_regions_connected]
    holds; the four regions are a valid partition of the grid. *)
Theorem greedy_result_passes_exhaustive_test (mx : matrix) :
  rectangular mx -> 2 <= rows mx -> 2 <= cols mx ->
  let rs := fst (greedy_allocation mx) in
  valid_partition (rows mx) (cols mx) rs /\
  existsb (fun r => (length r =? 0)%nat) rs = false /\
  all_regions_connected rs (rows mx) (cols mx) = true.
Proof.
  intros _ Hn Hm rs.
  pose proof (greedy_valid_partition mx Hn Hm) as Hv. fold rs in Hv.
  split; [exact Hv |].
  destruct Hv as (Hdc & Hne & Hconn).
  assert (H4 : length rs = 4%nat) by apply Hdc.
  split.
  - apply not_true_is_false. intros H. apply existsb_exists in H.
    destruct H as [r [Hr Hl]]. apply Nat.eqb_eq in Hl.
    apply In_nth with (d := []) in Hr. destruct Hr as [d [Hd E]].
    rewrite H4 in Hd. apply (Hne d Hd). unfold region. rewrite E.
    destruct r; [reflexivity | discriminate].
  - unfold all_regions_connected. apply (forallb_regions _ _ H4).
    intros d Hd. apply negb_true_iff, andb_false_iff. right.
    apply negb_false_iff. apply check_connected_complete.
    + apply Hdc.
    + intros c Hc. apply Hdc. exists d. split; assumption.
    + apply Hconn; exact Hd.
Qed.

End GreedyAnyResult.

Lemma greedy_regions_connected_1x5 :
  let mx := [[1; 0; 0; 0; 1]] in
  let r := region (fst (greedy_allocation mx)) 2 in
  r <> [] /\ NoDup r /\
  (forall c, In c r -> in_grid (rows mx) (cols mx) c) /\
  connected r /\ check_connected r (rows mx) (cols mx) = true.
Proof.
  intros mx. apply (@greedy_regions_connected first_seen_order mx 2).
  - reflexivity.
  - reflexivity.
  - lia.
Defined.

Lemma greedy_break_unreachable_1x5 :
  let mx := [[1; 0; 0; 0; 1]] in
  snd (greedy_run mx) = false /\
  snd (greedy_allocation mx) = Z.max 0 (rows mx * cols mx - 4) /\
  len (concat (fst (greedy_allocation mx))) = 4 + snd (greedy_allocation mx).
Proof.
  intros mx. apply (@greedy_break_unreachable first_seen_order mx); reflexivity.
Defined.

Lemma greedy_sums_are_region_sums_3x3 :
  let mx := [[1; 2; 3]; [4; 5; 6]; [7; 8; 9]] in
  g_sums (fst (greedy_run mx)) = calculate_sums mx (fst (greedy_allocation mx)) /\
  calculate_imbalance (g_sums (fst (greedy_run mx)))
  = calculate_objective_value mx (fst (greedy_allocation mx)).
Proof.
  intros mx. apply (@greedy_sums_are_region_sums first_seen_order mx); reflexivity.
Defined.

Lemma greedy_result_passes_exhaustive_test_3x3 :
  let mx := [[1; 2; 3]; [4; 5; 6]; [7; 8; 9]] in
  let rs := fst (greedy_allocation mx) in
  valid_partition (rows mx) (cols mx) rs /\
  existsb (fun r => (length r =? 0)%nat) rs = false /\
  all_regions_connected rs (rows mx) (cols mx) = true.
Proof.
  intros mx. apply (@greedy_result_passes_exhaustive_test first_seen_order mx).
  - reflexivity.
  - vm_compute. discriminate.
  - vm_compute. discriminate.
Defined.

(** * Further properties: the two-stage algorithm *)

Lemma length_cell_run (m s e : Z) :
  length (cell_run m s e) = Z.to_nat (e - s).
Proof.
  unfold cell_run, index_run. rewrite !length_map. apply length_zrange.
Qed.

Lemma run_size (total : Z) (d : nat) :
  run_end total d - run_start total d = region_size total d.
Proof. destruct d; simpl; lia. Qed.

Lemma region_size_bounds (total : Z) (d : nat) :
  total / 4 <= region_size total d <= total / 4 + 1.
Proof.
  unfold region_size. destruct (Z.of_nat d <? total mod 4); lia.
Qed.

Lemma stage1_region_length (mx : matrix) (d : nat) :
  is_empty_grid mx = false -> (d < 4)%nat ->
  len (region (create_initial_allocation mx) d)
  = region_size (rows mx * cols mx) d.
Proof.
  intros Hne Hd. destruct (nonempty_dims mx Hne) as [Hn Hm].
  rewrite stage1_region_run by assumption.
  unfold len. rewrite length_cell_run, run_size.
  pose proof (region_size_bounds (rows mx * cols mx) d).
  assert (0 <= (rows mx * cols mx) / 4) by (apply Z.div_pos; nia).
  lia.
Qed.

(** X18. Stage 1 splits the cells as evenly as possible: region [d] gets
    [total // 4] cells, plus one when [d < total % 4]; so an earlier region
    is never smaller than a later one and never larger by more than one
    cell, and from 4 cells on no region is empty. *)
Theorem create_initial_allocation_sizes (mx : matrix) :
  rectangular mx -> is_empty_grid mx = false ->
  let total := rows mx * cols mx in
  let size d := len (region (create_initial_allocation mx) d) in
  (forall d, (d < 4)%nat ->
     size d = total / 4 + (if Z.of_nat d <? total mod 4 then 1 else 0)) /\
  (forall d d', (d <= d')%nat -> (d' < 4)%nat ->
     size d' <= size d <= size d' + 1) /\
  (4 <= total ->
   forall d, (d < 4)%nat -> region (create_initial_allocation mx) d <> []).
Proof.
  intros _ Hne total size.
  assert (Hsize : forall d, (d < 4)%nat -> size d = region_size total d)
    by (intros d Hd; apply stage1_region_length; assumption).
  split; [exact Hsize | split].
  - intros d d' Hle Hd'.
    rewrite (Hsize d) by lia. rewrite (Hsize d') by lia.
    unfold region_size.
    destruct (Z.of_nat d <? total mod 4) eqn:E1,
             (Z.of_nat d' <? total mod 4) eqn:E2;
      rewrite ?Z.ltb_lt, ?Z.ltb_ge in *; lia.
  - intros H4 d Hd E.
    pose proof (Hsize d Hd) as Hs. unfold size in Hs. rewrite E in Hs.
    pose proof (region_size_bounds total d).
    assert (1 <= total / 4) by (apply Z.div_le_lower_bound; lia).
    unfold len in Hs. simpl in Hs. lia.
Qed.

Lemma create_initial_allocation_sizes_2x3 :
  let mx := [[1; 2; 2]; [1; 3; 3]] in
  let total := rows mx * cols mx in
  let size d := len (region (create_initial_allocation mx) d) in
  (forall d, (d < 4)%nat ->
     size d = total / 4 + (if Z.of_nat d <? total mod 4 then 1 else 0)) /\
  (forall d d', (d <= d')%nat -> (d' < 4)%nat ->
     size d' <= size d <= size d' + 1) /\
  (4 <= total ->
   forall d, (d < 4)%nat -> region (create_initial_allocation mx) d <> []).
Proof.
  intros mx. apply (create_initial_allocation_sizes mx); reflexivity.
Defined.

Lemma has_neighbour_in_spec (other : list cell) (n m : Z) (c : cell) :
  has_neighbour_in other n m c = true <->
  exists c', In c' other /\ adjacent c c' /\ in_grid n m c'.
Proof.
  unfold has_neighbour_in. rewrite existsb_exists. split.
  - intros [d [Hd H]]. apply andb_true_iff in H. destruct H as [Hb Hm].
    exists (shift c d). split; [apply mem_In; exact Hm | split].
    + exists d. auto.
    + apply in_bounds_in_grid; exact Hb.
  - intros [c' [Hin [[d [Hd ->]] Hg]]]. exists d. split; [exact Hd |].
    apply andb_true_iff. split; [apply in_bounds_in_grid; exact Hg |].
    apply mem_In; exact Hin.
Qed.

Section TwoStageProperties.
Context {ord : SetOrder}.

Lemma In_find_boundary_cells_iff (r1 r2 : list cell) (n m : Z) (c : cell) :
  In c (find_boundary_cells r1 r2 n m) <->
  (In c r1 /\ exists c', In c' r2 /\ adjacent c c' /\ in_grid n m c') \/
  (In c r2 /\ exists c', In c' r1 /\ adjacent c c' /\ in_grid n m c').
Proof.
  unfold find_boundary_cells, boundary_insertions.
  rewrite list_of_set_In, in_app_iff, !filter_In, !has_neighbour_in_spec.
  tauto.
Qed.

(** X19. [find_boundary_cells] returns, each once, exactly the cells of
    either region that have an up, down, left or right neighbour inside
    the grid in the other region; exchanging the two regions gives the
    same cells. *)
Theorem find_boundary_cells_exact (r1 r2 : list cell) (n m : Z) :
  NoDup (find_boundary_cells r1 r2 n m) /\
  (forall c,
     In c (find_boundary_cells r1 r2 n m) <->
     (In c r1 /\ exists c', In c' r2 /\ adjacent c c' /\ in_grid n m c') \/
     (In c r2 /\ exists c', In c' r1 /\ adjacent c c' /\ in_grid n m c')) /\
  (forall c,
     In c (find_boundary_cells r1 r2 n m) <->
     In c (find_boundary_cells r2 r1 n m)).
Proof.
  split; [apply list_of_set_NoDup | split].
  - intros c. apply In_find_boundary_cells_iff.
  - intros c. rewrite !In_find_boundary_cells_iff. tauto.
Qed.

(** X20. [simulate_move] predicts the move it simulates: for a cell of the
    source region and two distinct developers, its value is the imbalance
    of the regions after [regions[from_dev].remove(cell)] and
    [regions[to_dev].append(cell)]. *)
Theorem simulate_move_predicts (mx : matrix) (rs : regions) (c : cell)
    (f t : nat) :
  length rs = 4%nat ->
  f <> t -> (f < 4)%nat -> (t < 4)%nat -> In c (region rs f) ->
  simulate_move mx rs c f t
  = calculate_current_imbalance mx (apply_move rs (c, f, t)).
Proof.
  intros H4 Hne Hf Ht Hc. symmetry. apply imbalance_apply_move; assumption.
Qed.

(** The loop keeps every property that the applied moves keep. *)
Lemma optimize_loop_invariant (P : regions -> Prop) (mx : matrix) (n m : Z) :
  (forall rs mv, P rs -> find_best_move mx rs n m = Some mv ->
                 P (apply_move rs mv)) ->
  forall passes rs iterations,
    P rs -> P (fst (optimize_loop passes mx n m rs iterations)).
Proof.
  intros Hstep. induction passes as [| p IH]; intros rs iterations HP.
  - exact HP.
  - cbn [optimize_loop].
    destruct (find_best_move mx rs n m) as [mv |] eqn:E.
    + apply IH. apply Hstep; assumption.
    + exact HP.
Qed.

Lemma cost_nonneg (mx : matrix) (c : cell) :
  nonneg_costs mx -> 0 <= cost mx c.
Proof.
  intros H. unfold nonneg_costs in H. rewrite forallb_forall in H.
  unfold cost.
  destruct (Nat.lt_ge_cases (Z.to_nat (fst c)) (length mx)) as [Hi | Hi].
  - pose proof (H _ (nth_In mx [] Hi)) as Hrow. rewrite forallb_forall in Hrow.
    destruct (Nat.lt_ge_cases (Z.to_nat (snd c))
                (length (nth (Z.to_nat (fst c)) mx []))) as [Hj | Hj].
    + apply Z.leb_le. apply Hrow. apply nth_In. exact Hj.
    + rewrite nth_overflow by exact Hj. lia.
  - rewrite (nth_overflow mx) by exact Hi.
    destruct (Z.to_nat (snd c)); simpl; lia.
Qed.

Lemma region_sum_nonneg (mx : matrix) (r : list cell) :
  nonneg_costs mx -> 0 <= region_sum mx r.
Proof.
  intros H. induction r as [| c r IH].
  - unfold region_sum; simpl; lia.
  - rewrite region_sum_cons. pose proof (cost_nonneg mx c H). lia.
Qed.

(** With non-negative costs, giving away the only cell of a region never
    lowers the imbalance. *)
Lemma single_cell_move_no_gain (mx : matrix) (rs : regions) (c : cell)
    (f t : nat) :
  nonneg_costs mx -> f <> t -> (f < 4)%nat -> (t < 4)%nat ->
  region rs f = [c] ->
  calculate_current_imbalance mx rs <= simulate_move mx rs c f t.
Proof.
  intros Hnn Hne Hf Ht Hr.
  unfold calculate_current_imbalance, simulate_move. cbv zeta.
  rewrite !region_sums_eq.
  pose proof (region_sum_nonneg mx (region rs 0) Hnn).
  pose proof (region_sum_nonneg mx (region rs 1) Hnn).
  pose proof (region_sum_nonneg mx (region rs 2) Hnn).
  pose proof (region_sum_nonneg mx (region rs 3) Hnn).
  pose proof (cost_nonneg mx c Hnn).
  assert (Hs : region_sum mx (region rs f) = cost mx c)
    by (rewrite Hr; apply region_sum_one).
  destruct f as [| [| [| [| f]]]]; try lia;
    destruct t as [| [| [| [| t]]]]; try lia;
    cbn [update nth max_list min_list fold_left]; lia.
Qed.

Lemma remove_first_nonempty (c : cell) (l : list cell) :
  In c l -> l <> [c] -> remove_first c l <> [].
Proof.
  destruct l as [| x t]; simpl; [tauto |].
  intros Hin Hne. destruct (cell_eqb x c) eqn:E.
  - apply cell_eqb_eq in E. subst x. intros Ht. subst t. congruence.
  - discriminate.
Qed.

(** X21. With non-negative costs, on a grid of at least 4 cells, the
    refinement never empties a region: a move that takes the only cell of
    a region cannot lower the imbalance, so all four regions returned by
    [two_stage_allocation] are non-empty, for every iteration budget. *)
Theorem two_stage_regions_nonempty (mx : matrix) (max_iterations : Z)
    (d : nat) :
  rectangular mx -> nonneg_costs mx -> 4 <= rows mx * cols mx ->
  (d < 4)%nat ->
  region (fst (two_stage_allocation mx max_iterations)) d <> [].
Proof.
  intros _ Hnn H4 Hd.
  assert (Hne : is_empty_grid mx = false).
  { destruct mx as [| [| x row] mx]; try reflexivity;
      unfold rows, cols, len in H4; simpl in H4; lia. }
  rewrite two_stage_allocation_eq by exact Hne.
  set (P := fun rs : regions =>
              length rs = 4%nat /\
              forall d, (d < 4)%nat -> region rs d <> []).
  assert (HP : P (fst (optimize_loop (Z.to_nat max_iterations) mx (rows mx)
                         (cols mx) (create_initial_allocation mx) 0))).
  { apply optimize_loop_invariant.
    - intros rs [[c f] t] [Hlen Hall] Hmv.
      destruct (find_best_move_spec mx rs _ _ c f t Hmv)
        as (Hft & Hf & Ht & Hc & Hlt).
      split; [rewrite length_apply_move; exact Hlen |].
      intros d' Hd'. rewrite region_apply_move by lia.
      destruct (Nat.eqb d' t).
      + intros E. apply app_eq_nil in E. destruct E as [_ E]. discriminate.
      + destruct (Nat.eqb d' f); [| apply Hall; exact Hd'].
        apply remove_first_nonempty; [exact Hc |].
        intros Hsingle.
        pose proof (single_cell_move_no_gain mx rs c f t Hnn Hft Hf Ht Hsingle).
        lia.
    - split; [apply length_create_initial_allocation |].
      intros d' Hd' E.
      pose proof (stage1_region_length mx d' Hne Hd') as Hs.
      rewrite E in Hs. unfold len in Hs. simpl in Hs.
      pose proof (region_size_bounds (rows mx * cols mx) d').
      assert (1 <= (rows mx * cols mx) / 4)
        by (apply Z.div_le_lower_bound; lia).
      lia. }
  apply HP. exact Hd.
Qed.

Lemma optimize_loop_stable (mx : matrix) (n m : Z) (p : nat) :
  forall rs iterations,
    snd (optimize_loop p mx n m rs iterations) < iterations + Z.of_nat p ->
    forall p', (p <= p')%nat ->
      optimize_loop p' mx n m rs iterations
      = optimize_loop p mx n m rs iterations.
Proof.
  induction p as [| p IH]; intros rs iterations Hlt p' Hp'.
  - simpl in Hlt. lia.
  - destruct p' as [| p']; [lia |].
    cbn [optimize_loop] in *.
    destruct (find_best_move mx rs n m) as [mv |] eqn:E.
    + apply IH; lia.
    + reflexivity.
Qed.

(** X22. Once the refinement has converged, a larger budget changes
    nothing: if [two_stage_allocation] returns an iteration count below
    [max_iterations], it returns the same regions and the same count for
    every larger budget. *)
Theorem two_stage_budget_stable (mx : matrix) (b b' : Z) :
  snd (two_stage_allocation mx b) < b -> b <= b' ->
  two_stage_allocation mx b' = two_stage_allocation mx b.
Proof.
  unfold two_stage_allocation.
  destruct (is_empty_grid mx); [reflexivity |].
  unfold optimize_boundaries. intros Hlt Hle.
  apply optimize_loop_stable; [| lia].
  destruct (Z.le_gt_cases 0 b) as [Hb | Hb]; [lia |].
  replace (Z.to_nat b) with 0%nat in Hlt by lia. simpl in Hlt. lia.
Qed.

End TwoStageProperties.

Lemma simulate_move_predicts_3x3 :
  let mx := [[1; 2; 3]; [4; 5; 6]; [7; 8; 9]] in
  let rs := create_initial_allocation mx in
  simulate_move mx rs (1, 2) 2 0
  = calculate_current_imbalance mx (apply_move rs ((1, 2), 2%nat, 0%nat)).
Proof.
  intros mx rs. apply (simulate_move_predicts mx rs (1, 2) 2 0).
  - reflexivity.
  - discriminate.
  - lia.
  - lia.
  - simpl. auto.
Defined.

Lemma two_stage_regions_nonempty_3x3 :
  let mx := [[1; 2; 3]; [4; 5; 6]; [7; 8; 9]] in
  nonneg_costs mx /\
  region (fst (two_stage_allocation mx 50)) 3 <> [].
Proof.
  intros mx. split; [reflexivity |].
  apply (@two_stage_regions_nonempty first_seen_order mx 50 3).
  - reflexivity.
  - reflexivity.
  - vm_compute. discriminate.
  - lia.
Defined.

Lemma two_stage_budget_stable_3x3 :
  let mx := [[1; 2; 3]; [4; 5; 6]; [7; 8; 9]] in
  two_stage_allocation mx 100 = two_stage_allocation mx 50.
Proof.
  intros mx. apply (@two_stage_budget_stable first_seen_order mx 50 100).
  - vm_compute. reflexivity.
  - lia.
Defined.
